(** * url_analyzer: crawl frontier and dynamic page exploration

    A shallow embedding of the traversal and deduplication logic of
    [url_analyzer.classification]:

    - [utilities/single_visit_queue.py]  (modules [Queue], [PrefixQueue]
      and [StringOrdering])
    - [utilities/utilities.py]           (module [Utilities]: [Maybe],
      [filter_url], [get_base_url_from_url], [get_fqdn_from_url],
      [zip_with_exception], [url_to_filepath])
    - [browser_automation/playwright_spider.py]  (module [Spider])
    - [browser_automation/dynamic_spider_helpers.py] (module [Dynamic])

    Python sets are [gset]s, dicts are [gmap]s, exceptions are values of
    [exn] carried in a [result]; the browser, the regular-expression
    engine, [tldextract], [w3lib] and [pygtrie] are third-party
    collaborators and enter as section variables. *)

From Stdlib Require Import ZArith Lia Ascii.
From stdpp Require Import gmap strings list fin_sets fin_maps sorting.

Open Scope Z_scope.

(** ** Exceptions *)

(** The Python exceptions the modelled code can raise.  [BrowserError]
  stands for any exception coming out of the browser driver. *)
Inductive exn : Set :=
| KeyError
| ValueError
| TypeError
| AssertionError
| UnboundLocalError
| BrowserError.

#[global] Instance exn_eq_dec : EqDecision exn.
Proof. solve_decision. Defined.

(** [result A]: either a raised exception or a returned value. *)
Abbreviation result := (sum exn).
Abbreviation Raise := inl (only parsing).
Abbreviation Return := inr (only parsing).

(** ** [single_visit_queue.py] *)

Module Queue.

Section single_visit_queue.
Context {T : Type} `{Countable T}.

(** Iteration order of a Python [set]: it depends on the hashes of the
    members and is left unspecified; all that is known is that the
    iteration visits exactly the members. *)
Variable set_iter : gset T → list T.
Hypothesis set_iter_elem : ∀ (X : gset T) (x : T), x ∈ set_iter X ↔ x ∈ X.

Record SingleVisitQueue : Type := mkSingleVisitQueue {
  queue : gset T;
  has_ever_been_enqueued : gset T;
  name : string
}.

Definition construct (name : string) : SingleVisitQueue :=
  {| queue := ∅; has_ever_been_enqueued := ∅; name := name |}.

(** [add_to_queue]: returns [was_added] and the queue after the call. *)
Definition add_to_queue (value : T) (self : SingleVisitQueue)
  : bool * SingleVisitQueue :=
  if decide (value ∈ has_ever_been_enqueued self) then
    (false, self)
  else
    (true,
     {| queue := queue self ∪ {[value]};
        has_ever_been_enqueued := has_ever_been_enqueued self ∪ {[value]};
        name := name self |}).

(** [min(iterable, key=fn)]: the first member, in iteration order, whose
    key is minimal; [ValueError] on an empty iterable. *)
Fixpoint min_by (key : T → Z) (best : T) (l : list T) : T :=
  match l with
  | [] => best
  | x :: l' => min_by key (if key x <? key best then x else best) l'
  end.

Definition py_min (key : T → Z) (l : list T) : result T :=
  match l with
  | [] => Raise ValueError
  | x :: l' => Return (min_by key x l')
  end.

(** [set.pop()]: removes and returns the member the iteration meets
    first; [KeyError] on an empty set. *)
Definition set_pop (X : gset T) : result (T * gset T) :=
  match set_iter X with
  | [] => Raise KeyError
  | x :: _ => Return (x, X ∖ {[x]})
  end.

(** [pop_from_queue]: the outcome and the queue after the call (the
    removal has already happened when an assertion fails). *)
Definition pop_from_queue (prioritization_fn : option (T → Z))
    (self : SingleVisitQueue) : result T * SingleVisitQueue :=
  let popped : result (T * gset T) :=
    match prioritization_fn with
    | None => set_pop (queue self)
    | Some fn =>
        match py_min fn (set_iter (queue self)) with
        | inl e => Raise e
        | inr r => Return (r, queue self ∖ {[r]})
        end
    end in
  match popped with
  | inl e => (Raise e, self)
  | inr (r, queue') =>
      let self' := {| queue := queue';
                      has_ever_been_enqueued := has_ever_been_enqueued self;
                      name := name self |} in
      if decide (r ∈ queue') then (Raise AssertionError, self')
      else if decide (r ∈ has_ever_been_enqueued self) then (Return r, self')
      else (Raise AssertionError, self')
  end.

Definition is_empty (self : SingleVisitQueue) : bool :=
  bool_decide (size (queue self) = 0%nat).

(** *** Call sequences *)

Inductive call : Type :=
| AddToQueue (value : T)
| PopFromQueue (prioritization_fn : option (T → Z)).

(** State of a run: the queue and the values returned by
    [pop_from_queue] so far, most recent first. *)
Definition run_call (c : call) (st : SingleVisitQueue * list T)
  : SingleVisitQueue * list T :=
  match c with
  | AddToQueue v => ((add_to_queue v st.1).2, st.2)
  | PopFromQueue fn =>
      match pop_from_queue fn st.1 with
      | (inr r, q') => (q', r :: st.2)
      | (inl _, q') => (q', st.2)
      end
  end.

Definition run_calls (cs : list call) (st : SingleVisitQueue * list T)
  : SingleVisitQueue * list T :=
  foldl (λ st c, run_call c st) st cs.

(** The bookkeeping invariant of a queue together with its pop history. *)
Definition queue_inv (st : SingleVisitQueue * list T) : Prop :=
  queue st.1 ⊆ has_ever_been_enqueued st.1
  ∧ (∀ v, v ∈ st.2 → v ∈ has_ever_been_enqueued st.1 ∧ v ∉ queue st.1)
  ∧ NoDup st.2.

Lemma min_by_elem key best l : min_by key best l ∈ best :: l.
Proof using Type.
  clear set_iter_elem.
  revert best. induction l as [|x l IH]; intros best; simpl.
  - set_solver.
  - specialize (IH (if key x <? key best then x else best)).
    destruct (key x <? key best); set_solver.
Qed.

Lemma min_by_le key best l :
  key (min_by key best l) ≤ key best
  ∧ ∀ x, x ∈ l → key (min_by key best l) ≤ key x.
Proof using Type.
  clear set_iter_elem.
  revert best. induction l as [|x l IH]; intros best; simpl.
  - split; [lia | set_solver].
  - destruct (IH (if key x <? key best then x else best)) as [Hb Hl].
    destruct (Z.ltb_spec (key x) (key best)); split; try lia.
    + intros y [->|Hy]%elem_of_cons; [lia | auto].
    + intros y [->|Hy]%elem_of_cons; [lia | auto].
Qed.

Lemma py_min_elem key l r : py_min key l = Return r → r ∈ l.
Proof using Type.
  clear set_iter_elem.
  destruct l as [|x l]; simpl; [done|].
  intros [= <-]. apply min_by_elem.
Qed.

Lemma py_min_le key l r x : py_min key l = Return r → x ∈ l → key r ≤ key x.
Proof using Type.
  clear set_iter_elem.
  destruct l as [|y l]; simpl; [done|].
  destruct (min_by_le key y l) as [Hb Hl].
  intros [= <-] [->|Hx]%elem_of_cons; auto.
Qed.

(** A successful pop returns a pending member and removes exactly it. *)
Lemma pop_from_queue_Return fn q r q' :
  pop_from_queue fn q = (Return r, q') →
  r ∈ queue q
  ∧ queue q' = queue q ∖ {[r]}
  ∧ has_ever_been_enqueued q' = has_ever_been_enqueued q.
Proof using set_iter_elem.
  unfold pop_from_queue, set_pop. intros Hpop.
  destruct fn as [fn|].
  - destruct (py_min fn (set_iter (queue q))) as [e|r0] eqn:Hmin;
      [by inversion Hpop|].
    apply py_min_elem, set_iter_elem in Hmin.
    repeat case_decide; inversion Hpop; subst; simpl; auto.
  - destruct (set_iter (queue q)) as [|x l] eqn:Hit; [by inversion Hpop|].
    assert (x ∈ queue q) by (apply set_iter_elem; rewrite Hit; set_solver).
    repeat case_decide; inversion Hpop; subst; simpl; auto.
Qed.

(** A failed pop never adds anything to either set. *)
Lemma pop_from_queue_Raise fn q e q' :
  pop_from_queue fn q = (Raise e, q') →
  queue q' ⊆ queue q
  ∧ has_ever_been_enqueued q' = has_ever_been_enqueued q.
Proof using Type.
  clear set_iter_elem.
  unfold pop_from_queue, set_pop. intros Hpop.
  destruct fn as [fn|].
  - destruct (py_min fn (set_iter (queue q))) as [e0|r0];
      [inversion Hpop; subst; set_solver|].
    repeat case_decide; inversion Hpop; subst; simpl; set_solver.
  - destruct (set_iter (queue q)) as [|x l];
      [inversion Hpop; subst; set_solver|].
    repeat case_decide; inversion Hpop; subst; simpl; set_solver.
Qed.

Lemma queue_inv_construct nm : queue_inv (construct nm, []).
Proof. repeat split; simpl; try set_solver. constructor. Qed.

Lemma queue_inv_run_call c st : queue_inv st → queue_inv (run_call c st).
Proof using set_iter_elem.
  destruct st as [q popped]. intros (Hsub & Hpop & Hnd).
  destruct c as [v|fn]; simpl in *.
  - unfold add_to_queue. case_decide as Hv; simpl; [done|].
    split_and!; simpl; [set_solver| |done].
    intros w Hw. apply Hpop in Hw. set_solver.
  - destruct (pop_from_queue fn q) as [[e|r] q'] eqn:Hq.
    + apply pop_from_queue_Raise in Hq as [Hq1 Hq2].
      split_and!; simpl; [set_solver| |done].
      intros w Hw. apply Hpop in Hw. rewrite Hq2. set_solver.
    + apply pop_from_queue_Return in Hq as (Hr & Hq1 & Hq2).
      split_and!; simpl; rewrite ?Hq1, ?Hq2.
      * set_solver.
      * intros w [->|Hw]%elem_of_cons; [set_solver|].
        apply Hpop in Hw. set_solver.
      * constructor; [|done]. intros Hin. apply Hpop in Hin. tauto.
Qed.

Lemma queue_inv_run_calls cs st : queue_inv st → queue_inv (run_calls cs st).
Proof using set_iter_elem.
  revert st. induction cs as [|c cs IH]; intros st Hst; simpl; [done|].
  apply IH. by apply queue_inv_run_call.
Qed.

Lemma run_calls_app cs1 cs2 st :
  run_calls (cs1 ++ cs2) st = run_calls cs2 (run_calls cs1 st).
Proof. unfold run_calls. apply foldl_app. Qed.

(** The pop history only grows. *)
Lemma run_calls_history cs st v : v ∈ st.2 → v ∈ (run_calls cs st).2.
Proof using Type.
  clear set_iter_elem.
  revert st. induction cs as [|c cs IH]; intros st Hv; simpl; [done|].
  apply IH. destruct c as [w|fn]; simpl; [done|].
  destruct (pop_from_queue fn st.1) as [[e|r] q']; simpl; set_solver.
Qed.

Lemma run_calls_enqueued cs st v :
  v ∈ has_ever_been_enqueued st.1 →
  v ∈ has_ever_been_enqueued (run_calls cs st).1.
Proof using Type.
  clear set_iter_elem.
  revert st. induction cs as [|c cs IH]; intros st Hv; simpl; [done|].
  apply IH. destruct c as [w|fn]; simpl.
  - unfold add_to_queue. case_decide; simpl; set_solver.
  - destruct (pop_from_queue fn st.1) as [[e|r] q'] eqn:Hq; simpl.
    + apply pop_from_queue_Raise in Hq as [_ ->]. done.
    + unfold pop_from_queue in Hq.
      destruct (match fn with
                | Some fn0 =>
                    match py_min fn0 (set_iter (queue st.1)) with
                    | inl e => Raise e
                    | inr r0 => Return (r0, queue st.1 ∖ {[r0]})
                    end
                | None => set_pop (queue st.1)
                end) as [e|[r0 X]]; [by inversion Hq|].
      repeat case_decide; inversion Hq; subst; done.
Qed.

Lemma is_empty_true q : is_empty q = true ↔ queue q = ∅.
Proof using Type.
  clear set_iter_elem.
  unfold is_empty. rewrite bool_decide_eq_true, size_empty_iff.
  by unfold_leibniz.
Qed.

Lemma set_iter_empty (X : gset T) : set_iter X = [] ↔ X = ∅.
Proof using set_iter_elem.
  split.
  - intros Hnil. apply set_eq. intros x. rewrite <- set_iter_elem, Hnil.
    set_solver.
  - intros ->. destruct (set_iter ∅) as [|x l] eqn:Hit; [done|].
    assert (x ∈ (∅ : gset T)) by (apply set_iter_elem; rewrite Hit; set_solver).
    set_solver.
Qed.

(** C1. For every sequence of [add_to_queue] and [pop_from_queue] calls on
    a freshly constructed queue, (1) the values returned by the pops are
    pairwise distinct; (2) once a value has been enqueued, every later
    [add_to_queue] of it returns [False] and leaves the queue unchanged;
    (3) a value that has been popped is never pending again. *)
Theorem no_value_popped_twice (nm : string) :
  (∀ cs, NoDup (run_calls cs (construct nm, [])).2)
  ∧ (∀ cs1 cs2 v,
       v ∈ has_ever_been_enqueued (run_calls cs1 (construct nm, [])).1 →
       let q := (run_calls (cs1 ++ cs2) (construct nm, [])).1 in
       add_to_queue v q = (false, q))
  ∧ (∀ cs1 cs2 v,
       v ∈ (run_calls cs1 (construct nm, [])).2 →
       v ∉ queue (run_calls (cs1 ++ cs2) (construct nm, [])).1).
Proof using set_iter_elem.
  split_and!.
  - intros cs. apply (queue_inv_run_calls cs), queue_inv_construct.
  - intros cs1 cs2 v Hv q. subst q. rewrite run_calls_app.
    unfold add_to_queue. rewrite decide_True; [done|].
    by apply run_calls_enqueued.
  - intros cs1 cs2 v Hv. rewrite run_calls_app.
    pose proof (queue_inv_run_calls cs2 (run_calls cs1 (construct nm, [])))
      as (_ & Hpop & _).
    { apply queue_inv_run_calls, queue_inv_construct. }
    apply Hpop. by apply run_calls_history.
Qed.

(** C9. On an empty queue [pop_from_queue] raises: [KeyError] without a
    prioritization function, [ValueError] with one.  Conversely, on a
    non-empty queue whose pending members have all been enqueued, it
    returns a value: non-emptiness is exactly its precondition. *)
Theorem pop_from_queue_requires_nonempty (q : SingleVisitQueue) :
  (is_empty q = true →
     pop_from_queue None q = (Raise KeyError, q)
     ∧ ∀ fn, pop_from_queue (Some fn) q = (Raise ValueError, q))
  ∧ (is_empty q = false →
     queue q ⊆ has_ever_been_enqueued q →
     ∀ fn, ∃ r q', pop_from_queue fn q = (Return r, q')).
Proof using set_iter_elem.
  split.
  - intros Hq%is_empty_true. unfold pop_from_queue, set_pop.
    apply set_iter_empty in Hq. rewrite Hq. simpl. done.
  - intros Hne Hsub fn.
    assert (set_iter (queue q) ≠ []) as Hit.
    { intros Hnil%set_iter_empty%is_empty_true. congruence. }
    unfold pop_from_queue, set_pop.
    destruct (set_iter (queue q)) as [|x l] eqn:Hl; [done|].
    destruct fn as [fn|]; simpl.
    + pose proof (min_by_elem fn x l) as Hin.
      rewrite <- Hl in Hin. apply set_iter_elem in Hin.
      rewrite decide_False by set_solver.
      rewrite decide_True by set_solver. eauto.
    + assert (x ∈ queue q) by (apply set_iter_elem; rewrite Hl; set_solver).
      rewrite decide_False by set_solver.
      rewrite decide_True by set_solver. eauto.
Qed.

(** *** Further properties of the queue *)

(** The values handed to [add_to_queue] in a call sequence. *)
Definition added (cs : list call) : gset T :=
  list_to_set (omap (λ c, match c with
                          | AddToQueue v => Some v
                          | PopFromQueue _ => None
                          end) cs).

(** [min] returns the first member, in iteration order, among those of
    least key. *)
Lemma min_by_first key best l :
  ∃ i : nat, (best :: l) !! i = Some (min_by key best l)
    ∧ ∀ (j : nat) x, (j < i)%nat → (best :: l) !! j = Some x →
        key (min_by key best l) < key x.
Proof using Type.
  clear set_iter_elem.
  revert best. induction l as [|x l IH]; intros best; simpl.
  - exists 0%nat. split; [done|]. intros j y Hj. lia.
  - destruct (IH (if key x <? key best then x else best)) as (i & Hi & Hlt).
    destruct (min_by_le key (if key x <? key best then x else best) l)
      as [Hb _].
    destruct (Z.ltb_spec (key x) (key best)) as [Hxb|Hxb].
    + exists (S i). split; [done|]. intros [|j] y Hj Hy.
      * injection Hy as <-. lia.
      * apply (Hlt j); [lia|done].
    + destruct i as [|i].
      * exists 0%nat. split; [done|]. intros j y Hj. lia.
      * exists (S (S i)). split; [done|]. intros [|[|j]] y Hj Hy.
        -- injection Hy as <-. apply (Hlt 0%nat); [lia|done].
        -- injection Hy as <-.
           assert (key (min_by key best l) < key best)
             by (apply (Hlt 0%nat); [lia|done]).
           lia.
        -- apply (Hlt (S j)); [lia|done].
Qed.

Lemma pop_from_queue_no_assertion fn q :
  queue q ⊆ has_ever_been_enqueued q →
  (pop_from_queue fn q).1 ≠ Raise AssertionError.
Proof using set_iter_elem.
  intros Hsub. unfold pop_from_queue, set_pop.
  destruct (set_iter (queue q)) as [|x l] eqn:Hl.
  - by destruct fn.
  - destruct fn as [fn|]; simpl.
    + pose proof (min_by_elem fn x l) as Hin.
      rewrite <- Hl in Hin. apply set_iter_elem in Hin.
      rewrite decide_False by set_solver.
      rewrite decide_True by set_solver. done.
    + assert (x ∈ queue q) by (apply set_iter_elem; rewrite Hl; set_solver).
      rewrite decide_False by set_solver.
      rewrite decide_True by set_solver. done.
Qed.

Lemma run_call_enqueued c st :
  queue_inv st →
  has_ever_been_enqueued (run_call c st).1
  = has_ever_been_enqueued st.1 ∪ added [c]
  ∧ (has_ever_been_enqueued st.1 = queue st.1 ∪ list_to_set st.2 →
     has_ever_been_enqueued (run_call c st).1
     = queue (run_call c st).1 ∪ list_to_set (run_call c st).2).
Proof using set_iter_elem.
  destruct st as [q popped]. intros (Hsub & Hpop & Hnd).
  destruct c as [v|fn]; unfold added; simpl in *.
  - unfold add_to_queue. case_decide as Hv; simpl.
    + split; [set_solver|done].
    + split; [set_solver|]. intros ->. set_solver.
  - destruct (pop_from_queue fn q) as [[e|r] q'] eqn:Hq; simpl.
    + pose proof (pop_from_queue_no_assertion fn q Hsub) as Hna.
      rewrite Hq in Hna. simpl in Hna.
      unfold pop_from_queue, set_pop in Hq.
      destruct (set_iter (queue q)) as [|x l] eqn:Hl.
      * destruct fn; simpl in Hq; inversion Hq; subst.
        -- split; [set_solver|done].
        -- split; [set_solver|done].
      * destruct fn; simpl in Hq; repeat case_decide; inversion Hq;
          subst; done.
    + apply pop_from_queue_Return in Hq as (Hr & Hq1 & Hq2).
      rewrite Hq1, Hq2. split; [set_solver|]. intros ->.
      apply set_eq. intros w. simpl.
      rewrite !elem_of_union, elem_of_difference, elem_of_singleton.
      destruct (decide (w = r)); naive_solver.
Qed.

Lemma pop_from_queue_succeeds fn q :
  is_empty q = false →
  queue q ⊆ has_ever_been_enqueued q →
  ∃ r, pop_from_queue fn q
       = (Return r, {| queue := queue q ∖ {[r]};
                       has_ever_been_enqueued := has_ever_been_enqueued q;
                       name := name q |})
       ∧ r ∈ queue q.
Proof using set_iter_elem.
  intros Hne Hsub.
  assert (set_iter (queue q) ≠ []) as Hit.
  { intros Hnil%set_iter_empty%is_empty_true. congruence. }
  unfold pop_from_queue, set_pop.
  destruct (set_iter (queue q)) as [|x l] eqn:Hl; [done|].
  destruct fn as [fn|]; simpl.
  - pose proof (min_by_elem fn x l) as Hin.
    rewrite <- Hl in Hin. apply set_iter_elem in Hin.
    rewrite decide_False by set_solver.
    rewrite decide_True by set_solver. eauto.
  - assert (x ∈ queue q) by (apply set_iter_elem; rewrite Hl; set_solver).
    rewrite decide_False by set_solver.
    rewrite decide_True by set_solver. eauto.
Qed.

(** X1. Every value handed to [add_to_queue] on a fresh queue is accounted
    for: the values ever enqueued are exactly those handed in, each of
    them is either still pending or has been returned by a pop (never
    both), and no pop fails one of the assertions of [pop_from_queue]. *)
Theorem enqueued_values_are_pending_or_popped (nm : string) (cs : list call) :
  has_ever_been_enqueued (run_calls cs (construct nm, [])).1 = added cs
  ∧ has_ever_been_enqueued (run_calls cs (construct nm, [])).1
    = queue (run_calls cs (construct nm, [])).1
      ∪ list_to_set (run_calls cs (construct nm, [])).2
  ∧ queue (run_calls cs (construct nm, [])).1
    ## list_to_set (run_calls cs (construct nm, [])).2
  ∧ ∀ fn, (pop_from_queue fn (run_calls cs (construct nm, [])).1).1
          ≠ Raise AssertionError.
Proof using set_iter_elem.
  assert (∀ cs st, queue_inv st →
            has_ever_been_enqueued (run_calls cs st).1
            = has_ever_been_enqueued st.1 ∪ added cs
            ∧ (has_ever_been_enqueued st.1 = queue st.1 ∪ list_to_set st.2 →
               has_ever_been_enqueued (run_calls cs st).1
               = queue (run_calls cs st).1
                 ∪ list_to_set (run_calls cs st).2)) as Hgen.
  { clear cs. intros cs. induction cs as [|c cs IH]; intros st Hst.
    - simpl. split; [unfold added; simpl; set_solver|done].
    - simpl. destruct (run_call_enqueued c st Hst) as [H1 H2].
      destruct (IH (run_call c st)) as [H3 H4];
        [by apply queue_inv_run_call|].
      split.
      + rewrite H3, H1. unfold added. simpl.
        destruct c; simpl; set_solver.
      + intros Hst2. apply H4, H2, Hst2. }
  pose proof (queue_inv_run_calls cs (construct nm, [])
                (queue_inv_construct nm)) as (Hsub & Hpop & _).
  destruct (Hgen cs (construct nm, []) (queue_inv_construct nm)) as [H1 H2].
  split_and!.
  - rewrite H1. simpl. set_solver.
  - apply H2. simpl. set_solver.
  - intros w Hw1 Hw2%elem_of_list_to_set. apply Hpop in Hw2. tauto.
  - intros fn. by apply pop_from_queue_no_assertion.
Qed.

(** X2. What a successful [pop_from_queue] returns: a pending value that had
    been enqueued, which it removes from the pending set and nothing else;
    with a prioritization function, the first member in iteration order
    among those of least score. *)
Theorem pop_from_queue_returns fn q r q' :
  pop_from_queue fn q = (Return r, q') →
  r ∈ queue q
  ∧ r ∈ has_ever_been_enqueued q
  ∧ q' = {| queue := queue q ∖ {[r]};
            has_ever_been_enqueued := has_ever_been_enqueued q;
            name := name q |}
  ∧ (∀ f, fn = Some f →
       (∀ x, x ∈ queue q → f r ≤ f x)
       ∧ ∃ i : nat, set_iter (queue q) !! i = Some r
           ∧ ∀ (j : nat) x, (j < i)%nat →
               set_iter (queue q) !! j = Some x → f r < f x).
Proof using set_iter_elem.
  unfold pop_from_queue, set_pop. intros Hpop.
  destruct (set_iter (queue q)) as [|y l] eqn:Hl.
  { destruct fn; simpl in Hpop; inversion Hpop. }
  destruct fn as [f|]; simpl in Hpop.
  - pose proof (min_by_elem f y l) as Hin.
    rewrite <- Hl in Hin. apply set_iter_elem in Hin.
    repeat case_decide; inversion Hpop; subst; clear Hpop.
    split_and!; try done.
    intros f' [= <-]. split.
    + intros x Hx%set_iter_elem. rewrite Hl in Hx.
      destruct (min_by_le f y l) as [Hb Hle].
      apply elem_of_cons in Hx as [->|Hx]; auto.
    + apply min_by_first.
  - assert (y ∈ queue q) by (apply set_iter_elem; rewrite Hl; set_solver).
    repeat case_decide; inversion Hpop; subst; clear Hpop.
    split_and!; try done.
Qed.

End single_visit_queue.

End Queue.

(** ** [PrefixOptimizedSingleVisitQueue] *)

Module PrefixQueue.

Section prefix_optimized.
Variable set_iter : gset string → list string.
Hypothesis set_iter_elem :
  ∀ (X : gset string) (x : string), x ∈ set_iter X ↔ x ∈ X.

(** [pygtrie.StringTrie], a third-party container: [trie_setitem k v t]
    is [t[k] = v]; [trie_longest_prefix t s] is [t.longest_prefix(s)[0]],
    the key of the longest stored prefix of [s], if any. *)
Variable StringTrie : Type.
Variable trie_new : StringTrie.
Variable trie_setitem : string → string → StringTrie → StringTrie.
Variable trie_longest_prefix : StringTrie → string → option string.

Record PrefixOptimizedSingleVisitQueue : Type := mkPrefixQueue {
  base : Queue.SingleVisitQueue (T := string);
  trie : StringTrie
}.

Definition construct (name : string) : PrefixOptimizedSingleVisitQueue :=
  {| base := Queue.construct name; trie := trie_new |}.

Definition prioritization_fn (self : PrefixOptimizedSingleVisitQueue)
    (s : string) : Z :=
  match trie_longest_prefix (trie self) s with
  | None => 0
  | Some longest_prefix => Z.of_nat (String.length longest_prefix)
  end.

(** [for i in range(len(value)): self.trie[value[:i]] = value] *)
Definition insert_prefixes (value : string) (t : StringTrie) : StringTrie :=
  foldl (λ t i, trie_setitem (String.substring 0 i value) value t) t
        (seq 0 (String.length value)).

Definition add_to_queue (value : string)
    (self : PrefixOptimizedSingleVisitQueue)
  : bool * PrefixOptimizedSingleVisitQueue :=
  let '(was_added, b) := Queue.add_to_queue value (base self) in
  (was_added, {| base := b; trie := trie self |}).

Definition pop_from_queue (self : PrefixOptimizedSingleVisitQueue)
  : result string * PrefixOptimizedSingleVisitQueue :=
  match Queue.pop_from_queue set_iter (Some (prioritization_fn self))
                             (base self) with
  | (inl e, b) => (Raise e, {| base := b; trie := trie self |})
  | (inr value, b) =>
      (Return value,
       {| base := b; trie := insert_prefixes value (trie self) |})
  end.

Definition is_empty (self : PrefixOptimizedSingleVisitQueue) : bool :=
  Queue.is_empty (base self).

(** The subclass pops exactly as the base class does with its own
    prioritization function; the trie is bookkeeping on the side. *)
Lemma pop_from_queue_base self :
  ((pop_from_queue self).1, base (pop_from_queue self).2)
  = Queue.pop_from_queue set_iter (Some (prioritization_fn self)) (base self).
Proof.
  unfold pop_from_queue.
  by destruct (Queue.pop_from_queue _ _ _) as [[e|r] b].
Qed.

(** The popped value has the least priority among the pending ones. *)
Lemma pop_from_queue_minimal self r self' x :
  pop_from_queue self = (Return r, self') →
  x ∈ Queue.queue (base self) →
  prioritization_fn self r ≤ prioritization_fn self x.
Proof using set_iter_elem.
  unfold pop_from_queue, Queue.pop_from_queue. intros Hpop Hx.
  destruct (Queue.py_min _ _) as [e|r0] eqn:Hmin; [by inversion Hpop|].
  apply set_iter_elem in Hx.
  assert (prioritization_fn self r0 ≤ prioritization_fn self x) as Hle
    by (eapply Queue.py_min_le; eauto).
  repeat case_decide; inversion Hpop; by subst.
Qed.

Lemma pop_from_queue_empty self :
  is_empty self = true → pop_from_queue self = (Raise ValueError, self).
Proof using set_iter_elem.
  intros Hq%Queue.is_empty_true. unfold pop_from_queue, Queue.pop_from_queue.
  apply (Queue.set_iter_empty set_iter set_iter_elem) in Hq. rewrite Hq.
  simpl. by destruct self.
Qed.

(** X3. [pop_from_queue] of the prefix-optimized queue: on an empty queue it
    raises [ValueError] and changes nothing; a value it returns was
    pending, has the least prioritization score among the pending values
    (scores taken from the trie as it was before the call), is removed
    from the pending set and nothing else is, and its prefixes are
    written to the trie; [add_to_queue] never touches the trie. *)
Theorem prefix_pop_from_queue_spec self :
  (is_empty self = true → pop_from_queue self = (Raise ValueError, self))
  ∧ (∀ r self', pop_from_queue self = (Return r, self') →
       r ∈ Queue.queue (base self)
       ∧ (∀ x, x ∈ Queue.queue (base self) →
               prioritization_fn self r ≤ prioritization_fn self x)
       ∧ Queue.queue (base self') = Queue.queue (base self) ∖ {[r]}
       ∧ Queue.has_ever_been_enqueued (base self')
         = Queue.has_ever_been_enqueued (base self)
       ∧ trie self' = insert_prefixes r (trie self))
  ∧ (∀ value, trie (add_to_queue value self).2 = trie self).
Proof using set_iter_elem.
  split_and!.
  - intros Hq%Queue.is_empty_true.
    unfold pop_from_queue, Queue.pop_from_queue.
    apply (Queue.set_iter_empty set_iter set_iter_elem) in Hq. rewrite Hq.
    simpl. by destruct self.
  - intros r self' Hpop. unfold pop_from_queue in Hpop.
    destruct (Queue.pop_from_queue set_iter (Some (prioritization_fn self))
                (base self)) as [[e|r0] b] eqn:Hq; [by inversion Hpop|].
    inversion Hpop; subst; clear Hpop. simpl.
    pose proof (Queue.pop_from_queue_Return set_iter set_iter_elem _ _ _ _ Hq)
      as (Hr & Hq1 & Hq2).
    split_and!; try done.
    intros x Hx%set_iter_elem. unfold Queue.pop_from_queue in Hq.
    destruct (Queue.py_min (prioritization_fn self)
                (set_iter (Queue.queue (base self)))) as [e|r0] eqn:Hmin;
      [by inversion Hq|].
    assert (prioritization_fn self r0 ≤ prioritization_fn self x) as Hle
      by (eapply Queue.py_min_le; eauto).
    repeat case_decide; inversion Hq; by subst.
  - intros value. unfold add_to_queue.
    by destruct (Queue.add_to_queue value (base self)).
Qed.

End prefix_optimized.

End PrefixQueue.

(** ** [_get_string_ordering_indices] and [sort_by_string] *)

Module StringOrdering.

(** Exceptions of these two functions: the [RuntimeError] that
    [_get_string_ordering_indices] raises itself, the [IndexError] of a
    list subscript, and whatever the queue or the dict lets through. *)
Inductive ordering_exn : Set :=
| RuntimeError
| IndexError
| Uncaught (e : exn).

(** A Python [dict] from strings to indices, in insertion order:
    assigning to a key that is present replaces its value in place. *)
Fixpoint dict_setitem (k : string) (v : nat) (d : list (string * nat))
  : list (string * nat) :=
  match d with
  | [] => [(k, v)]
  | (k', v') :: d' =>
      if decide (k' = k) then (k', v) :: d'
      else (k', v') :: dict_setitem k v d'
  end.

Fixpoint dict_getitem (k : string) (d : list (string * nat)) : result nat :=
  match d with
  | [] => Raise KeyError
  | (k', v) :: d' => if decide (k' = k) then Return v else dict_getitem k d'
  end.

Definition dict_keys (d : list (string * nat)) : list string := d.*1.

(** [enumerate] *)
Definition enumerate {A} (l : list A) : list (nat * A) :=
  zip (seq 0 (length l)) l.

(** [sorted] on a list of [int]s *)
Definition sorted (l : list nat) : list nat := merge_sort Nat.le l.

(** [list(range(n))] *)
Definition range (n : nat) : list nat := seq 0 n.

Section string_ordering.
Variable set_iter : gset string → list string.
Hypothesis set_iter_elem :
  ∀ (X : gset string) (x : string), x ∈ set_iter X ↔ x ∈ X.
Variable StringTrie : Type.
Variable trie_new : StringTrie.
Variable trie_setitem : string → string → StringTrie → StringTrie.
Variable trie_longest_prefix : StringTrie → string → option string.

Notation PQ := (PrefixQueue.PrefixOptimizedSingleVisitQueue StringTrie).

(** The first loop: [string_to_indices[url] = index]. *)
Definition index_strings (string_list : list string) : list (string * nat) :=
  foldl (λ d '(index, url), dict_setitem url index d) []
        (enumerate string_list).

(** The second loop: every key is added to the queue. *)
Definition enqueue_keys (keys : list string) (q : PQ) : PQ :=
  foldl (λ q url, (PrefixQueue.add_to_queue StringTrie url q).2) q keys.

(** The [while] loop, which pops until the queue is empty; [None] when
    the fuel runs out first. *)
Fixpoint pop_all (fuel : nat) (string_to_indices : list (string * nat))
    (q : PQ) (indices_list : list nat)
  : option (ordering_exn + list nat) :=
  match fuel with
  | O => None
  | S fuel' =>
      if PrefixQueue.is_empty StringTrie q then Some (inr indices_list)
      else
        match PrefixQueue.pop_from_queue set_iter StringTrie trie_setitem
                trie_longest_prefix q with
        | (inl e, _) => Some (inl (Uncaught e))
        | (inr url, q') =>
            match dict_getitem url string_to_indices with
            | inl e => Some (inl (Uncaught e))
            | inr index =>
                pop_all fuel' string_to_indices q' (indices_list ++ [index])
            end
        end
  end.

Definition _get_string_ordering_indices (fuel : nat)
    (string_list : list string) : option (ordering_exn + list nat) :=
  let string_to_indices := index_strings string_list in
  let q := enqueue_keys (dict_keys string_to_indices)
             (PrefixQueue.construct StringTrie trie_new "string_ordering") in
  match pop_all fuel string_to_indices q [] with
  | None => None
  | Some (inl e) => Some (inl e)
  | Some (inr indices_list) =>
      if decide (sorted indices_list ≠ range (length string_list))
      then Some (inl RuntimeError)
      else Some (inr indices_list)
  end.

(** [[item_list[index] for index in ordering_indices]], with
    non-negative indices. *)
Fixpoint subscript_all {T} (item_list : list T) (indices : list nat)
  : ordering_exn + list T :=
  match indices with
  | [] => inr []
  | index :: rest =>
      match item_list !! index with
      | None => inl IndexError
      | Some item =>
          match subscript_all item_list rest with
          | inl e => inl e
          | inr items => inr (item :: items)
          end
      end
  end.

(** [sort_by_string].  The items are subscripted, so [item_list] is a
    list.  Without [fn], the string of an item is
    [str(x) + "/" + str(uuid.uuid4())]; [uuid4 k] stands for the random
    identifier drawn on the [k]-th call. *)
Definition item_strings {T} (str : T → string) (uuid4 : nat → string)
    (item_list : list T) (fn : option (T → string)) : list string :=
  match fn with
  | Some fn => fn <$> item_list
  | None =>
      imap (λ k x, String.append (str x)
                     (String.append "/" (uuid4 k))) item_list
  end.

Definition sort_by_string {T} (str : T → string) (uuid4 : nat → string)
    (fuel : nat) (item_list : list T) (fn : option (T → string))
  : option (ordering_exn + list T) :=
  match _get_string_ordering_indices fuel
          (item_strings str uuid4 item_list fn) with
  | None => None
  | Some (inl e) => Some (inl e)
  | Some (inr ordering_indices) =>
      Some (subscript_all item_list ordering_indices)
  end.

(** *** The dict *)

Lemma dict_setitem_keys k v d k' :
  k' ∈ dict_keys (dict_setitem k v d) ↔ k' = k ∨ k' ∈ dict_keys d.
Proof.
  unfold dict_keys. induction d as [|[k0 v0] d IH]; simpl.
  - rewrite elem_of_cons, elem_of_nil. tauto.
  - case_decide as Hk; simpl; rewrite !elem_of_cons.
    + subst. tauto.
    + rewrite IH. tauto.
Qed.

Lemma dict_setitem_NoDup k v d :
  NoDup (dict_keys d) → NoDup (dict_keys (dict_setitem k v d)).
Proof.
  induction d as [|[k0 v0] d IH]; simpl.
  - intros _. apply NoDup_singleton.
  - intros [Hk0 Hd]%NoDup_cons. case_decide as Hk; simpl.
    + apply NoDup_cons. done.
    + apply NoDup_cons. split; [|by apply IH].
      fold (dict_keys (dict_setitem k v d)). rewrite dict_setitem_keys.
      intros [->|Hin]; done.
Qed.

Lemma dict_getitem_setitem k v d k' :
  dict_getitem k' (dict_setitem k v d)
  = if decide (k = k') then Return v else dict_getitem k' d.
Proof.
  induction d as [|[k0 v0] d IH]; simpl.
  - done.
  - destruct (decide (k0 = k)) as [->|Hk]; simpl.
    + by destruct (decide (k = k')).
    + destruct (decide (k0 = k')) as [->|Hk'].
      * by rewrite decide_False by done.
      * done.
Qed.

Lemma enumerate_snoc {A} (l : list A) x :
  enumerate (l ++ [x]) = enumerate l ++ [(length l, x)].
Proof.
  unfold enumerate. rewrite length_app. simpl. rewrite seq_app. simpl.
  rewrite zip_with_app by (by rewrite length_seq). done.
Qed.

Lemma index_strings_snoc l x :
  index_strings (l ++ [x]) = dict_setitem x (length l) (index_strings l).
Proof.
  unfold index_strings. rewrite enumerate_snoc, foldl_app. done.
Qed.

(** After the first loop the keys are the strings of the list, each
    once, and each key is mapped to a position where it stands. *)
Lemma index_strings_spec l :
  NoDup (dict_keys (index_strings l))
  ∧ (∀ k, k ∈ dict_keys (index_strings l) ↔ k ∈ l)
  ∧ (∀ k, k ∈ l →
       ∃ i : nat, dict_getitem k (index_strings l) = Return i
                  ∧ l !! i = Some k).
Proof.
  induction l as [|x l (Hnd & Hkeys & Hget)] using rev_ind.
  - split_and!; [constructor|done|]. intros k Hk. by apply elem_of_nil in Hk.
  - rewrite index_strings_snoc. split_and!.
    + by apply dict_setitem_NoDup.
    + intros k. rewrite dict_setitem_keys, Hkeys, elem_of_app,
        list_elem_of_singleton. tauto.
    + intros k Hk. rewrite dict_getitem_setitem.
      destruct (decide (x = k)) as [->|Hxk].
      * exists (length l). split; [done|].
        by rewrite lookup_app_r, Nat.sub_diag by lia.
      * apply elem_of_app in Hk as [Hk|Hk%list_elem_of_singleton]; [|done].
        destruct (Hget k Hk) as (i & Hi & Hli). exists i. split; [done|].
        by apply lookup_app_l_Some.
Qed.

(** *** The queue *)

Lemma enqueue_keys_spec keys (q : PQ) :
  Queue.queue (PrefixQueue.base StringTrie q)
  = Queue.has_ever_been_enqueued (PrefixQueue.base StringTrie q) →
  Queue.queue (PrefixQueue.base StringTrie (enqueue_keys keys q))
  = Queue.queue (PrefixQueue.base StringTrie q) ∪ list_to_set keys
  ∧ Queue.has_ever_been_enqueued
      (PrefixQueue.base StringTrie (enqueue_keys keys q))
    = Queue.queue (PrefixQueue.base StringTrie q) ∪ list_to_set keys.
Proof.
  clear set_iter_elem.
  revert q. induction keys as [|k keys IH]; intros q Hq; simpl.
  - split; [set_solver|]. rewrite <- Hq. set_solver.
  - destruct (IH (PrefixQueue.add_to_queue StringTrie k q).2) as [H1 H2].
    { unfold PrefixQueue.add_to_queue, Queue.add_to_queue.
      case_decide; simpl; [done|]. by rewrite Hq. }
    change (enqueue_keys (k :: keys) q)
      with (enqueue_keys keys (PrefixQueue.add_to_queue StringTrie k q).2).
    rewrite H1, H2.
    unfold PrefixQueue.add_to_queue, Queue.add_to_queue.
    case_decide as Hk; simpl.
    + rewrite <- Hq in Hk. split; set_solver.
    + split; set_solver.
Qed.

(** The [while] loop empties the queue: with more fuel than pending
    values it returns, having appended one index per pending value. *)
Lemma pop_all_spec d fuel : ∀ (q : PQ) acc,
  (size (Queue.queue (PrefixQueue.base StringTrie q)) < fuel)%nat →
  Queue.queue (PrefixQueue.base StringTrie q)
  ⊆ Queue.has_ever_been_enqueued (PrefixQueue.base StringTrie q) →
  (∀ k, k ∈ Queue.queue (PrefixQueue.base StringTrie q) →
        ∃ i, dict_getitem k d = Return i) →
  ∃ popped indices,
    pop_all fuel d q acc = Some (inr (acc ++ indices))
    ∧ NoDup popped
    ∧ (∀ k, k ∈ popped ↔ k ∈ Queue.queue (PrefixQueue.base StringTrie q))
    ∧ Forall2 (λ k i, dict_getitem k d = Return i) popped indices.
Proof using set_iter_elem.
  induction fuel as [|fuel IH]; intros q acc Hsize Hsub Hget; [lia|].
  simpl. unfold PrefixQueue.is_empty.
  destruct (Queue.is_empty (PrefixQueue.base StringTrie q)) eqn:Hempty.
  - apply Queue.is_empty_true in Hempty. exists [], [].
    rewrite app_nil_r. split_and!; [done|constructor| |constructor].
    intros k. rewrite Hempty. set_solver.
  - destruct (Queue.pop_from_queue_succeeds set_iter set_iter_elem
                (Some (PrefixQueue.prioritization_fn StringTrie
                         trie_longest_prefix q))
                _ Hempty Hsub) as (r & Hpop & Hr).
    unfold PrefixQueue.pop_from_queue. rewrite Hpop.
    destruct (Hget r Hr) as (i & Hi). rewrite Hi.
    match goal with
    | |- context [pop_all fuel d ?q' (acc ++ [i])] =>
        destruct (IH q' (acc ++ [i]))
          as (popped & indices & Hrun & Hnd & Hmem & Hall)
    end; simpl.
    + assert (size (Queue.queue (PrefixQueue.base StringTrie q) ∖ {[r]})
              < size (Queue.queue (PrefixQueue.base StringTrie q)))%nat.
      { apply subset_size. set_solver. }
      lia.
    + set_solver.
    + intros k Hk. apply Hget. set_solver.
    + rewrite Hrun. exists (r :: popped), (i :: indices).
      rewrite <- app_assoc. simpl in *. split_and!.
      * done.
      * apply NoDup_cons. split; [|done]. rewrite Hmem. set_solver.
      * intros k. rewrite elem_of_cons, Hmem, elem_of_difference,
          elem_of_singleton.
        destruct (decide (k = r)); naive_solver.
      * by constructor.
Qed.

(** *** [sorted] and [range] *)

Lemma Sorted_seq start n : Sorted le (seq start n).
Proof.
  revert start. induction n as [|n IH]; intros start; simpl.
  - constructor.
  - constructor; [apply IH|]. destruct n; simpl; constructor. lia.
Qed.

Lemma sorted_range (l : list nat) n : sorted l = range n ↔ l ≡ₚ seq 0 n.
Proof.
  unfold sorted, range. split.
  - intros <-. symmetry. apply merge_sort_Permutation.
  - intros Hperm. apply (Sorted_unique le).
    + apply (Sorted_merge_sort le).
    + apply Sorted_seq.
    + by rewrite merge_sort_Permutation.
Qed.

Lemma Forall2_elem_of_r {A B} (R : A → B → Prop) l k y :
  Forall2 R l k → y ∈ k → ∃ x, x ∈ l ∧ R x y.
Proof.
  induction 1 as [|x y' l k HR Hall IH]; [by intros ?%elem_of_nil|].
  intros [->|Hy]%elem_of_cons.
  - exists x. split; [left|done].
  - destruct (IH Hy) as (x' & Hx' & HR'). exists x'. split; [by right|done].
Qed.

Lemma Forall2_impl_elem_of {A B} (R R' : A → B → Prop) l k :
  Forall2 R l k → (∀ x y, x ∈ l → R x y → R' x y) → Forall2 R' l k.
Proof.
  induction 1 as [|x y l k HR Hall IH]; intros Himpl; constructor.
  - apply Himpl; [left|done].
  - apply IH. intros x' y' Hx'. apply Himpl. by right.
Qed.

Lemma positions_NoDup (l popped : list string) (indices : list nat) :
  Forall2 (λ k i, l !! i = Some k) popped indices →
  NoDup popped → NoDup indices.
Proof.
  induction 1 as [|k i popped indices Hki Hall IH]; [constructor|].
  intros [Hk Hnd]%NoDup_cons. apply NoDup_cons. split; [|by apply IH].
  intros Hin. destruct (Forall2_elem_of_r _ _ _ _ Hall Hin) as (k' & Hk' & Hl).
  rewrite Hki in Hl. by injection Hl as <-.
Qed.

(** What the queue was filled with, and what the loop returns for it. *)
Lemma pop_all_indices string_list fuel :
  (length string_list < fuel)%nat →
  ∃ popped indices,
    pop_all fuel (index_strings string_list)
      (enqueue_keys (dict_keys (index_strings string_list))
         (PrefixQueue.construct StringTrie trie_new "string_ordering")) []
    = Some (inr indices)
    ∧ NoDup popped
    ∧ (∀ k, k ∈ popped ↔ k ∈ string_list)
    ∧ Forall2 (λ k i, string_list !! i = Some k) popped indices.
Proof using set_iter_elem.
  intros Hfuel.
  destruct (index_strings_spec string_list) as (Hnd & Hkeys & Hget).
  destruct (enqueue_keys_spec (dict_keys (index_strings string_list))
              (PrefixQueue.construct StringTrie trie_new "string_ordering"))
    as [Hq Hever]; [done|].
  simpl in Hq, Hever.
  assert (∀ k, k ∈ Queue.queue (PrefixQueue.base StringTrie
                 (enqueue_keys (dict_keys (index_strings string_list))
                    (PrefixQueue.construct StringTrie trie_new
                       "string_ordering")))
               ↔ k ∈ string_list) as Hmem.
  { intros k. rewrite Hq, elem_of_union, elem_of_list_to_set, Hkeys.
    set_solver. }
  edestruct (pop_all_spec (index_strings string_list) fuel
               (enqueue_keys (dict_keys (index_strings string_list))
                  (PrefixQueue.construct StringTrie trie_new
                     "string_ordering")) [])
    as (popped & indices & Hrun & Hpnd & Hpmem & Hall).
  - rewrite Hq, union_empty_l_L, size_list_to_set by done.
    assert (dict_keys (index_strings string_list) ⊆+ string_list) as Hsub.
    { apply NoDup_submseteq; [done|]. intros k. by rewrite Hkeys. }
    apply submseteq_length in Hsub. lia.
  - rewrite Hq, Hever. done.
  - intros k Hk%Hmem. destruct (Hget k Hk) as (i & Hi & _). eauto.
  - exists popped, indices. simpl in Hrun. split_and!; [done|done| |].
    + intros k. by rewrite Hpmem, Hmem.
    + eapply Forall2_impl_elem_of; [exact Hall|]. simpl. intros k i Hk Hi.
      apply Hpmem, Hmem in Hk.
      destruct (Hget k Hk) as (i' & Hi' & Hl). congruence.
Qed.

Lemma ordering_indices_cases string_list fuel :
  (length string_list < fuel)%nat →
  (NoDup string_list →
     ∃ indices,
       _get_string_ordering_indices fuel string_list = Some (inr indices)
       ∧ indices ≡ₚ seq 0 (length string_list))
  ∧ (¬ NoDup string_list →
     _get_string_ordering_indices fuel string_list = Some (inl RuntimeError)).
Proof using set_iter_elem.
  intros Hfuel.
  destruct (pop_all_indices string_list fuel Hfuel)
    as (popped & indices & Hrun & Hnd & Hmem & Hall).
  unfold _get_string_ordering_indices. rewrite Hrun.
  assert (popped ⊆+ string_list) as Hsub.
  { apply NoDup_submseteq; [done|]. intros k. by rewrite Hmem. }
  pose proof (Forall2_length _ _ _ Hall) as Hlen.
  split.
  - intros Hl. exists indices.
    assert (popped ≡ₚ string_list) as Hperm.
    { apply NoDup_Permutation; [done|done|]. intros k. by rewrite Hmem. }
    assert (indices ≡ₚ seq 0 (length string_list)) as Hind.
    { apply submseteq_length_Permutation.
      - apply NoDup_submseteq; [by eapply positions_NoDup|].
        intros i Hi.
        destruct (Forall2_elem_of_r _ _ _ _ Hall Hi) as (k & _ & Hk).
        apply lookup_lt_Some in Hk. apply elem_of_seq. lia.
      - rewrite length_seq, <- Hlen, Hperm. done. }
    split; [|done]. rewrite decide_False; [done|].
    intros Hne. apply Hne. by apply sorted_range.
  - intros Hl. rewrite decide_True; [done|].
    intros Hperm%sorted_range. apply Hl.
    assert (popped ≡ₚ string_list) as Hp.
    { apply submseteq_length_Permutation; [done|].
      apply Permutation_length in Hperm. rewrite length_seq in Hperm. lia. }
    by rewrite <- Hp.
Qed.

Lemma subscript_all_omap {T} (item_list : list T) indices :
  (∀ i : nat, i ∈ indices → (i < length item_list)%nat) →
  subscript_all item_list indices
  = inr (omap (λ i, item_list !! i) indices).
Proof.
  induction indices as [|i indices IH]; intros Hlt; simpl; [done|].
  destruct (lookup_lt_is_Some_2 item_list i) as [x Hx].
  { apply Hlt. left. }
  rewrite Hx, IH; [done|]. intros j Hj. apply Hlt. by right.
Qed.

Lemma omap_lookup_seq {T} (l1 l2 : list T) :
  omap (λ i, (l1 ++ l2) !! i) (seq (length l1) (length l2)) = l2.
Proof.
  revert l1. induction l2 as [|x l2 IH]; intros l1; simpl; [done|].
  rewrite lookup_app_r, Nat.sub_diag by lia. simpl. f_equal.
  specialize (IH (l1 ++ [x])). rewrite <- app_assoc in IH. simpl in IH.
  rewrite length_app in IH. simpl in IH.
  by rewrite Nat.add_1_r in IH.
Qed.

Lemma length_item_strings {T} (str : T → string) uuid4 item_list fn :
  length (item_strings str uuid4 item_list fn) = length item_list.
Proof.
  destruct fn; simpl; [apply length_fmap | apply length_imap].
Qed.

(** X4. [_get_string_ordering_indices] run with more fuel than there are
    strings: on pairwise distinct strings it returns the indices
    [0 .. n-1], each once, in the order of the pops; when a string occurs
    twice it raises [RuntimeError].  It never fails in another way and
    never runs out of fuel. *)
Theorem string_ordering_indices_spec string_list fuel :
  (length string_list < fuel)%nat →
  (NoDup string_list →
     ∃ indices,
       _get_string_ordering_indices fuel string_list = Some (inr indices)
       ∧ indices ≡ₚ range (length string_list))
  ∧ (¬ NoDup string_list →
     _get_string_ordering_indices fuel string_list = Some (inl RuntimeError)).
Proof using set_iter_elem.
  apply ordering_indices_cases.
Qed.

(** X5. [sort_by_string] run with more fuel than there are items: when the
    strings of the items are pairwise distinct it returns the items
    rearranged, none lost and none repeated; when two items have the
    same string it raises [RuntimeError]. *)
Theorem sort_by_string_spec {T} (str : T → string) (uuid4 : nat → string)
    (fuel : nat) (item_list : list T) (fn : option (T → string)) :
  (length item_list < fuel)%nat →
  (NoDup (item_strings str uuid4 item_list fn) →
     ∃ items, sort_by_string str uuid4 fuel item_list fn = Some (inr items)
              ∧ items ≡ₚ item_list)
  ∧ (¬ NoDup (item_strings str uuid4 item_list fn) →
     sort_by_string str uuid4 fuel item_list fn = Some (inl RuntimeError)).
Proof using set_iter_elem.
  intros Hfuel. unfold sort_by_string.
  destruct (ordering_indices_cases (item_strings str uuid4 item_list fn) fuel)
    as [Hok Hdup]; [by rewrite length_item_strings|].
  split.
  - intros Hnd. destruct (Hok Hnd) as (indices & -> & Hperm).
    rewrite length_item_strings in Hperm.
    rewrite subscript_all_omap.
    + eexists. split; [done|]. rewrite Hperm.
      pose proof (omap_lookup_seq [] item_list) as Hall. simpl in Hall.
      by rewrite Hall.
    + intros i Hi. rewrite Hperm in Hi. apply elem_of_seq in Hi. lia.
  - intros Hnd. by rewrite (Hdup Hnd).
Qed.

End string_ordering.

End StringOrdering.

(** ** [utilities/utilities.py] *)

Module Utilities.

(** [Maybe[T]]: optional content and optional error message. *)
Record Maybe (A : Type) : Type := mkMaybe {
  content : option A;
  error : option string
}.
Arguments mkMaybe {A} _ _.
Arguments content {A} _.
Arguments error {A} _.

(** [Maybe.unwrap]: the content, or [ValueError] when there is none. *)
Definition unwrap {A} (m : Maybe A) : result A :=
  match content m with
  | None => Raise ValueError
  | Some c => Return c
  end.

(** [url.split("?")[0]]: everything before the first question mark. *)
Fixpoint get_base_url_from_url (url : string) : string :=
  match url with
  | EmptyString => EmptyString
  | String c rest =>
      if Ascii.eqb c "?"%char then EmptyString
      else String c (get_base_url_from_url rest)
  end.

(** What [tldextract.extract] returns. *)
Record ExtractResult : Type := mkExtractResult {
  subdomain : string;
  domain : string;
  suffix : string
}.

(** ['.'.join(parts)] *)
Fixpoint join_dot (parts : list string) : string :=
  match parts with
  | [] => EmptyString
  | [p] => p
  | p :: ps => String.append p (String "."%char (join_dot ps))
  end.

Section filter.
(** [tldextract.extract] and [re.fullmatch(pattern, s) is not None], both
    third-party. *)
Variable tldextract_extract : string → ExtractResult.
Variable re_fullmatch : string → string → bool.

Definition get_fqdn_from_url (url : string) : string :=
  let r := tldextract_extract url in
  join_dot (filter (λ p, (0 <? String.length p)%nat = true)
                   [subdomain r; domain r; suffix r]).

(** [any(re.fullmatch(p, s) is not None for p in patterns)] *)
Definition any_fullmatch (patterns : list string) (s : string) : bool :=
  existsb (λ p, re_fullmatch p s) patterns.

Definition filter_url (url : string)
    (included_fqdn_regex : option string)
    (excluded_fqdn_regex_list : option (list string))
    (included_url_regex : option string)
    (excluded_url_regex_list : option (list string)) : bool :=
  let fqdn := get_fqdn_from_url url in
  let included := true in
  let included :=
    match included, included_fqdn_regex with
    | true, Some r => re_fullmatch r fqdn
    | _, _ => included
    end in
  let included :=
    match included, included_url_regex with
    | true, Some r => re_fullmatch r url
    | _, _ => included
    end in
  let included :=
    match included, excluded_fqdn_regex_list with
    | true, Some l =>
        if (0 <? length l)%nat then negb (any_fullmatch l fqdn) else included
    | _, _ => included
    end in
  let included :=
    match included, excluded_url_regex_list with
    | true, Some l =>
        if (0 <? length l)%nat then negb (any_fullmatch l url) else included
    | _, _ => included
    end in
  included.

Lemma any_fullmatch_false patterns s :
  any_fullmatch patterns s = false ↔
  ∀ p, p ∈ patterns → re_fullmatch p s = false.
Proof.
  unfold any_fullmatch. induction patterns as [|p ps IH]; simpl.
  - split; [intros _ p Hp; by apply elem_of_nil in Hp | done].
  - rewrite orb_false_iff, IH. split.
    + intros [Hp Hps] q [->|Hq]%elem_of_cons; auto.
    + intros Hall. split; [apply Hall; left|].
      intros q Hq. apply Hall. by right.
Qed.

(** [filter_url] with a host pattern and no excluded-host list, which is
    how the spider calls it. *)
Lemma filter_url_spec url fqdn_regex included_url_regex excluded :
  filter_url url (Some fqdn_regex) None included_url_regex excluded = true ↔
    re_fullmatch fqdn_regex (get_fqdn_from_url url) = true
    ∧ (∀ r, included_url_regex = Some r → re_fullmatch r url = true)
    ∧ (∀ l r, excluded = Some l → r ∈ l → re_fullmatch r url = false).
Proof.
  unfold filter_url.
  destruct (re_fullmatch fqdn_regex (get_fqdn_from_url url)) eqn:Hhost;
    [|naive_solver].
  assert ((match excluded with
           | Some l =>
               if (0 <? length l)%nat then negb (any_fullmatch l url) else true
           | None => true
           end = true) ↔
          ∀ l r, excluded = Some l → r ∈ l → re_fullmatch r url = false)
    as Hexcl.
  { destruct excluded as [l|]; [|naive_solver].
    destruct (Nat.ltb_spec 0 (length l)) as [Hlen|Hlen].
    - rewrite negb_true_iff, any_fullmatch_false. naive_solver.
    - assert (l = []) as -> by (apply nil_length_inv; lia).
      split; [|done]. intros _ l r [= <-] Hr. by apply elem_of_nil in Hr. }
  destruct included_url_regex as [ur|].
  - destruct (re_fullmatch ur url) eqn:Hurl; [|naive_solver].
    rewrite Hexcl. naive_solver.
  - rewrite Hexcl. naive_solver.
Qed.

(** X6. [filter_url] with all of its parameters: it returns [True]
    exactly when every include pattern that is supplied fully matches
    (the host pattern the host name, the URL pattern the URL) and no
    pattern of a supplied exclude list fully matches (the host list the
    host name, the URL list the URL).  So with no pattern at all every
    URL passes, and an empty exclude list is the same as none. *)
Theorem filter_url_all_parameters url included_fqdn_regex excluded_fqdn
    included_url_regex excluded_url :
  (filter_url url included_fqdn_regex excluded_fqdn included_url_regex
              excluded_url = true
   ↔ (∀ r, included_fqdn_regex = Some r →
           re_fullmatch r (get_fqdn_from_url url) = true)
     ∧ (∀ r, included_url_regex = Some r → re_fullmatch r url = true)
     ∧ (∀ l r, excluded_fqdn = Some l → r ∈ l →
               re_fullmatch r (get_fqdn_from_url url) = false)
     ∧ (∀ l r, excluded_url = Some l → r ∈ l → re_fullmatch r url = false))
  ∧ filter_url url None None None None = true
  ∧ filter_url url included_fqdn_regex (Some []) included_url_regex (Some [])
    = filter_url url included_fqdn_regex None included_url_regex None.
Proof.
  assert (∀ (excluded : option (list string)) (s : string),
    (match excluded with
     | Some l =>
         if (0 <? length l)%nat then negb (any_fullmatch l s) else true
     | None => true
     end = true) ↔
    ∀ l r, excluded = Some l → r ∈ l → re_fullmatch r s = false)
    as Hexcl.
  { intros excluded s. destruct excluded as [l|]; [|naive_solver].
    destruct (Nat.ltb_spec 0 (length l)) as [Hlen|Hlen].
    - rewrite negb_true_iff, any_fullmatch_false. naive_solver.
    - assert (l = []) as -> by (apply nil_length_inv; lia).
      split; [|done]. intros _ l r [= <-] Hr. by apply elem_of_nil in Hr. }
  split_and!.
  - unfold filter_url.
    destruct included_fqdn_regex as [fr|].
    + destruct (re_fullmatch fr (get_fqdn_from_url url)) eqn:Hhost;
        [|naive_solver].
      destruct included_url_regex as [ur|].
      * destruct (re_fullmatch ur url) eqn:Hurl; [|naive_solver].
        specialize (Hexcl excluded_fqdn (get_fqdn_from_url url)) as Hf.
        destruct (match excluded_fqdn with
                  | Some l => _
                  | None => true
                  end); [|naive_solver].
        rewrite (Hexcl excluded_url url). naive_solver.
      * specialize (Hexcl excluded_fqdn (get_fqdn_from_url url)) as Hf.
        destruct (match excluded_fqdn with
                  | Some l => _
                  | None => true
                  end); [|naive_solver].
        rewrite (Hexcl excluded_url url). naive_solver.
    + destruct included_url_regex as [ur|].
      * destruct (re_fullmatch ur url) eqn:Hurl; [|naive_solver].
        specialize (Hexcl excluded_fqdn (get_fqdn_from_url url)) as Hf.
        destruct (match excluded_fqdn with
                  | Some l => _
                  | None => true
                  end); [|naive_solver].
        rewrite (Hexcl excluded_url url). naive_solver.
      * specialize (Hexcl excluded_fqdn (get_fqdn_from_url url)) as Hf.
        destruct (match excluded_fqdn with
                  | Some l => _
                  | None => true
                  end); [|naive_solver].
        rewrite (Hexcl excluded_url url). naive_solver.
  - reflexivity.
  - unfold filter_url. simpl.
    destruct included_fqdn_regex as [fr|];
      [destruct (re_fullmatch fr (get_fqdn_from_url url))|];
      destruct included_url_regex as [ur|];
      try destruct (re_fullmatch ur url); reflexivity.
Qed.

End filter.

(** *** More of [utilities.py] *)

(** [Maybe.apply] and [maybe_apply]: a [Maybe] without content comes back
    as it is; otherwise a fresh [Maybe] holds what [fn] returned ([None]
    when [fn] returns Python's [None]) and no error. *)
Definition apply {A B} (fn : A → option B) (self : Maybe A) : Maybe B :=
  match content self with
  | None => {| content := None; error := error self |}
  | Some c => {| content := fn c; error := None |}
  end.

Definition maybe_apply {A B} (maybe : Maybe A) (fn : A → option B)
  : Maybe B :=
  match content maybe with
  | None => {| content := None; error := error maybe |}
  | Some c => {| content := fn c; error := None |}
  end.

(** [Maybe.monad_join] and [maybe_monad_join] *)
Definition monad_join {A B} (fn : A → Maybe B) (self : Maybe A) : Maybe B :=
  match content self with
  | None => {| content := None; error := error self |}
  | Some c => fn c
  end.

Definition maybe_monad_join {A B} (maybe : Maybe A) (fn : A → Maybe B)
  : Maybe B :=
  match content maybe with
  | None => {| content := None; error := error maybe |}
  | Some c => fn c
  end.

(** [zip_with_exception] *)
Definition zip_with_exception {A B} (l1 : list A) (l2 : list B)
  : result (list (A * B)) :=
  if bool_decide (length l1 ≠ length l2) then Raise ValueError
  else Return (zip l1 l2).




(** X8. Chaining on a [Maybe]: [unwrap] of [apply] returns a value exactly
    when there was content and the function returned one, and raises
    [ValueError] otherwise; [apply] keeps the error of a [Maybe] without
    content and drops it otherwise; two [apply] in a row are one [apply]
    of the composed function; [monad_join] is associative and [apply] is
    a [monad_join]. *)
Theorem maybe_chaining {A B C} (m : Maybe A) (f : A → option B)
    (g : B → option C) (f' : A → Maybe B) (g' : B → Maybe C) :
  (∀ y, unwrap (apply f m) = Return y
        ↔ ∃ x, content m = Some x ∧ f x = Some y)
  ∧ ((¬ ∃ x y, content m = Some x ∧ f x = Some y) →
     unwrap (apply f m) = Raise ValueError)
  ∧ error (apply f m)
    = match content m with None => error m | Some _ => None end
  ∧ apply g (apply f m) = apply (λ x, f x ≫= g) m
  ∧ monad_join g' (monad_join f' m)
    = monad_join (λ x, monad_join g' (f' x)) m
  ∧ apply f m = monad_join (λ x, {| content := f x; error := None |}) m
  ∧ maybe_apply m f = apply f m
  ∧ maybe_monad_join m f' = monad_join f' m.
Proof.
  unfold unwrap, apply, monad_join, maybe_apply, maybe_monad_join.
  destruct m as [[x|] e]; simpl.
  - split_and!; try done.
    + intros y. destruct (f x) as [y'|] eqn:Hf; simpl; split.
      * intros [= ->]. eauto.
      * intros (x' & [= <-] & Hy). congruence.
      * done.
      * intros (x' & [= <-] & Hy). congruence.
    + intros Hno. destruct (f x) as [y'|] eqn:Hf; [|done].
      destruct Hno. eauto.
    + by destruct (f x).
  - split_and!; try done. intros y. split; [done|].
    intros (x' & ? & ?). done.
Qed.

(** X9. [zip_with_exception] raises [ValueError] exactly when the two
    lists differ in length; otherwise the pairs it returns give back the
    two lists, component by component. *)
Theorem zip_with_exception_spec {A B} (l1 : list A) (l2 : list B) :
  (zip_with_exception l1 l2 = Raise ValueError ↔ length l1 ≠ length l2)
  ∧ (∀ pairs, zip_with_exception l1 l2 = Return pairs →
       pairs.*1 = l1 ∧ pairs.*2 = l2 ∧ length pairs = length l1).
Proof.
  unfold zip_with_exception. case_bool_decide as Hlen; split.
  - done.
  - done.
  - split; [done|]. intros Hne. by destruct Hne.
  - intros pairs [= <-]. split_and!.
    + apply fst_zip. lia.
    + apply snd_zip. lia.
    + rewrite length_zip_with. lia.
Qed.

(** [s.replace(old, new)] for one-character strings *)
Fixpoint replace (old new : ascii) (s : string) : string :=
  match s with
  | EmptyString => EmptyString
  | String c rest =>
      String (if Ascii.eqb c old then new else c) (replace old new rest)
  end.

(** [url_to_filepath]; [uuid4] stands for [str(uuid.uuid4())]. *)
Definition url_to_filepath (uuid4 : string) (url : string) : string :=
  String.append
    (String.substring 0 100
       (replace ":" "_" (replace "/" "_" (get_base_url_from_url url))))
    uuid4.

Lemma replace_chars old new s c :
  c ∈ String.list_ascii_of_string (replace old new s) →
  (c = new ∧ old ∈ String.list_ascii_of_string s)
  ∨ (c ≠ old ∧ c ∈ String.list_ascii_of_string s).
Proof.
  induction s as [|d s IH]; simpl; [by intros ?%elem_of_nil|].
  intros [->|Hin]%elem_of_cons.
  - destruct (Ascii.eqb_spec d old) as [->|Hne].
    + left. split; [done|left].
    + right. split; [done|left].
  - destruct (IH Hin) as [[-> Hold]|[Hne Hc]].
    + left. split; [done|by right].
    + right. split; [done|by right].
Qed.

Lemma substring_chars m s c :
  c ∈ String.list_ascii_of_string (String.substring 0 m s) →
  c ∈ String.list_ascii_of_string s.
Proof.
  revert s. induction m as [|m IH]; intros s; simpl.
  - destruct s; simpl; by intros ?%elem_of_nil.
  - destruct s as [|d s]; simpl; [done|].
    intros [->|Hin]%elem_of_cons; [left|right; auto].
Qed.

Lemma substring_length m s : (String.length (String.substring 0 m s) ≤ m)%nat.
Proof.
  revert s. induction m as [|m IH]; intros s; simpl.
  - destruct s; simpl; lia.
  - destruct s as [|d s]; simpl; [lia|]. specialize (IH s). lia.
Qed.

Lemma get_base_url_chars url c :
  c ∈ String.list_ascii_of_string (get_base_url_from_url url) →
  c ≠ "?"%char ∧ c ∈ String.list_ascii_of_string url.
Proof.
  induction url as [|d url IH]; simpl; [by intros ?%elem_of_nil|].
  destruct (Ascii.eqb_spec d "?"%char) as [->|Hne]; simpl.
  - by intros ?%elem_of_nil.
  - intros [->|Hin]%elem_of_cons; [split; [done|left]|].
    destruct (IH Hin). split; [done|by right].
Qed.

(** X10. The file name that [url_to_filepath] builds is safe to use inside a
    directory: before the random suffix stand at most 100 characters,
    none of them a slash, a colon or a question mark, and each of them an
    underscore or a character of the URL. *)
Theorem url_to_filepath_is_a_file_name (uuid4 url : string) :
  ∃ stem,
    url_to_filepath uuid4 url = String.append stem uuid4
    ∧ (String.length stem ≤ 100)%nat
    ∧ ∀ c, c ∈ String.list_ascii_of_string stem →
        c ≠ "/"%char ∧ c ≠ ":"%char ∧ c ≠ "?"%char
        ∧ (c = "_"%char ∨ c ∈ String.list_ascii_of_string url).
Proof.
  eexists. split; [reflexivity|]. split; [apply substring_length|].
  intros c Hc%substring_chars.
  apply replace_chars in Hc as [[-> Hold]|[Hne1 Hc]].
  - split_and!; try done. by left.
  - apply replace_chars in Hc as [[-> Hold]|[Hne2 Hc]].
    + split_and!; try done. by left.
    + apply get_base_url_chars in Hc as [Hq Hc]. split_and!; try done.
      by right.
Qed.

End Utilities.

(** ** Reference models of two third-party functions

    The theorems about the scope filter hold for any [re.fullmatch] and
    any [tldextract.extract].  To evaluate the filter on concrete URLs the
    two functions are given small executable models, covering what those
    URLs and patterns use. *)

Module Re.

(** Regular expressions over bytes; the fragment of Python's [re] syntax
    made of literal characters, backslash-escaped characters, [.] and the
    postfix star. *)
Inductive regex : Set :=
| Void
| Eps
| Lit (c : ascii)
| AnyChar
| Cat (r1 r2 : regex)
| Alt (r1 r2 : regex)
| Star (r : regex).

Inductive token : Set :=
| TLit (c : ascii)
| TAny
| TStar.

Definition is_special (c : ascii) : bool :=
  existsb (Ascii.eqb c)
    ["+"; "?"; "("; ")"; "["; "]"; "{"; "}"; "|"; "^"; "$"]%char.

Fixpoint tokenize (p : string) : option (list token) :=
  match p with
  | EmptyString => Some []
  | String c rest =>
      if Ascii.eqb c "\"%char then
        match rest with
        | EmptyString => None
        | String d rest' =>
            if is_special d || Ascii.eqb d "."%char || Ascii.eqb d "*"%char
               || Ascii.eqb d "\"%char
            then cons (TLit d) <$> tokenize rest'
            else None
        end
      else if Ascii.eqb c "."%char then cons TAny <$> tokenize rest
      else if Ascii.eqb c "*"%char then cons TStar <$> tokenize rest
      else if is_special c then None
      else cons (TLit c) <$> tokenize rest
  end.

Definition atom (t : token) : regex :=
  match t with
  | TLit c => Lit c
  | TAny => AnyChar
  | TStar => Void
  end.

Fixpoint build (ts : list token) : option regex :=
  match ts with
  | [] => Some Eps
  | TStar :: _ => None
  | t :: TStar :: rest => Cat (Star (atom t)) <$> build rest
  | t :: rest => Cat (atom t) <$> build rest
  end.

Definition parse (p : string) : option regex :=
  tokenize p ≫= build.

Fixpoint nullable (r : regex) : bool :=
  match r with
  | Void | Lit _ | AnyChar => false
  | Eps | Star _ => true
  | Cat r1 r2 => nullable r1 && nullable r2
  | Alt r1 r2 => nullable r1 || nullable r2
  end.

Definition newline : ascii := ascii_of_nat 10.

(** Brzozowski derivative; [.] matches every character but a newline. *)
Fixpoint deriv (c : ascii) (r : regex) : regex :=
  match r with
  | Void | Eps => Void
  | Lit d => if Ascii.eqb c d then Eps else Void
  | AnyChar => if Ascii.eqb c newline then Void else Eps
  | Cat r1 r2 =>
      if nullable r1
      then Alt (Cat (deriv c r1) r2) (deriv c r2)
      else Cat (deriv c r1) r2
  | Alt r1 r2 => Alt (deriv c r1) (deriv c r2)
  | Star r1 => Cat (deriv c r1) (Star r1)
  end.

Fixpoint matches (r : regex) (s : string) : bool :=
  match s with
  | EmptyString => nullable r
  | String c rest => matches (deriv c r) rest
  end.

(** [re.fullmatch(pattern, s) is not None], for patterns of the fragment
    (a pattern outside it matches nothing). *)
Definition fullmatch (pattern s : string) : bool :=
  match parse pattern with
  | Some r => matches r s
  | None => false
  end.

End Re.

Module Tld.

(** The part of an absolute URL after the scheme separator. *)
Fixpoint after_scheme (s : string) : option string :=
  match s with
  | String ":" (String "/" (String "/" rest)) => Some rest
  | String _ rest => after_scheme rest
  | EmptyString => None
  end.

(** Everything before the first character of [stops]. *)
Fixpoint take_until (stops : list ascii) (s : string) : string :=
  match s with
  | EmptyString => EmptyString
  | String c rest =>
      if existsb (Ascii.eqb c) stops then EmptyString
      else String c (take_until stops rest)
  end.

(** What follows the last [@], if there is one. *)
Fixpoint after_last_at (s : string) : option string :=
  match s with
  | EmptyString => None
  | String c rest =>
      match after_last_at rest with
      | Some r => Some r
      | None => if Ascii.eqb c "@"%char then Some rest else None
      end
  end.

(** Host of a URL: the network location without user information and
    port. *)
Definition hostname (url : string) : string :=
  let netloc :=
    take_until ["/"; "?"; "#"]%char (default url (after_scheme url)) in
  take_until [":"%char] (default netloc (after_last_at netloc)).

(** [s.split(".")] *)
Fixpoint split_dot (s : string) : list string :=
  match s with
  | EmptyString => [EmptyString]
  | String c rest =>
      if Ascii.eqb c "."%char then EmptyString :: split_dot rest
      else match split_dot rest with
           | [] => [String c EmptyString]
           | l :: ls => String c l :: ls
           end
  end.

Section extract.
(** The public suffixes known to the extractor, e.g. [com], [co.uk]. *)
Variable suffixes : list string.

(** Walk the labels from the left until what remains is a known suffix. *)
Fixpoint find_suffix (before_rev rest : list string)
  : list string * list string :=
  match rest with
  | [] => (before_rev, [])
  | l :: rest' =>
      if bool_decide (Utilities.join_dot rest ∈ suffixes)
      then (before_rev, rest)
      else find_suffix (l :: before_rev) rest'
  end.

Definition extract (url : string) : Utilities.ExtractResult :=
  let '(before_rev, suf) := find_suffix [] (split_dot (hostname url)) in
  {| Utilities.subdomain := Utilities.join_dot (rev (tail before_rev));
     Utilities.domain := default EmptyString (head before_rev);
     Utilities.suffix := Utilities.join_dot suf |}.

End extract.

Example hostname_example : hostname "http://sub.example.com/x" = "sub.example.com".
Proof. reflexivity. Qed.

Example extract_example :
  extract ["com"] "http://sub.example.com/x"
  = Utilities.mkExtractResult "sub" "example" "com".
Proof. reflexivity. Qed.

Example fqdn_example :
  Utilities.get_fqdn_from_url (extract ["com"]) "http://sub.example.com/x"
  = "sub.example.com".
Proof. reflexivity. Qed.

End Tld.

(** ** [browser_automation/datamodel.py] *)

Module Datamodel.

(** [BrowserUrlVisit]: the fields the crawl logic reads; HTML, storage
    state and the logs are carried by the browser and not inspected. *)
Record BrowserUrlVisit : Type := mkBrowserUrlVisit {
  starting_url : option string;
  ending_url : option string;
  open_url_calling_context : option string
}.

Record SignatureHandle : Type := mkSignatureHandle {
  signature : string;
  kind : string;
  inject_random_text_in_all_inputs : bool
}.

Record SignatureSequence : Type := mkSignatureSequence {
  signature_sequence : list SignatureHandle;
  required_signatures : gset string
}.

#[global] Instance BrowserUrlVisit_eq_dec : EqDecision BrowserUrlVisit.
Proof. solve_decision. Defined.

#[global] Instance SignatureHandle_eq_dec : EqDecision SignatureHandle.
Proof. solve_decision. Defined.

#[global] Instance SignatureSequence_eq_dec : EqDecision SignatureSequence.
Proof. solve_decision. Defined.

End Datamodel.

(** ** [browser_automation/playwright_spider.py] *)

Module Spider.
Import Utilities Datamodel.

Definition URL_ASSET_REGEX : string :=
  "^http(.*)\.(js|css|png|jpg|jpeg|woff2|svg|pdf)(\?.*|)$".

(** [VisitedUrl]: the fields the spider reads (forms, screenshots and the
    dynamic visits ride along in the browser's answer). *)
Record VisitedUrl : Type := mkVisitedUrl {
  url : string;
  open_url_browser_url_visit : BrowserUrlVisit;
  urls_on_page : option (list string)
}.

Section spider.
(** Iteration order of Python sets and the [pygtrie] trie, as in
    [PrefixQueue]. *)
Variable set_iter : gset string → list string.
Hypothesis set_iter_elem :
  ∀ (X : gset string) (x : string), x ∈ set_iter X ↔ x ∈ X.
Variable StringTrie : Type.
Variable trie_new : StringTrie.
Variable trie_setitem : string → string → StringTrie → StringTrie.
Variable trie_longest_prefix : StringTrie → string → option string.

(** Third-party functions: [tldextract.extract], [re.fullmatch] and
    [re.match] (as truth values), and
    [w3lib.url.canonicalize_url(url, keep_fragments=True)]. *)
Variable tldextract_extract : string → ExtractResult.
Variable re_fullmatch : string → string → bool.
Variable re_match : string → string → bool.
Variable canonicalize_url : string → string.

Abbreviation Frontier := (PrefixQueue.PrefixOptimizedSingleVisitQueue StringTrie).

Record PlaywrightSpider : Type := mkPlaywrightSpider {
  included_fqdn_regex : string;
  included_url_regex : option string;
  excluded_url_regex : option string;
  max_urls_per_base_url : Z;
  max_url_count : Z;
  enqueued_base_url_to_parameterized_url_set : gmap string (gset string);
  visited_urls : gmap string VisitedUrl;
  url_queue : Frontier;
  skipped_urls : gset string;
  asset_urls : gset string;
  (** files written by [write_to_directory], most recent first *)
  written : list VisitedUrl
}.

(** [PlaywrightSpider.__init__] *)
Definition init (included_fqdn_regex : string)
    (excluded_url_regex : option string)
    (max_urls_per_base_url max_url_count : Z)
    (included_url_regex : option string) : PlaywrightSpider :=
  {| included_fqdn_regex := included_fqdn_regex;
     included_url_regex := included_url_regex;
     excluded_url_regex := excluded_url_regex;
     max_urls_per_base_url := max_urls_per_base_url;
     max_url_count := max_url_count;
     enqueued_base_url_to_parameterized_url_set := ∅;
     visited_urls := ∅;
     url_queue := PrefixQueue.construct StringTrie trie_new "url_queue";
     skipped_urls := ∅;
     asset_urls := ∅;
     written := [] |}.

Definition set_groups (m : gmap string (gset string))
    (self : PlaywrightSpider) : PlaywrightSpider :=
  {| included_fqdn_regex := included_fqdn_regex self;
     included_url_regex := included_url_regex self;
     excluded_url_regex := excluded_url_regex self;
     max_urls_per_base_url := max_urls_per_base_url self;
     max_url_count := max_url_count self;
     enqueued_base_url_to_parameterized_url_set := m;
     visited_urls := visited_urls self;
     url_queue := url_queue self;
     skipped_urls := skipped_urls self;
     asset_urls := asset_urls self;
     written := written self |}.

Definition set_url_queue (q : Frontier)
    (self : PlaywrightSpider) : PlaywrightSpider :=
  {| included_fqdn_regex := included_fqdn_regex self;
     included_url_regex := included_url_regex self;
     excluded_url_regex := excluded_url_regex self;
     max_urls_per_base_url := max_urls_per_base_url self;
     max_url_count := max_url_count self;
     enqueued_base_url_to_parameterized_url_set :=
       enqueued_base_url_to_parameterized_url_set self;
     visited_urls := visited_urls self;
     url_queue := q;
     skipped_urls := skipped_urls self;
     asset_urls := asset_urls self;
     written := written self |}.

(** [self.skipped_urls.add(url)] *)
Definition add_skipped (u : string)
    (self : PlaywrightSpider) : PlaywrightSpider :=
  {| included_fqdn_regex := included_fqdn_regex self;
     included_url_regex := included_url_regex self;
     excluded_url_regex := excluded_url_regex self;
     max_urls_per_base_url := max_urls_per_base_url self;
     max_url_count := max_url_count self;
     enqueued_base_url_to_parameterized_url_set :=
       enqueued_base_url_to_parameterized_url_set self;
     visited_urls := visited_urls self;
     url_queue := url_queue self;
     skipped_urls := skipped_urls self ∪ {[u]};
     asset_urls := asset_urls self;
     written := written self |}.

(** [self.asset_urls.add(url)] *)
Definition add_asset (u : string)
    (self : PlaywrightSpider) : PlaywrightSpider :=
  {| included_fqdn_regex := included_fqdn_regex self;
     included_url_regex := included_url_regex self;
     excluded_url_regex := excluded_url_regex self;
     max_urls_per_base_url := max_urls_per_base_url self;
     max_url_count := max_url_count self;
     enqueued_base_url_to_parameterized_url_set :=
       enqueued_base_url_to_parameterized_url_set self;
     visited_urls := visited_urls self;
     url_queue := url_queue self;
     skipped_urls := skipped_urls self;
     asset_urls := asset_urls self ∪ {[u]};
     written := written self |}.

(** [self.visited_urls[url] = visited_url] followed by
    [visited_url.write_to_directory(...)] *)
Definition record_visit (u : string) (v : VisitedUrl)
    (self : PlaywrightSpider) : PlaywrightSpider :=
  {| included_fqdn_regex := included_fqdn_regex self;
     included_url_regex := included_url_regex self;
     excluded_url_regex := excluded_url_regex self;
     max_urls_per_base_url := max_urls_per_base_url self;
     max_url_count := max_url_count self;
     enqueued_base_url_to_parameterized_url_set :=
       enqueued_base_url_to_parameterized_url_set self;
     visited_urls := <[u := v]> (visited_urls self);
     url_queue := url_queue self;
     skipped_urls := skipped_urls self;
     asset_urls := asset_urls self;
     written := v :: written self |}.

Definition url_in_scope (self : PlaywrightSpider) (u : string) : bool :=
  let excluded_url_regex_list :=
    match excluded_url_regex self with
    | None => None
    | Some r => Some [r]
    end in
  filter_url tldextract_extract re_fullmatch u
             (Some (included_fqdn_regex self)) None
             (included_url_regex self) excluded_url_regex_list.

Definition url_is_asset (u : string) : bool := re_match URL_ASSET_REGEX u.

(** [_enqueue_url].  Reading [defaultdict(set)] at a missing key stores an
    empty set there, which the length test does. *)
Definition _enqueue_url (u : string)
    (self : PlaywrightSpider) : PlaywrightSpider :=
  if negb (String.prefix "http" u) then add_skipped u self
  else
    let u := canonicalize_url u in
    let base_url := get_base_url_from_url u in
    if negb (url_in_scope self u) then add_skipped u self
    else if url_is_asset u then add_asset u self
    else
      let groups := enqueued_base_url_to_parameterized_url_set self in
      let group := default ∅ (groups !! base_url) in
      let self := set_groups (<[base_url := group]> groups) self in
      if Z.of_nat (size group) >=? max_urls_per_base_url self
      then add_skipped u self
      else
        let self :=
          set_groups (<[base_url := group ∪ {[u]}]> groups) self in
        let '(was_added, q) :=
          PrefixQueue.add_to_queue StringTrie u (url_queue self) in
        set_url_queue q self.

(** *** Bookkeeping of the frontier *)

(** The URLs accepted into the frontier so far. *)
Definition accepted (self : PlaywrightSpider) : gset string :=
  Queue.has_ever_been_enqueued (PrefixQueue.base StringTrie (url_queue self)).

(** The URLs pending in the frontier. *)
Definition pending (self : PlaywrightSpider) : gset string :=
  Queue.queue (PrefixQueue.base StringTrie (url_queue self)).

(** [self.enqueued_base_url_to_parameterized_url_set[base_url]] *)
Definition group (self : PlaywrightSpider) (base_url : string) : gset string :=
  default ∅ (enqueued_base_url_to_parameterized_url_set self !! base_url).

(** The accepted URLs whose base URL is [base_url]. *)
Definition accepted_variants (self : PlaywrightSpider) (base_url : string)
  : gset string :=
  filter (λ u, get_base_url_from_url u = base_url) (accepted self).

Inductive call : Type :=
| EnqueueUrl (u : string)
| PopFromQueue.

Definition run_call (self : PlaywrightSpider) (c : call) : PlaywrightSpider :=
  match c with
  | EnqueueUrl u => _enqueue_url u self
  | PopFromQueue =>
      set_url_queue
        (PrefixQueue.pop_from_queue set_iter StringTrie trie_setitem
           trie_longest_prefix (url_queue self)).2 self
  end.

Definition run_calls (cs : list call) (self : PlaywrightSpider)
  : PlaywrightSpider :=
  foldl run_call self cs.

Definition spider_inv (self : PlaywrightSpider) : Prop :=
  (∀ b, Z.of_nat (size (group self b)) ≤ Z.max 0 (max_urls_per_base_url self))
  ∧ (∀ b, group self b = accepted_variants self b).

Lemma add_to_queue_accepts (u : string) (q : Frontier) :
  Queue.has_ever_been_enqueued
    (PrefixQueue.base StringTrie (PrefixQueue.add_to_queue StringTrie u q).2)
  = Queue.has_ever_been_enqueued (PrefixQueue.base StringTrie q) ∪ {[u]}.
Proof.
  unfold PrefixQueue.add_to_queue, Queue.add_to_queue.
  case_decide; simpl; set_solver.
Qed.

Lemma group_insert_default (m : gmap string (gset string)) b b' :
  default ∅ (<[b := default ∅ (m !! b)]> m !! b') = default ∅ (m !! b').
Proof.
  destruct (decide (b = b')) as [->|Hne].
  - by rewrite lookup_insert_eq.
  - by rewrite lookup_insert_ne.
Qed.

Lemma _enqueue_url_max u self :
  max_urls_per_base_url (_enqueue_url u self) = max_urls_per_base_url self.
Proof.
  unfold _enqueue_url.
  repeat (case_match; simpl; try done).
Qed.

Lemma spider_inv_init fq ex n m iu : spider_inv (init fq ex n m iu).
Proof.
  split; intros b.
  - unfold group. cbn [init enqueued_base_url_to_parameterized_url_set].
    rewrite lookup_empty. cbn [from_option id].
    rewrite size_empty. lia.
  - unfold group, accepted_variants, accepted; simpl.
    rewrite lookup_empty; simpl. set_solver.
Qed.

Lemma spider_inv_enqueue u self :
  spider_inv self → spider_inv (_enqueue_url u self).
Proof.
  intros [Hsize Heq]. unfold _enqueue_url.
  destruct (negb (String.prefix "http" u)); [done|].
  destruct (negb (url_in_scope self (canonicalize_url u))); [done|].
  destruct (url_is_asset (canonicalize_url u)); [done|].
  fold (group self (get_base_url_from_url (canonicalize_url u))).
  set (cu := canonicalize_url u). set (b0 := get_base_url_from_url cu).
  cbn [max_urls_per_base_url set_groups].
  destruct (Z.geb_spec (Z.of_nat (size (group self b0)))
                       (max_urls_per_base_url self)) as [Hfull|Hroom].
  - split; intros b; unfold group, accepted_variants, accepted; simpl;
      rewrite group_insert_default; [apply Hsize | apply Heq].
  - cbn [url_queue set_groups].
    destruct (PrefixQueue.add_to_queue StringTrie cu (url_queue self))
      as [was_added q] eqn:Hadd.
    assert (Queue.has_ever_been_enqueued (PrefixQueue.base StringTrie q)
            = accepted self ∪ {[cu]}) as Hacc.
    { change q with (was_added, q).2. rewrite <- Hadd.
      by rewrite add_to_queue_accepts. }
    split; intros b; unfold group, accepted_variants, accepted; simpl.
    + destruct (decide (b0 = b)) as [<-|Hne].
      * rewrite lookup_insert_eq; simpl.
        pose proof (size_union_alt (group self b0) {[cu]}) as Hu.
        pose proof (subseteq_size ({[cu]} ∖ group self b0) {[cu]}) as Hs.
        rewrite size_singleton in Hs.
        specialize (Hs ltac:(set_solver)).
        unfold group in *. lia.
      * rewrite lookup_insert_ne by done. apply Hsize.
    + rewrite Hacc. pose proof Heq as Heq'.
      unfold group, accepted_variants in Heq'.
      destruct (decide (b0 = b)) as [<-|Hne].
      * rewrite lookup_insert_eq. cbn [from_option id]. rewrite Heq'.
        subst b0. set_solver.
      * rewrite lookup_insert_ne by done. rewrite Heq'.
        subst b0. set_solver.
Qed.

Lemma pop_keeps_accepted (q : Frontier) :
  Queue.has_ever_been_enqueued
    (PrefixQueue.base StringTrie
       (PrefixQueue.pop_from_queue set_iter StringTrie trie_setitem
          trie_longest_prefix q).2)
  = Queue.has_ever_been_enqueued (PrefixQueue.base StringTrie q).
Proof.
  pose proof (PrefixQueue.pop_from_queue_base set_iter StringTrie
                trie_setitem trie_longest_prefix q) as Hb.
  destruct (Queue.pop_from_queue set_iter _ (PrefixQueue.base StringTrie q))
    as [[e|r] b] eqn:Hpop.
  - apply Queue.pop_from_queue_Raise in Hpop as [_ Hq].
    injection Hb as _ Hbase. rewrite Hbase. exact Hq.
  - apply (Queue.pop_from_queue_Return set_iter set_iter_elem) in Hpop
      as (_ & _ & Hq).
    injection Hb as _ Hbase. rewrite Hbase. exact Hq.
Qed.

Lemma spider_inv_run_call c self : spider_inv self → spider_inv (run_call self c).
Proof.
  destruct c as [u|]; simpl; [apply spider_inv_enqueue|].
  intros [Hsize Heq].
  split; intros b; unfold group, accepted_variants, accepted; simpl.
  - apply Hsize.
  - rewrite pop_keeps_accepted. apply Heq.
Qed.

Lemma spider_inv_run_calls cs self :
  spider_inv self → spider_inv (run_calls cs self).
Proof.
  revert self. induction cs as [|c cs IH]; intros self Hinv; simpl; [done|].
  apply IH. by apply spider_inv_run_call.
Qed.

Lemma run_calls_max cs self :
  max_urls_per_base_url (run_calls cs self) = max_urls_per_base_url self.
Proof.
  revert self. induction cs as [|c cs IH]; intros self; simpl; [done|].
  rewrite IH. destruct c; simpl; [apply _enqueue_url_max | done].
Qed.

(** C2. From a fresh spider, after any sequence of [_enqueue_url] calls
    and pops, at most [max_urls_per_base_url] URLs of any one base URL
    have been accepted into the frontier.  Once that many have been, a
    further variant of the base URL is not queued, and it is recorded in
    [skipped_urls] when it reaches the cap test (it starts with [http],
    is in scope and is not an asset); below the cap such a variant is
    accepted. *)
Theorem bounded_fan_out fq ex (n m : Z) iu (cs : list call) (base_url : string) :
  0 ≤ n →
  let self := run_calls cs (init fq ex n m iu) in
  Z.of_nat (size (accepted_variants self base_url)) ≤ n
  ∧ ∀ u,
      get_base_url_from_url (canonicalize_url u) = base_url →
      (n ≤ Z.of_nat (size (accepted_variants self base_url)) →
       url_queue (_enqueue_url u self) = url_queue self)
      ∧ (String.prefix "http" u = true →
         url_in_scope self (canonicalize_url u) = true →
         url_is_asset (canonicalize_url u) = false →
         if n <=? Z.of_nat (size (accepted_variants self base_url))
         then canonicalize_url u ∈ skipped_urls (_enqueue_url u self)
              ∧ url_queue (_enqueue_url u self) = url_queue self
         else canonicalize_url u ∈ accepted (_enqueue_url u self)
              ∧ skipped_urls (_enqueue_url u self) = skipped_urls self).
Proof.
  intros Hn self.
  assert (spider_inv self) as [Hsize Heq]
    by apply spider_inv_run_calls, spider_inv_init.
  assert (max_urls_per_base_url self = n) as Hmax
    by (unfold self; by rewrite run_calls_max).
  split.
  { rewrite <- Heq. specialize (Hsize base_url). lia. }
  intros u Hbase. rewrite <- !Heq.
  assert (∀ s : PlaywrightSpider,
    (let '(was_added, q) :=
       PrefixQueue.add_to_queue StringTrie (canonicalize_url u) (url_queue s) in
     set_url_queue q s)
    = set_url_queue
        (PrefixQueue.add_to_queue StringTrie (canonicalize_url u)
           (url_queue s)).2 s) as Hlet.
  { intros s. by destruct (PrefixQueue.add_to_queue _ _ _). }
  split.
  - intros Hfull. unfold _enqueue_url.
    destruct (negb (String.prefix "http" u)); [done|].
    destruct (negb (url_in_scope self (canonicalize_url u))); [done|].
    destruct (url_is_asset (canonicalize_url u)); [done|].
    rewrite Hbase. fold (group self base_url).
    cbn [max_urls_per_base_url set_groups]. rewrite Hmax.
    destruct (Z.geb_spec (Z.of_nat (size (group self base_url))) n);
      [done|lia].
  - intros Hhttp Hscope Hasset. unfold _enqueue_url.
    rewrite Hhttp, Hscope, Hasset, Hbase. cbn [negb].
    fold (group self base_url).
    cbn [max_urls_per_base_url set_groups]. rewrite Hmax.
    destruct (Z.geb_spec (Z.of_nat (size (group self base_url))) n) as [Hf|Hr];
      destruct (Z.leb_spec n (Z.of_nat (size (group self base_url))));
      try lia.
    + simpl. split; [set_solver|done].
    + rewrite Hlet. unfold accepted. cbn [url_queue set_url_queue set_groups].
      rewrite add_to_queue_accepts. split; [set_solver|done].
Qed.

(** *** What the frontier holds *)

(** The settings of a spider, which no method changes. *)
Definition config (self : PlaywrightSpider)
  : string * option string * option string * Z * Z :=
  (included_fqdn_regex self, included_url_regex self,
   excluded_url_regex self, max_urls_per_base_url self, max_url_count self).


Lemma url_in_scope_config s s' u :
  config s = config s' → url_in_scope s u = url_in_scope s' u.
Proof.
  unfold config, url_in_scope. intros [= -> -> -> _ _]. done.
Qed.

Lemma config_enqueue u self : config (_enqueue_url u self) = config self.
Proof.
  unfold _enqueue_url, config.
  repeat (case_match; simpl; try done).
Qed.

Lemma add_to_queue_pending (u : string) (q : Frontier) :
  Queue.queue
    (PrefixQueue.base StringTrie (PrefixQueue.add_to_queue StringTrie u q).2)
  = if decide (u ∈ Queue.has_ever_been_enqueued (PrefixQueue.base StringTrie q))
    then Queue.queue (PrefixQueue.base StringTrie q)
    else Queue.queue (PrefixQueue.base StringTrie q) ∪ {[u]}.
Proof.
  unfold PrefixQueue.add_to_queue, Queue.add_to_queue.
  case_decide; simpl; done.
Qed.

(** The four outcomes of [_enqueue_url]. *)
Lemma _enqueue_url_cases u self :
  (String.prefix "http" u = false ∧ _enqueue_url u self = add_skipped u self)
  ∨ (String.prefix "http" u = true
     ∧ url_in_scope self (canonicalize_url u) = false
     ∧ _enqueue_url u self = add_skipped (canonicalize_url u) self)
  ∨ (String.prefix "http" u = true
     ∧ url_in_scope self (canonicalize_url u) = true
     ∧ url_is_asset (canonicalize_url u) = true
     ∧ _enqueue_url u self = add_asset (canonicalize_url u) self)
  ∨ (String.prefix "http" u = true
     ∧ url_in_scope self (canonicalize_url u) = true
     ∧ url_is_asset (canonicalize_url u) = false
     ∧ max_urls_per_base_url self
       ≤ Z.of_nat (size (group self
                           (get_base_url_from_url (canonicalize_url u))))
     ∧ accepted (_enqueue_url u self) = accepted self
     ∧ pending (_enqueue_url u self) = pending self
     ∧ asset_urls (_enqueue_url u self) = asset_urls self
     ∧ skipped_urls (_enqueue_url u self)
       = skipped_urls self ∪ {[canonicalize_url u]}
     ∧ visited_urls (_enqueue_url u self) = visited_urls self
     ∧ written (_enqueue_url u self) = written self)
  ∨ (String.prefix "http" u = true
     ∧ url_in_scope self (canonicalize_url u) = true
     ∧ url_is_asset (canonicalize_url u) = false
     ∧ Z.of_nat (size (group self
                         (get_base_url_from_url (canonicalize_url u))))
       < max_urls_per_base_url self
     ∧ accepted (_enqueue_url u self)
       = accepted self ∪ {[canonicalize_url u]}
     ∧ pending (_enqueue_url u self)
       = (if decide (canonicalize_url u ∈ accepted self) then pending self
          else pending self ∪ {[canonicalize_url u]})
     ∧ asset_urls (_enqueue_url u self) = asset_urls self
     ∧ skipped_urls (_enqueue_url u self) = skipped_urls self
     ∧ visited_urls (_enqueue_url u self) = visited_urls self
     ∧ written (_enqueue_url u self) = written self).
Proof.
  unfold _enqueue_url.
  destruct (String.prefix "http" u); simpl; [|by left].
  destruct (url_in_scope self (canonicalize_url u)); simpl;
    [|by right; left].
  destruct (url_is_asset (canonicalize_url u)); simpl;
    [by right; right; left|].
  fold (group self (get_base_url_from_url (canonicalize_url u))).
  destruct (Z.geb_spec
              (Z.of_nat (size (group self
                 (get_base_url_from_url (canonicalize_url u)))))
              (max_urls_per_base_url self)) as [Hfull|Hroom].
  - right; right; right; left. split_and!; done.
  - right; right; right; right.
    destruct (PrefixQueue.add_to_queue StringTrie (canonicalize_url u)
                (url_queue self)) as [was_added q] eqn:Hadd.
    assert (q = (PrefixQueue.add_to_queue StringTrie (canonicalize_url u)
                   (url_queue self)).2) as -> by by rewrite Hadd.
    unfold accepted, pending. simpl.
    rewrite add_to_queue_accepts, add_to_queue_pending.
    split_and!; done.
Qed.

(** X11. Every URL handed to [_enqueue_url] is accounted for: one that does
    not start with [http] is recorded in [skipped_urls] as it is; any
    other is canonicalized and then found in [skipped_urls], in
    [asset_urls] or among the accepted URLs.  It is accepted exactly when
    it had been accepted before, or is in scope, is no asset and its base
    URL has room.  The call removes nothing from any of the sets and
    leaves [visited_urls] alone. *)
Theorem enqueue_url_accounts_for_url u self :
  (if String.prefix "http" u
   then canonicalize_url u
        ∈ skipped_urls (_enqueue_url u self)
          ∪ asset_urls (_enqueue_url u self)
          ∪ accepted (_enqueue_url u self)
   else u ∈ skipped_urls (_enqueue_url u self)
        ∧ accepted (_enqueue_url u self) = accepted self)
  ∧ (String.prefix "http" u = true →
     (canonicalize_url u ∈ accepted (_enqueue_url u self)
      ↔ canonicalize_url u ∈ accepted self
        ∨ (url_in_scope self (canonicalize_url u) = true
           ∧ url_is_asset (canonicalize_url u) = false
           ∧ Z.of_nat (size (group self
                (get_base_url_from_url (canonicalize_url u))))
             < max_urls_per_base_url self)))
  ∧ skipped_urls self ⊆ skipped_urls (_enqueue_url u self)
  ∧ asset_urls self ⊆ asset_urls (_enqueue_url u self)
  ∧ accepted self ⊆ accepted (_enqueue_url u self)
  ∧ pending self ⊆ pending (_enqueue_url u self)
  ∧ visited_urls (_enqueue_url u self) = visited_urls self.
Proof.
  destruct (_enqueue_url_cases u self)
    as [(Hp & Heq)|[(Hp & Hs & Heq)|[(Hp & Hs & Ha & Heq)|
        [(Hp & Hs & Ha & Hfull & Hacc & Hpend & Hass & Hsk & Hv & Hw)
        |(Hp & Hs & Ha & Hroom & Hacc & Hpend & Hass & Hsk & Hv & Hw)]]]];
    rewrite Hp.
  - rewrite Heq. unfold accepted, pending.
    cbn [add_skipped skipped_urls asset_urls url_queue visited_urls].
    split_and!; try done.
    + rewrite elem_of_union, elem_of_singleton. by right.
    + apply union_subseteq_l.
  - rewrite Heq. unfold accepted, pending.
    cbn [add_skipped skipped_urls asset_urls url_queue visited_urls].
    split_and!; try done.
    + rewrite !elem_of_union, elem_of_singleton. tauto.
    + intros _. split; [by left|]. intros [?|(? & _)]; [done|congruence].
    + apply union_subseteq_l.
  - rewrite Heq. unfold accepted, pending.
    cbn [add_asset skipped_urls asset_urls url_queue visited_urls].
    split_and!; try done.
    + rewrite !elem_of_union, elem_of_singleton. tauto.
    + intros _. split; [by left|]. intros [?|(_ & ? & _)]; [done|congruence].
    + apply union_subseteq_l.
  - rewrite Hacc, Hpend, Hass, Hsk, Hv. split_and!; try done.
    + rewrite !elem_of_union, elem_of_singleton. tauto.
    + intros _. split; [by left|]. intros [?|(_ & _ & ?)]; [done|lia].
    + apply union_subseteq_l.
  - rewrite Hacc, Hass, Hsk, Hv. split_and!; try done.
    + rewrite !elem_of_union, elem_of_singleton. tauto.
    + intros _. rewrite !elem_of_union, elem_of_singleton. tauto.
    + apply union_subseteq_l.
    + rewrite Hpend. case_decide; [done|apply union_subseteq_l].
Qed.

(** *** Visiting

    From here on the browser takes part. *)

(** The browser: a state [World] that opening a URL and inspecting the
    loaded page read and change.  [open_url_with_context] never raises (it
    wraps the failure in a [Maybe]);
    [get_visited_url_from_browser_url_visit] may. *)
Variable World : Type.
Variable open_url_with_context :
  string → World → Maybe BrowserUrlVisit * World.
Variable get_visited_url_from_browser_url_visit :
  string → BrowserUrlVisit → World → result VisitedUrl * World.

(** [get_visited_url] *)
Definition get_visited_url (u : string) (self : PlaywrightSpider)
    (w : World) : result VisitedUrl * PlaywrightSpider * World :=
  let '(maybe, w) := open_url_with_context u w in
  match unwrap maybe with
  | inl e => (Raise e, self, w)
  | inr browser_url_visit =>
      match ending_url browser_url_visit with
      | None => (Raise TypeError, self, w)
      | Some ending =>
          if negb (url_in_scope self ending) then
            (Return {| url := u;
                       open_url_browser_url_visit := browser_url_visit;
                       urls_on_page := None |},
             add_skipped ending self, w)
          else
            let '(r, w) :=
              get_visited_url_from_browser_url_visit u browser_url_visit w in
            (r, self, w)
      end
  end.

(** [_visit]: an exception of [get_visited_url] is caught and logged. *)
Definition _visit (u : string) (self : PlaywrightSpider) (w : World)
  : result () * PlaywrightSpider * World :=
  match get_visited_url u self w with
  | (inl e, self, w) => (Return (), self, w)
  | (inr visited_url, self, w) =>
      let self :=
        match urls_on_page visited_url with
        | None => self
        | Some l => foldl (λ s url_on_page, _enqueue_url url_on_page s) self l
        end in
      if bool_decide (url visited_url ≠ u) then (Raise ValueError, self, w)
      else (Return (), record_visit u visited_url self, w)
  end.

(** One turn of the loop of [run], guard included: [None] when the loop
    is over. *)
Definition run_iteration (self : PlaywrightSpider) (w : World)
  : option (result () * PlaywrightSpider * World) :=
  if negb (PrefixQueue.is_empty StringTrie (url_queue self))
     && (Z.of_nat (size (Queue.has_ever_been_enqueued
                           (PrefixQueue.base StringTrie (url_queue self))))
         <? max_url_count self)
  then
    match PrefixQueue.pop_from_queue set_iter StringTrie trie_setitem
            trie_longest_prefix (url_queue self) with
    | (inl e, q) => Some (Raise e, set_url_queue q self, w)
    | (inr u, q) =>
        let self := set_url_queue q self in
        if bool_decide (is_Some (visited_urls self !! u))
        then Some (Raise ValueError, self, w)
        else Some (_visit u self w)
    end
  else None.

(** The loop of [run]; [None] when [fuel] turns were not enough. *)
Fixpoint run_loop (fuel : nat) (self : PlaywrightSpider) (w : World)
  : option (result () * PlaywrightSpider * World) :=
  match fuel with
  | O => None
  | S fuel' =>
      match run_iteration self w with
      | None => Some (Return (), self, w)
      | Some (inl e, self, w) => Some (Raise e, self, w)
      | Some (inr _, self, w) => run_loop fuel' self w
      end
  end.

Definition run (fuel : nat) (url_list : list string)
    (self : PlaywrightSpider) (w : World)
  : option (result () * PlaywrightSpider * World) :=
  run_loop fuel (foldl (λ s u, _enqueue_url u s) self url_list) w.

(** What the crawl does to a spider: enqueue a link, pop the frontier,
    visit a URL. *)
Inductive action : Type :=
| Enqueue (u : string)
| Pop
| Visit (u : string).

Definition run_action (st : PlaywrightSpider * World) (a : action)
  : PlaywrightSpider * World :=
  match a with
  | Enqueue u => (run_call st.1 (EnqueueUrl u), st.2)
  | Pop => (run_call st.1 PopFromQueue, st.2)
  | Visit u => let '(_, self, w) := _visit u st.1 st.2 in (self, w)
  end.

Definition run_actions (acts : list action) (st : PlaywrightSpider * World)
  : PlaywrightSpider * World :=
  foldl run_action st acts.

(** A URL that was accepted and is no longer pending. *)
Definition consumed (u : string) (self : PlaywrightSpider) : Prop :=
  u ∈ accepted self ∧ u ∉ pending self.

Lemma unwrap_no_content {A} (m : Maybe A) :
  content m = None → unwrap m = Raise ValueError.
Proof. unfold unwrap. by intros ->. Qed.

Lemma get_visited_url_open_failure u self w :
  content (open_url_with_context u w).1 = None →
  get_visited_url u self w
  = (Raise ValueError, self, (open_url_with_context u w).2).
Proof.
  intros Hnone. unfold get_visited_url.
  destruct (open_url_with_context u w) as [maybe w'].
  by rewrite unwrap_no_content.
Qed.

Lemma consumed_enqueue u v self :
  consumed u self → consumed u (_enqueue_url v self).
Proof.
  clear set_iter_elem.
  intros [Hacc Hpend]. unfold _enqueue_url, consumed.
  destruct (negb (String.prefix "http" v)); [done|].
  destruct (negb (url_in_scope self (canonicalize_url v))); [done|].
  destruct (url_is_asset (canonicalize_url v)); [done|].
  case_match; [done|].
  unfold accepted, pending, PrefixQueue.add_to_queue, Queue.add_to_queue
    in *.
  cbn [url_queue set_groups]. case_decide as Hv; simpl; [done|].
  split; set_solver.
Qed.

Lemma consumed_enqueue_all u l self :
  consumed u self →
  consumed u (foldl (λ s url_on_page, _enqueue_url url_on_page s) self l).
Proof.
  revert self. induction l as [|v l IH]; intros self Hc; simpl; [done|].
  by apply IH, consumed_enqueue.
Qed.

Lemma consumed_pop u self :
  consumed u self → consumed u (run_call self PopFromQueue).
Proof.
  intros [Hacc Hpend]. unfold consumed, accepted, pending in *. simpl.
  rewrite pop_keeps_accepted. split; [done|].
  pose proof (PrefixQueue.pop_from_queue_base set_iter StringTrie
                trie_setitem trie_longest_prefix (url_queue self)) as Hb.
  destruct (Queue.pop_from_queue set_iter _
              (PrefixQueue.base StringTrie (url_queue self)))
    as [[e|r] b] eqn:Hpop; injection Hb as _ Hbase; rewrite Hbase.
  - apply Queue.pop_from_queue_Raise in Hpop as [Hq _]. set_solver.
  - apply (Queue.pop_from_queue_Return set_iter set_iter_elem) in Hpop
      as (_ & Hq & _). rewrite Hq. set_solver.
Qed.

Lemma consumed_visit u v self w :
  consumed u self → consumed u (_visit v self w).1.2.
Proof.
  intros Hc. unfold _visit, get_visited_url.
  destruct (open_url_with_context v w) as [maybe w1].
  destruct (unwrap maybe) as [e|buv]; [done|].
  destruct (ending_url buv) as [ending|]; [|done].
  destruct (negb (url_in_scope self ending)).
  - cbn [urls_on_page url]. case_bool_decide; done.
  - destruct (get_visited_url_from_browser_url_visit v buv w1)
      as [[e|visited_url] w2]; [done|].
    destruct (urls_on_page visited_url) as [l|];
      case_bool_decide; simpl; try done;
      by apply (consumed_enqueue_all u l self).
Qed.

Lemma consumed_run_actions u acts st :
  consumed u st.1 → consumed u (run_actions acts st).1.
Proof.
  revert st. induction acts as [|a acts IH]; intros [self w] Hc; simpl;
    [done|].
  apply IH. destruct a as [v| |v]; simpl.
  - by apply consumed_enqueue.
  - by apply consumed_pop.
  - pose proof (consumed_visit u v self w Hc) as Hv.
    by destruct (_visit v self w) as [[r self'] w'].
Qed.

(** C3 (amended). When opening a URL fails (the [Maybe] returned by
    [open_url_with_context] has no content), [_visit] catches the
    exception and leaves the spider exactly as it was: the URL is not
    added to [visited_urls] and no visit record is written.  Having been
    accepted and popped, the URL is nevertheless never pending again,
    whatever the crawl does afterwards: it is not retried. *)
Theorem page_load_failure_is_dropped u self w :
  content (open_url_with_context u w).1 = None →
  _visit u self w = (Return (), self, (open_url_with_context u w).2)
  ∧ (consumed u self →
     ∀ acts w', u ∉ pending (run_actions acts (self, w')).1).
Proof.
  intros Hnone. split.
  - unfold _visit. by rewrite get_visited_url_open_failure.
  - intros Hc acts w'.
    by destruct (consumed_run_actions u acts (self, w') Hc) as [_ Hp].
Qed.

(** *** Invariants of the crawl *)

(** [_visit] changes the spider only through [skipped_urls.add],
    [_enqueue_url] and the recording of the visit. *)
Lemma _visit_preserves (P : PlaywrightSpider → Prop) u :
  (∀ e s, P s → P (add_skipped e s)) →
  (∀ x s, P s → P (_enqueue_url x s)) →
  (∀ v s, P s → url v = u → P (record_visit u v s)) →
  ∀ self w, P self → P (_visit u self w).1.2.
Proof.
  clear set_iter_elem.
  intros Hskip Henq Hrec self w HP.
  assert (∀ l s, P s → P (foldl (λ s x, _enqueue_url x s) s l)) as Hall.
  { intros l. induction l as [|x l IH]; intros s Hs; simpl; [done|].
    by apply IH, Henq. }
  unfold _visit, get_visited_url.
  destruct (open_url_with_context u w) as [maybe w1].
  destruct (unwrap maybe) as [e|buv]; [done|].
  destruct (ending_url buv) as [ending|]; [|done].
  destruct (negb (url_in_scope self ending)).
  - cbn [urls_on_page url]. rewrite bool_decide_eq_false_2 by (intros ?; done).
    simpl. apply Hrec; [by apply Hskip|done].
  - destruct (get_visited_url_from_browser_url_visit u buv w1)
      as [[e|visited_url] w2]; [done|].
    assert (P (match urls_on_page visited_url with
               | Some l => foldl (λ s x, _enqueue_url x s) self l
               | None => self
               end)) as HP'.
    { destruct (urls_on_page visited_url); [by apply Hall|done]. }
    case_bool_decide as Hurl; simpl; [done|].
    apply Hrec; [done|]. by destruct (decide (url visited_url = u)).
Qed.


Lemma pop_spider_cases self :
  (PrefixQueue.is_empty StringTrie (url_queue self) = false →
   pending self ⊆ accepted self →
   ∃ r q, PrefixQueue.pop_from_queue set_iter StringTrie trie_setitem
            trie_longest_prefix (url_queue self) = (Return r, q)
          ∧ r ∈ pending self
          ∧ pending (set_url_queue q self) = pending self ∖ {[r]}
          ∧ accepted (set_url_queue q self) = accepted self)
  ∧ pending (run_call self PopFromQueue) ⊆ pending self
  ∧ accepted (run_call self PopFromQueue) = accepted self.
Proof.
  split_and!.
  - intros Hne Hsub.
    destruct (Queue.pop_from_queue_succeeds set_iter set_iter_elem
                (Some (PrefixQueue.prioritization_fn StringTrie
                         trie_longest_prefix (url_queue self)))
                _ Hne Hsub) as (r & Hpop & Hr).
    unfold PrefixQueue.pop_from_queue. rewrite Hpop.
    eexists _, _. split; [done|]. unfold accepted, pending. simpl.
    split_and!; done.
  - unfold pending. simpl.
    pose proof (PrefixQueue.pop_from_queue_base set_iter StringTrie
                  trie_setitem trie_longest_prefix (url_queue self)) as Hb.
    destruct (Queue.pop_from_queue set_iter _
                (PrefixQueue.base StringTrie (url_queue self)))
      as [[e|r] b] eqn:Hpop; injection Hb as _ Hbase; rewrite Hbase.
    + apply Queue.pop_from_queue_Raise in Hpop as [Hq _]. done.
    + apply (Queue.pop_from_queue_Return set_iter set_iter_elem) in Hpop
        as (_ & Hq & _). rewrite Hq. set_solver.
  - unfold accepted. simpl. apply pop_keeps_accepted.
Qed.

(** What holds of the frontier of a spider with the settings of [ref]:
    pending URLs have been accepted; accepted URLs are canonical forms
    of URLs starting with [http], in scope and no assets; the URLs of
    [asset_urls] are assets. *)
Definition scope_inv (ref self : PlaywrightSpider) : Prop :=
  config self = config ref
  ∧ pending self ⊆ accepted self
  ∧ (∀ v, v ∈ accepted self →
       url_in_scope ref v = true ∧ url_is_asset v = false
       ∧ ∃ raw, String.prefix "http" raw = true ∧ v = canonicalize_url raw)
  ∧ (∀ v, v ∈ asset_urls self →
       url_is_asset v = true ∧ url_in_scope ref v = true).

Lemma scope_inv_enqueue ref u self :
  scope_inv ref self → scope_inv ref (_enqueue_url u self).
Proof.
  intros (Hc & Hsub & Hacc & Hass).
  split; [by rewrite config_enqueue|].
  destruct (_enqueue_url_cases u self)
    as [(Hp & ->)|[(Hp & Hs & ->)|[(Hp & Hs & Ha & ->)|
        [(Hp & Hs & Ha & Hfull & Hacc' & Hpend & Hass' & Hsk & Hvis & Hw)
        |(Hp & Hs & Ha & Hroom & Hacc' & Hpend & Hass' & Hsk & Hvis & Hw)]]]].
  - done.
  - done.
  - split_and!; [done|done|]. cbn [add_asset asset_urls].
    intros v [Hv| ->%elem_of_singleton]%elem_of_union; [by apply Hass|].
    split; [done|]. by rewrite <- (url_in_scope_config self ref).
  - rewrite Hacc', Hpend, Hass'. done.
  - rewrite Hacc', Hpend, Hass'. split_and!; [| |done].
    + case_decide.
      * by apply union_subseteq_l'.
      * by apply union_mono_r.
    + intros v [Hv| ->%elem_of_singleton]%elem_of_union; [by apply Hacc|].
      rewrite <- (url_in_scope_config self ref) by done. eauto.
Qed.

Lemma scope_inv_visit ref u self w :
  scope_inv ref self → scope_inv ref (_visit u self w).1.2.
Proof.
  apply (_visit_preserves (scope_inv ref)); try done.
  intros x s. apply scope_inv_enqueue.
Qed.

Lemma scope_inv_pop ref self :
  scope_inv ref self → scope_inv ref (run_call self PopFromQueue).
Proof.
  intros (Hc & Hsub & Hacc & Hass).
  destruct (pop_spider_cases self) as (_ & Hp & Ha).
  split_and!; [done| | |done].
  - rewrite Ha. set_solver.
  - rewrite Ha. done.
Qed.

Lemma scope_inv_run_actions ref acts st :
  scope_inv ref st.1 → scope_inv ref (run_actions acts st).1.
Proof.
  revert st. induction acts as [|a acts IH]; intros [self w] Hinv; simpl;
    [done|].
  apply IH. destruct a as [v| |v]; simpl.
  - by apply scope_inv_enqueue.
  - by apply scope_inv_pop.
  - pose proof (scope_inv_visit ref v self w Hinv) as Hv.
    by destruct (_visit v self w) as [[r self'] w'].
Qed.

(** X12. Whatever a crawl does to a fresh spider (enqueueing links, popping
    the frontier, visiting pages), the URLs accepted into the frontier
    are canonical forms of URLs starting with [http], are in scope and
    are no assets; the URLs in [asset_urls] are assets and none of them
    is ever accepted; pending URLs are accepted ones; the settings stay
    as given. *)
Theorem accepted_urls_are_in_scope fq ex n m iu acts w :
  let self := (run_actions acts (init fq ex n m iu, w)).1 in
  (∀ v, v ∈ accepted self →
     url_in_scope self v = true ∧ url_is_asset v = false
     ∧ ∃ raw, String.prefix "http" raw = true ∧ v = canonicalize_url raw)
  ∧ (∀ v, v ∈ asset_urls self → url_is_asset v = true)
  ∧ accepted self ## asset_urls self
  ∧ pending self ⊆ accepted self
  ∧ config self = (fq, iu, ex, n, m).
Proof.
  intros self.
  assert (scope_inv (init fq ex n m iu) self) as (Hc & Hsub & Hacc & Hass).
  { apply scope_inv_run_actions. split_and!; [done|done| |];
      intros v Hv; simpl in Hv; set_solver. }
  split_and!; try done.
  - intros v Hv. rewrite (url_in_scope_config self (init fq ex n m iu)) by done.
    by apply Hacc.
  - intros v Hv. by apply Hass.
  - intros v Hv1 Hv2. apply Hacc in Hv1 as (_ & Hno & _).
    apply Hass in Hv2 as [Hyes _]. congruence.
Qed.

(** *** The loop of [run] *)










(** X14. A page that redirects out of scope: when the browser opens [u] and
    ends on a URL that is out of scope, [_visit] files [u] as visited with
    a record that holds no links, adds the destination to [skipped_urls],
    does not look at the page and enqueues nothing. *)
Theorem out_of_scope_redirect u self w buv err ending w1 :
  open_url_with_context u w = ({| content := Some buv; error := err |}, w1) →
  ending_url buv = Some ending →
  url_in_scope self ending = false →
  ∃ self',
    _visit u self w = (Return (), self', w1)
    ∧ visited_urls self' !! u
      = Some {| url := u; open_url_browser_url_visit := buv;
                urls_on_page := None |}
    ∧ skipped_urls self' = skipped_urls self ∪ {[ending]}
    ∧ url_queue self' = url_queue self
    ∧ enqueued_base_url_to_parameterized_url_set self'
      = enqueued_base_url_to_parameterized_url_set self
    ∧ asset_urls self' = asset_urls self.
Proof.
  clear set_iter_elem.
  intros Hopen Hend Hscope. unfold _visit, get_visited_url.
  rewrite Hopen. unfold unwrap. cbn [content]. rewrite Hend, Hscope.
  cbn [negb urls_on_page url].
  rewrite bool_decide_eq_false_2 by (intros ?; done).
  eexists. split; [done|]. cbn [record_visit add_skipped visited_urls
    skipped_urls url_queue enqueued_base_url_to_parameterized_url_set
    asset_urls].
  rewrite lookup_insert_eq. done.
Qed.

End spider.

End Spider.

(** ** The scope filter *)

Lemma url_in_scope_spec (StringTrie : Type)
    (tldextract_extract : string → Utilities.ExtractResult)
    (re_fullmatch : string → string → bool)
    (self : Spider.PlaywrightSpider StringTrie) (u : string) :
  Spider.url_in_scope StringTrie tldextract_extract re_fullmatch self u = true
  ↔ re_fullmatch (Spider.included_fqdn_regex StringTrie self)
                 (Utilities.get_fqdn_from_url tldextract_extract u) = true
    ∧ (∀ r, Spider.included_url_regex StringTrie self = Some r →
            re_fullmatch r u = true)
    ∧ (∀ r, Spider.excluded_url_regex StringTrie self = Some r →
            re_fullmatch r u = false).
Proof.
  unfold Spider.url_in_scope. rewrite Utilities.filter_url_spec.
  destruct (Spider.excluded_url_regex StringTrie self) as [x|];
    [|naive_solver].
  split.
  - intros (Hh & Hi & He). split_and!; [done..|].
    intros r [= <-]. apply (He [x]); [done|]. by apply list_elem_of_singleton.
  - intros (Hh & Hi & He). split_and!; [done..|].
    intros l r [= <-] ->%list_elem_of_singleton. by apply He.
Qed.

Lemma fqdn_of_evil (suffixes : list string) :
  Utilities.get_fqdn_from_url (Tld.extract suffixes) "http://evil.com/x"
  = "evil.com".
Proof.
  unfold Utilities.get_fqdn_from_url, Tld.extract. cbn.
  repeat (case_bool_decide; cbn); reflexivity.
Qed.

Lemma fqdn_of_sub_example (suffixes : list string) :
  Utilities.get_fqdn_from_url (Tld.extract suffixes)
                              "http://sub.example.com/x"
  = "sub.example.com".
Proof.
  unfold Utilities.get_fqdn_from_url, Tld.extract. cbn.
  repeat (case_bool_decide; cbn); reflexivity.
Qed.

(** C8. [filter_url], called with an include-host pattern as the spider
    calls it, returns [True] exactly when the URL's host name fully
    matches that pattern, the include-URL pattern (if any) fully matches
    the URL, and no exclude pattern fully matches the URL; so does
    [url_in_scope].  With the reference models of [re.fullmatch] and
    [tldextract] (whatever the list of public suffixes),
    [http://evil.com/x] is out of scope for the host pattern
    [example\.com] and [http://sub.example.com/x] is in scope for
    [.*example\.com]. *)
Theorem scope_filter_spec :
  (∀ tldextract_extract re_fullmatch url fqdn_regex included_url_regex
     excluded_url_regex_list,
     Utilities.filter_url tldextract_extract re_fullmatch url
       (Some fqdn_regex) None included_url_regex excluded_url_regex_list
     = true
     ↔ re_fullmatch fqdn_regex
         (Utilities.get_fqdn_from_url tldextract_extract url) = true
       ∧ (∀ r, included_url_regex = Some r → re_fullmatch r url = true)
       ∧ (∀ l r, excluded_url_regex_list = Some l → r ∈ l →
                 re_fullmatch r url = false))
  ∧ (∀ StringTrie tldextract_extract re_fullmatch
       (self : Spider.PlaywrightSpider StringTrie) u,
       Spider.url_in_scope StringTrie tldextract_extract re_fullmatch self u
       = true
       ↔ re_fullmatch (Spider.included_fqdn_regex StringTrie self)
           (Utilities.get_fqdn_from_url tldextract_extract u) = true
         ∧ (∀ r, Spider.included_url_regex StringTrie self = Some r →
                 re_fullmatch r u = true)
         ∧ (∀ r, Spider.excluded_url_regex StringTrie self = Some r →
                 re_fullmatch r u = false))
  ∧ (∀ suffixes,
       Utilities.filter_url (Tld.extract suffixes) Re.fullmatch
         "http://evil.com/x" (Some "example\.com") None None None = false)
  ∧ (∀ suffixes,
       Utilities.filter_url (Tld.extract suffixes) Re.fullmatch
         "http://sub.example.com/x" (Some ".*example\.com") None None None
       = true).
Proof.
  split_and!.
  - intros. apply Utilities.filter_url_spec.
  - intros. apply url_in_scope_spec.
  - intros suffixes. unfold Utilities.filter_url.
    rewrite fqdn_of_evil. reflexivity.
  - intros suffixes. unfold Utilities.filter_url.
    rewrite fqdn_of_sub_example. reflexivity.
Qed.

(** ** A concrete frontier

    Instances of the third-party parameters, to run the spider on small
    inputs: sets iterate in the order of [elements], the trie is a list
    of bindings searched for the longest key that is a prefix, URLs are
    already canonical, and the asset pattern is decided directly. *)

Module SpiderExamples.
Import Utilities Datamodel.

Definition Trie : Type := list (string * string).

Definition trie_setitem (k v : string) (t : Trie) : Trie := (k, v) :: t.

Definition trie_longest_prefix (t : Trie) (s : string) : option string :=
  foldr (λ kv best,
           if String.prefix kv.1 s then
             match best with
             | Some b =>
                 if (String.length b <? String.length kv.1)%nat
                 then Some kv.1 else best
             | None => Some kv.1
             end
           else best) None t.

Fixpoint strip_prefix (p s : string) : option string :=
  match p, s with
  | EmptyString, _ => Some s
  | String a p', String b s' =>
      if Ascii.eqb a b then strip_prefix p' s' else None
  | String _ _, EmptyString => None
  end.

Definition asset_extensions : list string :=
  ["js"; "css"; "png"; "jpg"; "jpeg"; "woff2"; "svg"; "pdf"].

(** Some position of [s] holds a dot, an asset extension, and then either
    nothing or a question mark. *)
Fixpoint has_asset_suffix (s : string) : bool :=
  match s with
  | EmptyString => false
  | String c rest =>
      (Ascii.eqb c "."%char
       && existsb (λ ext,
                     match strip_prefix ext rest with
                     | Some EmptyString => true
                     | Some (String d _) => Ascii.eqb d "?"%char
                     | None => false
                     end) asset_extensions)
      || has_asset_suffix rest
  end.

(** [re.match(URL_ASSET_REGEX, u)] on a URL without line breaks. *)
Definition asset_match (pattern u : string) : bool :=
  match strip_prefix "http" u with
  | Some rest => has_asset_suffix rest
  | None => false
  end.

(** A browser in which no page loads. *)
Definition open_fails (u : string) (w : ())
  : Maybe BrowserUrlVisit * () :=
  (mkMaybe None (Some "ERROR opening url"), w).

(** A browser in which every page loads, stays where it is and shows the
    links [links u]. *)
Definition open_ok (u : string) (w : ()) : Maybe BrowserUrlVisit * () :=
  (mkMaybe (Some {| starting_url := Some u; ending_url := Some u;
                    open_url_calling_context := Some u |}) None, w).

Definition page_with (links : string → list string) (u : string)
    (v : BrowserUrlVisit) (w : ()) : result Spider.VisitedUrl * () :=
  (Return {| Spider.url := u; Spider.open_url_browser_url_visit := v;
             Spider.urls_on_page := Some (links u) |}, w).

Definition fresh (included_fqdn_regex : string) (cap : Z)
  : Spider.PlaywrightSpider Trie :=
  Spider.init Trie [] included_fqdn_regex None cap 1000 None.

Definition enqueue (u : string) (s : Spider.PlaywrightSpider Trie)
  : Spider.PlaywrightSpider Trie :=
  Spider._enqueue_url Trie (Tld.extract ["com"]) Re.fullmatch asset_match id
                      u s.

Definition crawl (open : string → () → Maybe BrowserUrlVisit * ())
    (links : string → list string) (fuel : nat) (seeds : list string)
    (s : Spider.PlaywrightSpider Trie)
  : option (result () * Spider.PlaywrightSpider Trie * ()) :=
  Spider.run elements Trie trie_setitem trie_longest_prefix
    (Tld.extract ["com"]) Re.fullmatch asset_match id
    () open (page_with links) fuel seeds s ().

End SpiderExamples.

(** ** [browser_automation/dynamic_spider_helpers.py] *)

Module Dynamic.
Import Utilities Datamodel.

(** [SignatureHandleKind] *)
Definition CLICK : string := "click".
Definition SUBMIT : string := "submit".

Record SignatureSequenceActionResults : Type := mkResults {
  discovered_signature_sequence_list : list SignatureSequence;
  browser_url_visit : option BrowserUrlVisit;
  discovered_links_set : gset string
}.

(** [len(signature_sequence)] on a [SignatureSequence]: the class is a
    pydantic model that declares no [__len__] (see [Datamodel]), so the
    call raises [TypeError]. *)
Definition len_SignatureSequence (s : SignatureSequence) : result Z :=
  Raise TypeError.

(** The characters of a string, as [set.update(some_string)] adds them. *)
Fixpoint characters (s : string) : list string :=
  match s with
  | EmptyString => []
  | String c rest => String c EmptyString :: characters rest
  end.

Section browser.
(** The browser driver.  [Page] is the state of the page a
    [PlaywrightPageManager] holds; reading it leaves it as it is, acting
    on it (filling, clicking, pressing, reloading) changes it, and every
    call may raise. *)
Variable Page : Type.
Variable Locator : Type.
Variable page_url : Page → string.
(** [page.locator('*').all()] *)
Variable locator_all : Page → result (list Locator).
(** [locator.evaluate(GET_SIGNATURE_JAVASCRIPT)] and the outer HTML *)
Variable evaluate_signature : Page → Locator → result string.
Variable evaluate_outer_html : Page → Locator → result string.
Variable get_text_input_field_list : Page → result (list Locator).
Variable get_and_fill_text_input_field_list :
  Page → result (list Locator) * Page.
Variable get_interactable_locators_from_page : Page → result (list Locator).
(** [await locator], as written before the click and the key press *)
Variable await_locator : Locator → result Locator.
Variable click_locator : Locator → Page → result BrowserUrlVisit * Page.
Variable focus_and_press : Locator → Page → result BrowserUrlVisit * Page.
Variable reload_and_click : Page → result BrowserUrlVisit * Page.
Variable get_href_links_from_page : Page → result (list string).
Variable get_image_links_from_page : Page → result (list string).
(** [re.match(pattern, s)] as a truth value *)
Variable re_match : string → string → bool.
(** Iteration order of a Python set: some enumeration of its members. *)
Variable set_iter : gset string → list string.
Hypothesis set_iter_perm : ∀ X : gset string, set_iter X ≡ₚ elements X.

(** *** Computations on a page: state and exceptions *)

Definition M (A : Type) : Type := Page → result A * Page.

Definition ret {A} (a : A) : M A := λ p, (Return a, p).
Definition raise {A} (e : exn) : M A := λ p, (Raise e, p).
Definition bind {A B} (m : M A) (f : A → M B) : M B :=
  λ p, match m p with
       | (inl e, p') => (Raise e, p')
       | (inr a, p') => f a p'
       end.
(** A call that only reads the page. *)
Definition read {A} (f : Page → result A) : M A := λ p, (f p, p).
(** A value that is computed without the page. *)
Definition pure_result {A} (r : result A) : M A := λ p, (r, p).

#[local] Notation "'let*' x := m 'in' k" := (bind m (λ x, k))
  (at level 200, x name, m at level 100, k at level 200,
   right associativity).
#[local] Notation "'let*' ' pat := m 'in' k" :=
  (bind m (λ x, match x with pat => k end))
  (at level 200, pat pattern, m at level 100, k at level 200,
   right associativity).

(** [[await f(x) for x in l]] *)
Fixpoint for_each {A B} (f : A → M B) (l : list A) : M (list B) :=
  match l with
  | [] => ret []
  | x :: l' => let* y := f x in let* ys := for_each f l' in ret (y :: ys)
  end.

(** *** Signatures *)

Definition get_session_signature (locator : Locator) : M string :=
  read (λ p, evaluate_outer_html p locator).

Definition get_session_signatures (locator_list : list Locator)
  : M (list string) :=
  for_each get_session_signature locator_list.

Definition get_signature (locator : Locator) : M string :=
  read (λ p, evaluate_signature p locator).

Definition get_signatures (locator_list : list Locator) : M (list string) :=
  for_each get_signature locator_list.

(** [set(await get_session_signatures(await page.locator('*').all()))] *)
Definition session_signature_snapshot : M (gset string) :=
  let* all := read locator_all in
  let* l := get_session_signatures all in
  ret (list_to_set l).

Definition get_locators_from_signature_set (signature_set : gset string)
    (excluded_session_signature_set : option (gset string))
  : M (list Locator) :=
  let excluded := default ∅ excluded_session_signature_set in
  let* locator_list := read locator_all in
  let* locator_signature_list := get_signatures locator_list in
  let* locator_session_signature_list := get_session_signatures locator_list in
  ret (omap (λ '(locator, sig, sess),
               if bool_decide (sig ∈ signature_set)
                  && bool_decide (sess ∉ excluded)
               then Some locator else None)
            (zip (zip locator_list locator_signature_list)
                 locator_session_signature_list)).

(** The first step of [take_action_on_signature_handle]: fill every text
    input with random text when the handle asks for it. *)
Definition fill_if_requested (signature_handle : SignatureHandle) : M () :=
  if inject_random_text_in_all_inputs signature_handle
  then let* _ := get_and_fill_text_input_field_list in ret ()
  else ret ().

Definition take_action_on_signature_handle
    (signature_handle : SignatureHandle)
    (excluded_session_signature_set : option (gset string))
  : M (option BrowserUrlVisit) :=
  let* _ := fill_if_requested signature_handle in
  let* locator_list :=
    get_locators_from_signature_set {[signature signature_handle]}
                                    excluded_session_signature_set in
  match locator_list with
  | [] =>
      let* all := read locator_all in
      let* signatures_on_page := get_signatures all in
      ret None
  | locator :: _ =>
      if String.eqb (kind signature_handle) CLICK then
        let* l := pure_result (await_locator locator) in
        let* v := click_locator l in
        ret (Some v)
      else if String.eqb (kind signature_handle) SUBMIT then
        let* l := pure_result (await_locator locator) in
        let* v := focus_and_press l in
        ret (Some v)
      else raise ValueError
  end.

(** The stable signatures of the locators whose session signature
    satisfies [keep]; the lists are indexed alike in the source. *)
Definition select_signatures (keep : string → bool)
    (signatures session_signatures : list string) : list string :=
  omap (λ '(sig, sess), if keep sess then Some sig else None)
       (zip signatures session_signatures).

(** [get_signatures_from_page]: returns
    [(interactable_signatures, text_input_field_signatures,
      excluded_signatures)]. *)
Definition get_signatures_from_page
    (excluded_session_signature_set : option (gset string))
    (fill_textboxes : bool)
  : M (gset string * gset string * gset string) :=
  let* text_input_field_locators :=
    (if fill_textboxes then get_and_fill_text_input_field_list
     else read get_text_input_field_list) in
  let* unfiltered_text_input_field_signatures :=
    get_signatures text_input_field_locators in
  let* interactable_locators := read get_interactable_locators_from_page in
  let* unfiltered_interactable_signatures :=
    get_signatures interactable_locators in
  match excluded_session_signature_set with
  | Some excluded =>
      if (0 <? size excluded)%nat then
        let* unfiltered_text_input_field_session_signatures :=
          get_session_signatures text_input_field_locators in
        let* unfiltered_interactable_session_signatures :=
          get_session_signatures interactable_locators in
        let is_excluded := λ sess, bool_decide (sess ∈ excluded) in
        let is_included := λ sess, bool_decide (sess ∉ excluded) in
        let excluded_signatures : gset string :=
          list_to_set
            (select_signatures is_excluded
               unfiltered_text_input_field_signatures
               unfiltered_text_input_field_session_signatures
             ++ select_signatures is_excluded
                  unfiltered_interactable_signatures
                  unfiltered_interactable_session_signatures) in
        let text_input_field_signatures : gset string :=
          list_to_set
            (select_signatures is_included
               unfiltered_text_input_field_signatures
               unfiltered_text_input_field_session_signatures) in
        let interactable_signatures : gset string :=
          list_to_set
            (select_signatures is_included
               unfiltered_interactable_signatures
               unfiltered_interactable_session_signatures) in
        ret (interactable_signatures, text_input_field_signatures,
             excluded_signatures)
      else
        ret (list_to_set unfiltered_interactable_signatures,
             list_to_set unfiltered_text_input_field_signatures, ∅)
  | None =>
      ret (list_to_set unfiltered_interactable_signatures,
           list_to_set unfiltered_text_input_field_signatures, ∅)
  end.

(** *** Reload until ready *)

(** The three tests of the loop body, in the order of its [if]/[elif]
    chain: [true] when the page is reloaded. *)
Definition needs_reload (min_elements : option Z)
    (required_signatures : option (gset string))
    (required_signatures_regex : option string)
    (all_signatures : gset string) : bool :=
  if (match min_elements with
      | Some n => Z.of_nat (size all_signatures) <? n
      | None => false
      end)
  then true
  else if (match required_signatures with
           | Some req => negb (bool_decide (req ⊆ all_signatures))
           | None => false
           end)
  then true
  else if (match required_signatures_regex with
           | Some re =>
               negb (existsb (re_match re) (set_iter all_signatures))
           | None => false
           end)
  then true
  else false.

(** The [for _ in range(n)] loop: [last] holds the signatures bound by
    the latest turn, if any turn was made. *)
Fixpoint reload_loop (n : nat) (min_elements : option Z)
    (required_signatures : option (gset string))
    (required_signatures_regex : option string)
    (excluded : option (gset string)) (fill_textboxes : bool)
    (last : option (gset string * gset string))
  : M (option (gset string * gset string)) :=
  match n with
  | O => ret last
  | S n' =>
      let* '(interactable_signatures, text_input_field_signatures, _) :=
        get_signatures_from_page excluded fill_textboxes in
      let all_signatures :=
        interactable_signatures ∪ text_input_field_signatures in
      if needs_reload min_elements required_signatures
                      required_signatures_regex all_signatures
      then
        let* _ := reload_and_click in
        reload_loop n' min_elements required_signatures
          required_signatures_regex excluded fill_textboxes
          (Some (interactable_signatures, text_input_field_signatures))
      else
        ret (Some (interactable_signatures, text_input_field_signatures))
  end.

(** [reload_url_until_signatures_appear_and_get_signatures].  When the
    loop makes no turn the names it binds are unbound at the end. *)
Definition reload_url_until_signatures_appear_and_get_signatures
    (num_reloads : Z) (min_elements : option Z)
    (required_signatures : option (gset string))
    (required_signatures_regex : option string)
    (excluded : option (gset string)) (fill_textboxes : bool)
  : M (gset string * gset string) :=
  let* last :=
    reload_loop (Z.to_nat num_reloads) min_elements required_signatures
      required_signatures_regex excluded fill_textboxes None in
  match last with
  | None => raise UnboundLocalError
  | Some (interactable_signatures, text_input_field_signatures) =>
      let all_signatures :=
        interactable_signatures ∪ text_input_field_signatures in
      match required_signatures_regex with
      | Some re =>
          if existsb (re_match re) (set_iter all_signatures)
          then ret (interactable_signatures, text_input_field_signatures)
          else raise AssertionError
      | None => ret (interactable_signatures, text_input_field_signatures)
      end
  end.

(** The signature sets each turn of the loop observed, in order: a
    record of the run, kept only to state how long the loop goes on. *)
Fixpoint reload_observations (n : nat) (min_elements : option Z)
    (required_signatures : option (gset string))
    (required_signatures_regex : option string)
    (excluded : option (gset string)) (fill_textboxes : bool)
    (p : Page) : list (gset string) :=
  match n with
  | O => []
  | S n' =>
      match get_signatures_from_page excluded fill_textboxes p with
      | (inl _, _) => []
      | (inr (interactable_signatures, text_input_field_signatures, _), p1) =>
          let all_signatures :=
            interactable_signatures ∪ text_input_field_signatures in
          all_signatures ::
          (if needs_reload min_elements required_signatures
                           required_signatures_regex all_signatures
           then
             match reload_and_click p1 with
             | (inl _, _) => []
             | (inr _, p2) =>
                 reload_observations n' min_elements required_signatures
                   required_signatures_regex excluded fill_textboxes p2
             end
           else [])
      end
  end.

(** *** Replaying a sequence *)

(** The local variables of [click_signatures_in_sequence]. *)
Record replay_state : Type := mkReplay {
  replay_visit : option BrowserUrlVisit;
  replay_error : option string;
  replay_excluded : gset string
}.

Definition snapshot_error : string :=
  "[click_signatures_in_sequence] ERROR using get_session_signature".
Definition action_error : string :=
  "[click_signatures_in_sequence] ERROR clicking signature".

(** The [for signature_handle in ...] loop.  Each [try] catches every
    exception, records it as the error and leaves the loop. *)
Fixpoint click_loop (handles : list SignatureHandle) (st : replay_state)
    (p : Page) : replay_state * Page :=
  match handles with
  | [] => (st, p)
  | signature_handle :: rest =>
      match session_signature_snapshot p with
      | (inl _, p1) =>
          ({| replay_visit := None;
              replay_error := Some snapshot_error;
              replay_excluded := replay_excluded st |}, p1)
      | (inr pre_action_session_signature_set, p1) =>
          match take_action_on_signature_handle signature_handle
                  (Some (replay_excluded st)) p1 with
          | (inl _, p2) =>
              ({| replay_visit := None;
                  replay_error := Some action_error;
                  replay_excluded := replay_excluded st |}, p2)
          | (inr visit, p2) =>
              click_loop rest
                {| replay_visit := visit;
                   replay_error := replay_error st;
                   replay_excluded :=
                     replay_excluded st ∪ pre_action_session_signature_set |}
                p2
          end
      end
  end.

Definition replay_start : replay_state :=
  {| replay_visit := None; replay_error := None; replay_excluded := ∅ |}.

Definition click_signatures_in_sequence
    (signature_sequence : SignatureSequence)
  : Page → Maybe BrowserUrlVisit * Page :=
  λ p,
    let '(st, p') :=
      click_loop (Datamodel.signature_sequence signature_sequence)
                 replay_start p in
    ({| content := replay_visit st; error := replay_error st |}, p').

(** What one turn of the loop did: the handle, the snapshot taken before
    it (or the exception), the exclusion set handed to
    [take_action_on_signature_handle], and what that call returned (it is
    not made when the snapshot fails). *)
Record turn : Type := mkTurn {
  turn_handle : SignatureHandle;
  turn_snapshot : result (gset string);
  turn_excluded : gset string;
  turn_outcome : option (result (option BrowserUrlVisit))
}.

(** The turns the loop makes, in order: a record of the run of
    [click_loop], kept only to state what each turn saw. *)
Fixpoint click_turns (handles : list SignatureHandle) (excluded : gset string)
    (p : Page) : list turn :=
  match handles with
  | [] => []
  | signature_handle :: rest =>
      match session_signature_snapshot p with
      | (inl e, p1) =>
          [mkTurn signature_handle (Raise e) excluded None]
      | (inr pre_action_session_signature_set, p1) =>
          match take_action_on_signature_handle signature_handle
                  (Some excluded) p1 with
          | (inl e, p2) =>
              [mkTurn signature_handle
                      (Return pre_action_session_signature_set)
                      excluded (Some (Raise e))]
          | (inr visit, p2) =>
              mkTurn signature_handle
                     (Return pre_action_session_signature_set)
                     excluded (Some (Return visit))
              :: click_turns rest
                   (excluded ∪ pre_action_session_signature_set) p2
          end
      end
  end.

(** A turn is complete when its action was taken and did not raise. *)
Definition turn_completed (t : turn) : bool :=
  match turn_snapshot t, turn_outcome t with
  | inr _, Some (inr _) => true
  | _, _ => false
  end.

(** What a turn adds to the exclusion set. *)
Definition turn_contribution (t : turn) : gset string :=
  match turn_snapshot t with
  | inr pre => if turn_completed t then pre else ∅
  | inl _ => ∅
  end.

(** *** Discovering new elements *)

Definition _get_discovered_links_set
    (optional_browser_url_visit : option BrowserUrlVisit)
  : M (gset string) :=
  let* hrefs := read get_href_links_from_page in
  let* images := read get_image_links_from_page in
  let discovered_links_set : gset string :=
    list_to_set hrefs ∪ list_to_set images in
  match optional_browser_url_visit with
  | None => ret discovered_links_set
  | Some visit =>
      match ending_url visit with
      | None => raise TypeError
      | Some ending =>
          let* current := read (λ p, Return (page_url p)) in
          ret (discovered_links_set
               ∪ list_to_set (characters ending)
               ∪ list_to_set (characters current))
      end
  end.

(** [SignatureHandle(kind=k, signature=s)] *)
Definition new_handle (k : string) (s : string) : SignatureHandle :=
  {| signature := s; kind := k; inject_random_text_in_all_inputs := true |}.

(** The parent sequence with one handle appended. *)
Definition child_sequence (parent : SignatureSequence)
    (h : SignatureHandle) : SignatureSequence :=
  {| signature_sequence := signature_sequence parent ++ [h];
     required_signatures := required_signatures parent |}.

(** The last branch of the function: the signatures of the elements that
    are not excluded, one child sequence for each. *)
Definition discover_children (signature_sequence : SignatureSequence)
    (initial_session_signature_set : gset string)
  : M (list SignatureSequence) :=
  let* '(new_interactable_signatures, new_text_input_field_signatures,
         excluded_signatures) :=
    get_signatures_from_page (Some initial_session_signature_set) true in
  let click_signature_handle_list :=
    new_handle CLICK <$> set_iter new_interactable_signatures in
  let submit_signature_handle_list :=
    new_handle SUBMIT <$> set_iter new_text_input_field_signatures in
  ret (child_sequence signature_sequence
         <$> (click_signature_handle_list ++ submit_signature_handle_list)).

Definition click_signatures_in_sequence_and_find_new_signatures
    (signature_sequence : SignatureSequence)
    (max_signature_sequence_length : option Z)
  : M SignatureSequenceActionResults :=
  let* starting_url := read (λ p, Return (page_url p)) in
  let* initial_session_signature_set := session_signature_snapshot in
  let* maybe :=
    (λ p, let '(m, p') := click_signatures_in_sequence signature_sequence p in
          (Return m, p')) in
  let optional_browser_url_visit := content maybe in
  let* discovered_links_set :=
    _get_discovered_links_set optional_browser_url_visit in
  let* current_url := read (λ p, Return (page_url p)) in
  let* discovered_signature_sequence_list :=
    (if bool_decide (current_url ≠ starting_url) then ret []
     else
       match max_signature_sequence_length with
       | Some max_length =>
           let* n := pure_result (len_SignatureSequence signature_sequence) in
           if n >=? max_length then ret []
           else discover_children signature_sequence
                                  initial_session_signature_set
       | None =>
           discover_children signature_sequence initial_session_signature_set
       end) in
  ret {| discovered_signature_sequence_list :=
           discovered_signature_sequence_list;
         browser_url_visit := optional_browser_url_visit;
         discovered_links_set := discovered_links_set |}.

(** *** Reading leaves the page as it is *)

Lemma bind_Return {A B} (m : M A) (f : A → M B) p a p' :
  m p = (Return a, p') → bind m f p = f a p'.
Proof. unfold bind. by intros ->. Qed.

Lemma bind_Raise {A B} (m : M A) (f : A → M B) p e p' :
  m p = (Raise e, p') → bind m f p = (Raise e, p').
Proof. unfold bind. by intros ->. Qed.

Lemma bind_inv {A B} (m : M A) (f : A → M B) p b p' :
  bind m f p = (Return b, p') →
  ∃ a p1, m p = (Return a, p1) ∧ f a p1 = (Return b, p').
Proof.
  unfold bind. destruct (m p) as [[e|a] p1]; [done|]. eauto.
Qed.

Lemma for_each_read {A B} (f : A → Page → result B) (l : list A) p :
  (for_each (λ x, read (f x)) l p).2 = p.
Proof.
  induction l as [|x l IH]; simpl; [done|].
  unfold bind at 1, read at 1. destruct (f x p) as [e|y]; [done|].
  unfold bind. destruct (for_each _ l p) as [[e|ys] p']; simpl in *; done.
Qed.

Lemma get_signatures_page l p : (get_signatures l p).2 = p.
Proof. apply for_each_read. Qed.

Lemma get_session_signatures_page l p : (get_session_signatures l p).2 = p.
Proof. apply for_each_read. Qed.

Lemma session_signature_snapshot_page p :
  (session_signature_snapshot p).2 = p.
Proof.
  unfold session_signature_snapshot, bind, read.
  destruct (locator_all p) as [e|all]; [done|].
  pose proof (get_session_signatures_page all p) as Hp.
  destruct (get_session_signatures all p) as [[e|l] p']; simpl in *; done.
Qed.

Lemma get_locators_from_signature_set_page S E p :
  (get_locators_from_signature_set S E p).2 = p.
Proof.
  unfold get_locators_from_signature_set, bind, read.
  destruct (locator_all p) as [e|all]; [done|].
  pose proof (get_signatures_page all p) as Hp.
  destruct (get_signatures all p) as [[e|sigs] p1]; simpl in *; [done|].
  subst p1. pose proof (get_session_signatures_page all p) as Hp.
  destruct (get_session_signatures all p) as [[e|sess] p2]; simpl in *; done.
Qed.

(** When the search for a handle's element comes back, the page could be
    listed and every stable signature on it evaluated. *)
Lemma get_locators_from_signature_set_Return S E p l p' :
  get_locators_from_signature_set S E p = (Return l, p') →
  ∃ all sigs, locator_all p = Return all
              ∧ get_signatures all p = (Return sigs, p).
Proof.
  unfold get_locators_from_signature_set, bind, read.
  destruct (locator_all p) as [e|all]; [done|].
  pose proof (get_signatures_page all p) as Hp.
  destruct (get_signatures all p) as [[e|sigs] p1] eqn:Hs; simpl in *;
    [done|].
  subst p1. intros _. by exists all, sigs.
Qed.

(** *** The exclusion set during a replay *)

(** What follows is about the replay alone. *)
Ltac replay_only :=
  clear set_iter_perm set_iter reload_and_click re_match page_url
        get_text_input_field_list get_interactable_locators_from_page
        get_image_links_from_page get_href_links_from_page.

(** A turn whose snapshot was [pre] and whose action returned. *)
Definition turn_ok (t : turn) (pre : gset string) : Prop :=
  turn_snapshot t = Return pre ∧ ∃ v, turn_outcome t = Some (Return v).

Lemma click_turns_prefix handles E p k t :
  click_turns handles E p !! k = Some t →
  ∃ pres, Forall2 turn_ok (take k (click_turns handles E p)) pres
          ∧ turn_excluded t = E ∪ ⋃ pres
          ∧ handles !! k = Some (turn_handle t).
Proof.
  replay_only.
  revert E p k. induction handles as [|h rest IH]; intros E p k; simpl;
    [done|].
  destruct (session_signature_snapshot p) as [[e|pre] p1].
  { destruct k as [|k]; simpl; [|done]. intros [= <-].
    exists []. split_and!; [constructor|simpl; set_solver|done]. }
  destruct (take_action_on_signature_handle h (Some E) p1) as [[e|v] p2].
  { destruct k as [|k]; simpl; [|done]. intros [= <-].
    exists []. split_and!; [constructor|simpl; set_solver|done]. }
  destruct k as [|k]; simpl.
  - intros [= <-]. exists []. split_and!; [constructor|simpl; set_solver|done].
  - intros Hk. destruct (IH _ _ _ Hk) as (pres & Hall & Hex & Hh).
    exists (pre :: pres). split_and!; [|simpl; set_solver|done].
    constructor; [|done]. split; simpl; eauto.
Qed.

Lemma click_loop_excluded handles st p :
  replay_excluded (click_loop handles st p).1
  = replay_excluded st
    ∪ ⋃ (turn_contribution <$> click_turns handles (replay_excluded st) p).
Proof.
  replay_only.
  revert st p. induction handles as [|h rest IH]; intros st p; simpl.
  { set_solver. }
  destruct (session_signature_snapshot p) as [[e|pre] p1]; simpl.
  { set_solver. }
  destruct (take_action_on_signature_handle h _ p1) as [[e|v] p2]; simpl.
  { unfold turn_contribution; simpl. set_solver. }
  rewrite IH. unfold turn_contribution at 2; simpl. set_solver.
Qed.

(** A turn that is not complete ends the loop, and the exclusion set
    stays what that turn was given. *)
Lemma click_turns_incomplete handles st p t :
  t ∈ click_turns handles (replay_excluded st) p →
  turn_completed t = false →
  last (click_turns handles (replay_excluded st) p) = Some t
  ∧ replay_excluded (click_loop handles st p).1 = turn_excluded t
  ∧ is_Some (replay_error (click_loop handles st p).1).
Proof.
  replay_only.
  revert st p. induction handles as [|h rest IH]; intros st p; simpl.
  { by intros ?%elem_of_nil. }
  destruct (session_signature_snapshot p) as [[e|pre] p1]; simpl.
  { intros ->%list_elem_of_singleton _. simpl. eauto. }
  destruct (take_action_on_signature_handle h _ p1) as [[e|v] p2]; simpl.
  { intros ->%list_elem_of_singleton _. simpl. eauto. }
  intros [->|Hin]%elem_of_cons Hc; [done|].
  set (st' := {| replay_visit := v; replay_error := replay_error st;
                 replay_excluded := replay_excluded st ∪ pre |}).
  destruct (IH st' p2 Hin Hc) as (Hlast & Hex & Herr).
  split_and!; [|done..].
  cbn [replay_excluded st'] in Hlast.
  destruct (click_turns rest (replay_excluded st ∪ pre) p2) eqn:Ht;
    [by apply elem_of_nil in Hin|].
  by rewrite last_cons, Hlast.
Qed.

(** C10. In a replay, the exclusion set handed to the search for the
    element of turn [k] is exactly the union of the snapshots taken before
    the earlier turns, each of which completed (so it is empty at the first
    turn); the exclusion set at the end is the union of the snapshots of
    the completed turns; and a turn whose action raises is the last one and
    adds nothing: the set stays what that turn was given. *)
Theorem exclusion_set_is_union_of_earlier_snapshots
    (handles : list SignatureHandle) (p : Page) :
  let turns := click_turns handles ∅ p in
  (∀ k t, turns !! k = Some t →
     ∃ pres, Forall2 turn_ok (take k turns) pres
             ∧ turn_excluded t = ⋃ pres
             ∧ handles !! k = Some (turn_handle t))
  ∧ (∀ t, turns !! 0%nat = Some t → turn_excluded t = ∅)
  ∧ replay_excluded (click_loop handles replay_start p).1
    = ⋃ (turn_contribution <$> turns)
  ∧ (∀ t e, t ∈ turns → turn_outcome t = Some (Raise e) →
       turn_contribution t = ∅
       ∧ last turns = Some t
       ∧ replay_excluded (click_loop handles replay_start p).1
         = turn_excluded t).
Proof.
  replay_only.
  intros turns. split_and!.
  - intros k t Hk. destruct (click_turns_prefix _ _ _ _ _ Hk)
      as (pres & Hall & Hex & Hh).
    exists pres. split_and!; [done| |done]. rewrite Hex. set_solver.
  - intros t H0. destruct (click_turns_prefix _ _ _ _ _ H0)
      as (pres & Hall & Hex & _).
    rewrite take_0 in Hall. apply Forall2_nil_inv_l in Hall as ->.
    rewrite Hex. simpl. set_solver.
  - rewrite click_loop_excluded. simpl. set_solver.
  - intros t e Hin Hraise.
    assert (turn_completed t = false) as Hc.
    { unfold turn_completed. rewrite Hraise. by destruct (turn_snapshot t). }
    split.
    + unfold turn_contribution. rewrite Hc. by destruct (turn_snapshot t).
    + destruct (click_turns_incomplete handles replay_start p t Hin Hc)
        as (Hlast & Hex & _). done.
Qed.

(** *** A handle whose element is missing *)

Lemma take_action_missing h E p0 p1 p2 :
  fill_if_requested h p0 = (Return (), p1) →
  get_locators_from_signature_set {[signature h]} E p1 = (Return [], p2) →
  take_action_on_signature_handle h E p0 = (Return None, p1).
Proof.
  clear set_iter_perm.
  intros Hfill Hloc. unfold take_action_on_signature_handle.
  rewrite (bind_Return _ _ _ _ _ Hfill).
  pose proof (get_locators_from_signature_set_page {[signature h]} E p1)
    as Hpage.
  rewrite Hloc in Hpage. simpl in Hpage. subst p2.
  rewrite (bind_Return _ _ _ _ _ Hloc).
  destruct (get_locators_from_signature_set_Return _ _ _ _ _ Hloc)
    as (all & sigs & Hall & Hsigs).
  unfold bind at 1, read at 1. rewrite Hall.
  by rewrite (bind_Return _ _ _ _ _ Hsigs).
Qed.

(** C4 (amended). When no element matches the handle's stable signature
    outside the exclusion set, [take_action_on_signature_handle] returns
    [None] without raising: no error is recorded, the snapshot taken
    before the handle joins the exclusion set, and the replay goes on
    with the next handle.  The replay is cut short, with an error in the
    [Maybe] it returns and whatever handles follow left alone, only when
    the snapshot or the action raises. *)
Theorem missing_element_does_not_abort
    (h : SignatureHandle) (rest : list SignatureHandle)
    (st : replay_state) (pre : gset string) (p p0 p1 p2 : Page) :
  session_signature_snapshot p = (Return pre, p0) →
  fill_if_requested h p0 = (Return (), p1) →
  get_locators_from_signature_set
    {[signature h]} (Some (replay_excluded st)) p1 = (Return [], p2) →
  take_action_on_signature_handle h (Some (replay_excluded st)) p0
  = (Return None, p1)
  ∧ click_loop (h :: rest) st p
    = click_loop rest
        {| replay_visit := None;
           replay_error := replay_error st;
           replay_excluded := replay_excluded st ∪ pre |} p1
  ∧ click_turns (h :: rest) (replay_excluded st) p
    = mkTurn h (Return pre) (replay_excluded st) (Some (Return None))
      :: click_turns rest (replay_excluded st ∪ pre) p1
  ∧ (∀ h' e p3,
       take_action_on_signature_handle h' (Some (replay_excluded st)) p0
       = (Raise e, p3) →
       click_loop (h' :: rest) st p
       = ({| replay_visit := None;
             replay_error := Some action_error;
             replay_excluded := replay_excluded st |}, p3)).
Proof.
  clear set_iter_perm.
  intros Hsnap Hfill Hloc.
  pose proof (take_action_missing _ _ _ _ _ Hfill Hloc) as Hact.
  split_and!; [done|..].
  - simpl. by rewrite Hsnap, Hact.
  - simpl. by rewrite Hsnap, Hact.
  - intros h' e p3 Hraise. simpl. by rewrite Hsnap, Hraise.
Qed.

(** *** How long the reload loop goes on *)

Lemma set_iter_elem (X : gset string) (x : string) : x ∈ set_iter X ↔ x ∈ X.
Proof. by rewrite set_iter_perm, elem_of_elements. Qed.

(** The page is ready exactly when every test that was asked for
    passes. *)
Lemma needs_reload_false min_elements required regex (all : gset string) :
  needs_reload min_elements required regex all = false ↔
    (∀ n, min_elements = Some n → n ≤ Z.of_nat (size all))
    ∧ (∀ req, required = Some req → req ⊆ all)
    ∧ (∀ re, regex = Some re → ∃ s, s ∈ all ∧ re_match re s = true).
Proof.
  unfold needs_reload.
  set (A := match min_elements with
            | Some n => Z.of_nat (size all) <? n
            | None => false
            end).
  set (B := match required with
            | Some req => negb (bool_decide (req ⊆ all))
            | None => false
            end).
  set (C := match regex with
            | Some re => negb (existsb (re_match re) (set_iter all))
            | None => false
            end).
  assert (A = false ↔ ∀ n, min_elements = Some n → n ≤ Z.of_nat (size all))
    as HA.
  { subst A. destruct min_elements as [n|]; [|naive_solver].
    rewrite Z.ltb_ge. split; [by intros Hn k [= <-]|auto]. }
  assert (B = false ↔ ∀ req, required = Some req → req ⊆ all) as HB.
  { subst B. destruct required as [req|]; [|naive_solver].
    rewrite negb_false_iff, bool_decide_eq_true.
    split; [by intros Hn k [= <-]|auto]. }
  assert (C = false ↔
          ∀ re, regex = Some re → ∃ s, s ∈ all ∧ re_match re s = true) as HC.
  { subst C. destruct regex as [re|]; [|naive_solver].
    rewrite negb_false_iff, existsb_exists. split.
    - intros (s & Hin & Hm) re' [= <-]. exists s.
      by rewrite <- set_iter_elem, list_elem_of_In.
    - intros Hre. destruct (Hre re eq_refl) as (s & Hin & Hm). exists s.
      by rewrite <- list_elem_of_In, set_iter_elem. }
  rewrite <- HA, <- HB, <- HC.
  destruct A, B, C; naive_solver.
Qed.

Lemma reload_observations_length n m r re ex fill p :
  (length (reload_observations n m r re ex fill p) ≤ n)%nat.
Proof.
  clear set_iter_perm.
  revert p. induction n as [|n IH]; intros p; simpl; [lia|].
  destruct (get_signatures_from_page ex fill p) as [[e|[[i t] x]] p1];
    simpl; [lia|].
  destruct (needs_reload m r re (i ∪ t)); simpl; [|lia].
  destruct (reload_and_click p1) as [[e|v] p2]; simpl; [lia|].
  specialize (IH p2). lia.
Qed.

(** Every observation but the last one asked for a reload. *)
Lemma reload_observations_not_last n m r re ex fill p k all :
  reload_observations n m r re ex fill p !! k = Some all →
  (S k < length (reload_observations n m r re ex fill p))%nat →
  needs_reload m r re all = true.
Proof.
  clear set_iter_perm.
  revert p k. induction n as [|n IH]; intros p k; simpl; [done|].
  destruct (get_signatures_from_page ex fill p) as [[e|[[i t] x]] p1];
    simpl; [done|].
  destruct (needs_reload m r re (i ∪ t)) eqn:Hneed; simpl.
  - destruct (reload_and_click p1) as [[e|v] p2]; simpl.
    + destruct k; simpl; [lia|done].
    + destruct k as [|k]; simpl; [by intros [= <-]|].
      intros Hk Hlen. apply (IH p2 k); [done|lia].
  - destruct k; simpl; [lia|done].
Qed.

(** When the loop comes back, either its last observation was ready and
    is what it returns, or the budget is used up. *)
Lemma reload_loop_Return n m r re ex fill last p res p' :
  reload_loop n m r re ex fill last p = (Return res, p') →
  (∃ i t, res = Some (i, t)
          ∧ List.last (reload_observations n m r re ex fill p) ∅ = i ∪ t
          ∧ reload_observations n m r re ex fill p ≠ []
          ∧ needs_reload m r re (i ∪ t) = false)
  ∨ length (reload_observations n m r re ex fill p) = n.
Proof.
  clear set_iter_perm.
  revert last p. induction n as [|n IH]; intros last p; simpl; [by right|].
  unfold bind at 1.
  destruct (get_signatures_from_page ex fill p) as [[e|[[i t] x]] p1];
    [done|].
  destruct (needs_reload m r re (i ∪ t)) eqn:Hneed.
  - unfold bind at 1.
    destruct (reload_and_click p1) as [[e|v] p2]; [done|].
    intros Hloop. destruct (IH _ _ Hloop) as [(i' & t' & Hres & Hl & Hne & Hn)|Hlen].
    + left. exists i', t'. split_and!; [done| |done|done].
      destruct (reload_observations n m r re ex fill p2); [done|]. done.
    + right. simpl. by rewrite Hlen.
  - intros [= <- <-]. left. exists i, t. by split_and!.
Qed.

(** C6 (amended). The reload loop makes at most [num_reloads] turns.
    It reloads after a turn exactly when one of the tests that were asked
    for fails: fewer than [min_elements] distinct signatures among the
    interactable and fillable elements, a required signature missing, or
    no signature matching the required pattern.  So no turn follows one
    at which all of them pass together, and when the loop comes back
    either its last turn passed them all or the budget is used up. *)
Theorem reload_loop_stops_when_ready
    (num_reloads : Z) (min_elements : option Z)
    (required_signatures : option (gset string))
    (required_signatures_regex : option string)
    (excluded : option (gset string)) (fill_textboxes : bool) (p : Page) :
  let n := Z.to_nat num_reloads in
  let observations :=
    reload_observations n min_elements required_signatures
      required_signatures_regex excluded fill_textboxes p in
  let ready := λ all : gset string,
    (∀ k, min_elements = Some k → k ≤ Z.of_nat (size all))
    ∧ (∀ req, required_signatures = Some req → req ⊆ all)
    ∧ (∀ re, required_signatures_regex = Some re →
         ∃ s, s ∈ all ∧ re_match re s = true) in
  (length observations ≤ n)%nat
  ∧ (∀ k all, observations !! k = Some all →
       (S k < length observations)%nat → ¬ ready all)
  ∧ (∀ res p',
       reload_loop n min_elements required_signatures
         required_signatures_regex excluded fill_textboxes None p
       = (Return res, p') →
       (∃ i t, res = Some (i, t) ∧ observations ≠ []
               ∧ List.last observations ∅ = i ∪ t ∧ ready (i ∪ t))
       ∨ length observations = n).
Proof.
  intros n observations ready. split_and!.
  - apply reload_observations_length.
  - intros k all Hk Hlen Hready.
    apply needs_reload_false in Hready.
    pose proof (reload_observations_not_last _ _ _ _ _ _ _ _ _ Hk Hlen).
    congruence.
  - intros res p' Hloop.
    destruct (reload_loop_Return _ _ _ _ _ _ _ _ _ _ Hloop)
      as [(i & t & Hres & Hl & Hne & Hn)|Hlen]; [left|by right].
    exists i, t. split_and!; [done..|]. by apply needs_reload_false.
Qed.

(** *** What discovery reports *)

(** The element behind [l] is excluded by [E]: its session signature can
    be read and belongs to [E]. *)
Definition excluded_by (E : gset string) (p : Page) (l : Locator) : Prop :=
  ∃ sess, evaluate_outer_html p l = Return sess ∧ sess ∈ E.

Lemma for_each_read_Return {A B} (f : A → Page → result B) l p ys p' :
  for_each (λ x, read (f x)) l p = (Return ys, p') →
  Forall2 (λ x y, f x p = Return y) l ys.
Proof.
  clear set_iter_perm.
  revert ys. induction l as [|x l IH]; intros ys; simpl.
  - intros [= <- _]. constructor.
  - unfold bind at 1, read at 1. destruct (f x p) as [e|y] eqn:Hx; [done|].
    unfold bind.
    pose proof (for_each_read f l p) as Hp.
    destruct (for_each _ l p) as [[e|ys'] p1]; [done|].
    intros [= <- <-]. constructor; [done|]. by apply IH.
Qed.

Lemma select_signatures_elem keep sigs sess s :
  s ∈ select_signatures keep sigs sess ↔
  ∃ i x, sigs !! i = Some s ∧ sess !! i = Some x ∧ keep x = true.
Proof.
  clear set_iter_perm.
  unfold select_signatures. rewrite list_elem_of_omap. split.
  - intros ([sg x] & Hin & Hk).
    apply list_elem_of_lookup in Hin as [i Hi].
    apply lookup_zip_with_Some in Hi as (sg' & x' & [= <- <-] & Hs & Hx).
    destruct (keep x) eqn:Hkeep; [|done]. injection Hk as <-. eauto.
  - intros (i & x & Hs & Hx & Hk). exists (s, x). rewrite Hk. split; [|done].
    apply list_elem_of_lookup. exists i.
    apply lookup_zip_with_Some. eauto.
Qed.

(** The signatures kept are those of the locators that [E] does not
    exclude. *)
Lemma kept_signatures_spec (E : gset string) locs sigs sess p s :
  Forall2 (λ l y, evaluate_signature p l = Return y) locs sigs →
  Forall2 (λ l y, evaluate_outer_html p l = Return y) locs sess →
  s ∈ select_signatures (λ x, bool_decide (x ∉ E)) sigs sess ↔
  ∃ l, l ∈ locs ∧ evaluate_signature p l = Return s ∧ ¬ excluded_by E p l.
Proof.
  clear set_iter_perm.
  intros Hsigs Hsess. rewrite select_signatures_elem. split.
  - intros (i & x & Hs & Hx & Hk). apply bool_decide_eq_true in Hk.
    destruct (Forall2_lookup_r _ _ _ _ _ Hsigs Hs) as (l & Hl & Hev).
    destruct (Forall2_lookup_l _ _ _ _ _ Hsess Hl) as (x' & Hx' & Hev').
    assert (x' = x) as -> by congruence.
    exists l. split_and!; [by eapply list_elem_of_lookup_2|done|].
    intros (x'' & Hx'' & Hin). congruence.
  - intros (l & [i Hl]%list_elem_of_lookup & Hev & Hnot).
    destruct (Forall2_lookup_l _ _ _ _ _ Hsigs Hl) as (s' & Hs & Hev1).
    destruct (Forall2_lookup_l _ _ _ _ _ Hsess Hl) as (x & Hx & Hev2).
    assert (s' = s) as -> by congruence.
    exists i, x. split_and!; [done..|].
    apply bool_decide_eq_true. intros Hin. apply Hnot. by exists x.
Qed.

Lemma all_signatures_spec locs sigs p s :
  Forall2 (λ l y, evaluate_signature p l = Return y) locs sigs →
  s ∈ (list_to_set sigs : gset string) ↔
  ∃ l, l ∈ locs ∧ evaluate_signature p l = Return s.
Proof.
  clear set_iter_perm.
  intros Hsigs. rewrite elem_of_list_to_set. split.
  - intros [i Hs]%list_elem_of_lookup.
    destruct (Forall2_lookup_r _ _ _ _ _ Hsigs Hs) as (l & Hl & Hev).
    exists l. split; [by eapply list_elem_of_lookup_2|done].
  - intros (l & [i Hl]%list_elem_of_lookup & Hev).
    destruct (Forall2_lookup_l _ _ _ _ _ Hsigs Hl) as (s' & Hs & Hev1).
    assert (s' = s) as -> by congruence. by eapply list_elem_of_lookup_2.
Qed.

(** [get_signatures_from_page] with text boxes filled: the page it
    leaves, the locators it looked at, and the two sets it returns. *)
Lemma get_signatures_from_page_spec (E : gset string) p I T X pf :
  get_signatures_from_page (Some E) true p = (Return (I, T, X), pf) →
  ∃ tlocs ilocs,
    get_and_fill_text_input_field_list p = (Return tlocs, pf)
    ∧ get_interactable_locators_from_page pf = Return ilocs
    ∧ (∀ s, s ∈ I ↔
         ∃ l, l ∈ ilocs ∧ evaluate_signature pf l = Return s
              ∧ ¬ excluded_by E pf l)
    ∧ (∀ s, s ∈ T ↔
         ∃ l, l ∈ tlocs ∧ evaluate_signature pf l = Return s
              ∧ ¬ excluded_by E pf l).
Proof.
  clear set_iter_perm set_iter page_url locator_all await_locator
        click_locator focus_and_press reload_and_click
        get_href_links_from_page get_image_links_from_page re_match.
  unfold get_signatures_from_page. intros Hrun.
  apply bind_inv in Hrun as (tlocs & p1 & Hfill & Hrun).
  apply bind_inv in Hrun as (tsigs & p2 & Htsigs & Hrun).
  pose proof (get_signatures_page tlocs p1) as Hp. rewrite Htsigs in Hp.
  simpl in Hp. subst p2.
  apply for_each_read_Return in Htsigs.
  apply bind_inv in Hrun as (ilocs & p2 & Hil & Hrun).
  unfold read in Hil. injection Hil as Hil <-.
  apply bind_inv in Hrun as (isigs & p2 & Hisigs & Hrun).
  pose proof (get_signatures_page ilocs p1) as Hp. rewrite Hisigs in Hp.
  simpl in Hp. subst p2.
  apply for_each_read_Return in Hisigs.
  destruct (Nat.ltb_spec 0 (size E)) as [Hpos|Hzero].
  - apply bind_inv in Hrun as (tsess & p2 & Htsess & Hrun).
    pose proof (get_session_signatures_page tlocs p1) as Hp.
    rewrite Htsess in Hp. simpl in Hp. subst p2.
    apply for_each_read_Return in Htsess.
    apply bind_inv in Hrun as (isess & p2 & Hisess & Hrun).
    pose proof (get_session_signatures_page ilocs p1) as Hp.
    rewrite Hisess in Hp. simpl in Hp. subst p2.
    apply for_each_read_Return in Hisess.
    unfold ret in Hrun. injection Hrun as <- <- <- <-.
    exists tlocs, ilocs. split_and!; [done..| |].
    + intros s. rewrite elem_of_list_to_set. by apply kept_signatures_spec.
    + intros s. rewrite elem_of_list_to_set. by apply kept_signatures_spec.
  - assert (E = ∅) as ->.
    { apply leibniz_equiv, size_empty_iff. lia. }
    unfold ret in Hrun. injection Hrun as <- <- <- <-.
    exists tlocs, ilocs. split_and!; [done..| |].
    + intros s. rewrite (all_signatures_spec ilocs isigs p1 s Hisigs).
      unfold excluded_by. set_solver.
    + intros s. rewrite (all_signatures_spec tlocs tsigs p1 s Htsigs).
      unfold excluded_by. set_solver.
Qed.

Lemma discover_children_spec seq initial p children pf :
  discover_children seq initial p = (Return children, pf) →
  ∃ I T X,
    get_signatures_from_page (Some initial) true p = (Return (I, T, X), pf)
    ∧ children
      = child_sequence seq
          <$> ((new_handle CLICK <$> set_iter I)
               ++ (new_handle SUBMIT <$> set_iter T)).
Proof.
  clear set_iter_perm.
  unfold discover_children. intros Hrun.
  apply bind_inv in Hrun as ([[I T] X] & p1 & Hsigs & Hrun).
  unfold ret in Hrun. injection Hrun as <- <-. by exists I, T, X.
Qed.

(** What [click_signatures_in_sequence_and_find_new_signatures] went
    through when it returns: the snapshot before the replay, the replay,
    and then either a page that has moved to another URL, or discovery
    against that snapshot. *)
Lemma find_new_signatures_inv seq max_length p res pf :
  click_signatures_in_sequence_and_find_new_signatures seq max_length p
  = (Return res, pf) →
  ∃ initial maybe p2,
    session_signature_snapshot p = (Return initial, p)
    ∧ click_signatures_in_sequence seq p = (maybe, p2)
    ∧ browser_url_visit res = content maybe
    ∧ ((page_url p2 ≠ page_url p
        ∧ discovered_signature_sequence_list res = [] ∧ pf = p2)
       ∨ (page_url p2 = page_url p ∧ max_length = None
          ∧ discover_children seq initial p2
            = (Return (discovered_signature_sequence_list res), pf))).
Proof.
  clear set_iter_perm.
  unfold click_signatures_in_sequence_and_find_new_signatures. intros Hrun.
  apply bind_inv in Hrun as (starting_url & p0 & Hstart & Hrun).
  unfold read in Hstart. injection Hstart as <- <-.
  apply bind_inv in Hrun as (initial & p1 & Hsnap & Hrun).
  pose proof (session_signature_snapshot_page p) as Hp.
  rewrite Hsnap in Hp. simpl in Hp. subst p1.
  apply bind_inv in Hrun as (maybe & p2 & Hreplay & Hrun).
  destruct (click_signatures_in_sequence seq p) as [m p2'] eqn:Hclick.
  injection Hreplay as <- <-.
  apply bind_inv in Hrun as (links & p3 & Hlinks & Hrun).
  assert (p3 = p2') as ->.
  { revert Hlinks. unfold _get_discovered_links_set, bind, read, ret, raise.
    destruct (get_href_links_from_page p2'); [done|].
    destruct (get_image_links_from_page p2'); [done|].
    destruct (content m) as [v|]; [|by intros [= _ <-]].
    destruct (ending_url v); [|done]. by intros [= _ <-]. }
  apply bind_inv in Hrun as (current_url & p4 & Hcur & Hrun).
  unfold read in Hcur. injection Hcur as <- <-.
  apply bind_inv in Hrun as (children & p5 & Hchildren & Hrun).
  unfold ret in Hrun. injection Hrun as <- <-.
  exists initial, m, p2'. split_and!; [done..|].
  case_bool_decide as Hurl.
  - left. unfold ret in Hchildren. injection Hchildren as <- <-. done.
  - right.
    destruct max_length as [k|]; [|done].
    by unfold bind, pure_result, len_SignatureSequence in Hchildren.
Qed.

#[local] Instance child_sequence_inj seq : Inj (=) (=) (child_sequence seq).
Proof.
  clear set_iter_perm.
  intros h1 h2 Heq. unfold child_sequence in Heq.
  injection Heq as Heq. by apply app_inv_head in Heq as [= ->].
Qed.

#[local] Instance new_handle_inj k : Inj (=) (=) (new_handle k).
Proof. clear set_iter_perm. by intros s1 s2 [= ->]. Qed.

Lemma NoDup_set_iter (X : gset string) : NoDup (set_iter X).
Proof. rewrite set_iter_perm. apply NoDup_elements. Qed.

Lemma length_set_iter (X : gset string) : length (set_iter X) = size X.
Proof. by rewrite set_iter_perm. Qed.

(** The children built from two signature sets: one for each member of
    each set, and no two alike. *)
Lemma children_spec seq (I T : gset string) :
  let children :=
    child_sequence seq
      <$> ((new_handle CLICK <$> set_iter I)
           ++ (new_handle SUBMIT <$> set_iter T)) in
  NoDup children
  ∧ length children = (size I + size T)%nat
  ∧ ∀ c, c ∈ children ↔
      (∃ s, s ∈ I ∧ c = child_sequence seq (new_handle CLICK s))
      ∨ (∃ s, s ∈ T ∧ c = child_sequence seq (new_handle SUBMIT s)).
Proof.
  intros children. subst children. split_and!.
  - apply (NoDup_fmap_2 (child_sequence seq)).
    apply NoDup_app. split_and!.
    + apply (NoDup_fmap_2 _), NoDup_set_iter.
    + intros h (s1 & -> & _)%list_elem_of_fmap (s2 & Heq & _)%list_elem_of_fmap.
      discriminate Heq.
    + apply (NoDup_fmap_2 _), NoDup_set_iter.
  - by rewrite length_fmap, length_app, !length_fmap, !length_set_iter.
  - intros c. rewrite list_elem_of_fmap. split.
    + intros (h & -> & [Hh|Hh]%elem_of_app);
        apply list_elem_of_fmap in Hh as (s & -> & Hs%set_iter_elem); eauto.
    + intros [(s & Hs & ->)|(s & Hs & ->)]; eexists; split; try done;
        apply elem_of_app; [left|right]; apply list_elem_of_fmap;
        exists s; by rewrite set_iter_elem.
Qed.

(** C5 (amended). Discovery excludes by the snapshot taken before the
    replay started ([initial_session_signature_set]), not by the set the
    replay accumulated: every child sequence ends in a handle whose
    signature is that of an interactable (Click) or fillable (Submit)
    element of the final page that this snapshot does not exclude, and,
    conversely, every interactable element the snapshot does not exclude
    gets a child, whether or not it was on the page before a later action
    of the sequence. *)
Theorem discovery_excludes_initial_snapshot
    (seq : SignatureSequence) (max_length : option Z)
    (p pf : Page) (res : SignatureSequenceActionResults) :
  click_signatures_in_sequence_and_find_new_signatures seq max_length p
  = (Return res, pf) →
  ∃ initial p2,
    session_signature_snapshot p = (Return initial, p)
    ∧ (click_signatures_in_sequence seq p).2 = p2
    ∧ (∀ c, c ∈ discovered_signature_sequence_list res →
         ∃ h l, c = child_sequence seq h
                ∧ evaluate_signature pf l = Return (signature h)
                ∧ ¬ excluded_by initial pf l
                ∧ ((kind h = CLICK
                    ∧ ∃ ilocs, get_interactable_locators_from_page pf
                               = Return ilocs ∧ l ∈ ilocs)
                   ∨ (kind h = SUBMIT
                      ∧ ∃ tlocs, get_and_fill_text_input_field_list p2
                                 = (Return tlocs, pf) ∧ l ∈ tlocs)))
    ∧ (page_url p2 = page_url p →
       ∀ ilocs l s,
         get_interactable_locators_from_page pf = Return ilocs →
         l ∈ ilocs →
         evaluate_signature pf l = Return s →
         ¬ excluded_by initial pf l →
         child_sequence seq (new_handle CLICK s)
           ∈ discovered_signature_sequence_list res)
    ∧ (page_url p2 = page_url p →
       ∀ tlocs l s,
         get_and_fill_text_input_field_list p2 = (Return tlocs, pf) →
         l ∈ tlocs →
         evaluate_signature pf l = Return s →
         ¬ excluded_by initial pf l →
         child_sequence seq (new_handle SUBMIT s)
           ∈ discovered_signature_sequence_list res).
Proof.
  intros Hrun.
  destruct (find_new_signatures_inv _ _ _ _ _ Hrun)
    as (initial & maybe & p2 & Hsnap & Hclick & _ & Hcases).
  exists initial, p2. rewrite Hclick. split_and!; [done..| | |].
  - destruct Hcases as [(_ & -> & _)|(_ & _ & Hdisc)].
    { by intros c ?%elem_of_nil. }
    apply discover_children_spec in Hdisc as (I & T & X & Hsigs & ->).
    apply get_signatures_from_page_spec in Hsigs
      as (tlocs & ilocs & Hfill & Hil & HI & HT).
    intros c [(s & Hs & ->)|(s & Hs & ->)]%children_spec.
    + apply HI in Hs as (l & Hl & Hev & Hnot).
      exists (new_handle CLICK s), l. split_and!; [done..|].
      left. split; [done|]. by exists ilocs.
    + apply HT in Hs as (l & Hl & Hev & Hnot).
      exists (new_handle SUBMIT s), l. split_and!; [done..|].
      right. split; [done|]. by exists tlocs.
  - intros Hurl ilocs l s Hil Hl Hev Hnot.
    destruct Hcases as [(Hne & _)|(_ & _ & Hdisc)]; [done|].
    apply discover_children_spec in Hdisc as (I & T & X & Hsigs & ->).
    apply get_signatures_from_page_spec in Hsigs
      as (tlocs & ilocs' & Hfill & Hil' & HI & HT).
    assert (ilocs' = ilocs) as -> by congruence.
    apply children_spec. left. exists s. split; [|done].
    apply HI. by exists l.
  - intros Hurl tlocs l s Hfill Hl Hev Hnot.
    destruct Hcases as [(Hne & _)|(_ & _ & Hdisc)]; [done|].
    apply discover_children_spec in Hdisc as (I & T & X & Hsigs & ->).
    apply get_signatures_from_page_spec in Hsigs
      as (tlocs' & ilocs & Hfill' & Hil & HI & HT).
    assert (tlocs' = tlocs) as -> by congruence.
    apply children_spec. right. exists s. split; [|done].
    apply HT. by exists l.
Qed.

(** C7 (amended). After a replay, if the page is at another URL than
    when the replay started, there are no child sequences.  Otherwise,
    when no maximum length is supplied, there is exactly one child for
    each distinct stable signature among the interactable elements that
    are not excluded (the parent with a Click handle appended) and one
    for each distinct stable signature among the fillable elements that
    are not excluded (the parent with a Submit handle appended), all
    different, each with the parent's required signatures. *)
Theorem children_per_distinct_signature
    (seq : SignatureSequence) (max_length : option Z)
    (p pf : Page) (res : SignatureSequenceActionResults) :
  click_signatures_in_sequence_and_find_new_signatures seq max_length p
  = (Return res, pf) →
  ∃ initial p2,
    session_signature_snapshot p = (Return initial, p)
    ∧ (click_signatures_in_sequence seq p).2 = p2
    ∧ (page_url p2 ≠ page_url p →
       discovered_signature_sequence_list res = [])
    ∧ (page_url p2 = page_url p → max_length = None →
       ∃ I T X,
         get_signatures_from_page (Some initial) true p2
         = (Return (I, T, X), pf)
         ∧ NoDup (discovered_signature_sequence_list res)
         ∧ length (discovered_signature_sequence_list res)
           = (size I + size T)%nat
         ∧ (∀ c, c ∈ discovered_signature_sequence_list res ↔
              (∃ s, s ∈ I ∧ c = child_sequence seq (new_handle CLICK s))
              ∨ (∃ s, s ∈ T
                      ∧ c = child_sequence seq (new_handle SUBMIT s)))
         ∧ (∀ c, c ∈ discovered_signature_sequence_list res →
              required_signatures c = required_signatures seq
              ∧ ∃ h, signature_sequence c = signature_sequence seq ++ [h])).
Proof.
  intros Hrun.
  destruct (find_new_signatures_inv _ _ _ _ _ Hrun)
    as (initial & maybe & p2 & Hsnap & Hclick & _ & Hcases).
  exists initial, p2. rewrite Hclick. split_and!; [done..| |].
  - intros Hne. by destruct Hcases as [(_ & -> & _)|(Heq & _)].
  - intros Hurl _. destruct Hcases as [(Hne & _)|(_ & _ & Hdisc)]; [done|].
    apply discover_children_spec in Hdisc as (I & T & X & Hsigs & ->).
    exists I, T, X. destruct (children_spec seq I T) as (Hnd & Hlen & Hiff).
    split_and!; [done..|].
    intros c [(s & _ & ->)|(s & _ & ->)]%Hiff; simpl; eauto.
Qed.

(** With a maximum length supplied and the page still at its URL, the
    length test is reached and [len(signature_sequence)] raises. *)
Lemma max_length_test_raises seq k p initial maybe p2 links :
  session_signature_snapshot p = (Return initial, p) →
  click_signatures_in_sequence seq p = (maybe, p2) →
  _get_discovered_links_set (content maybe) p2 = (Return links, p2) →
  page_url p2 = page_url p →
  click_signatures_in_sequence_and_find_new_signatures seq (Some k) p
  = (Raise TypeError, p2).
Proof.
  clear set_iter_perm.
  intros Hsnap Hclick Hlinks Hurl.
  unfold click_signatures_in_sequence_and_find_new_signatures.
  unfold bind at 1, read at 1.
  rewrite (bind_Return _ _ _ _ _ Hsnap).
  unfold bind at 1. rewrite Hclick.
  rewrite (bind_Return _ _ _ _ _ Hlinks).
  unfold bind at 1, read at 1.
  rewrite bool_decide_false by (intros Hne; by apply Hne).
  done.
Qed.

(** *** Searching the page for a signature *)

Lemma for_each_read_Raise {A B} (f : A → Page → result B) l p e p' :
  for_each (λ x, read (f x)) l p = (Raise e, p') →
  ∃ x, x ∈ l ∧ f x p = Raise e.
Proof.
  clear set_iter_perm.
  induction l as [|x l IH]; simpl; [done|].
  unfold bind at 1, read at 1. destruct (f x p) as [e'|y] eqn:Hx.
  - intros [= <- _]. exists x. split; [left|done].
  - unfold bind. pose proof (for_each_read f l p) as Hp.
    destruct (for_each _ l p) as [[e'|ys] p1] eqn:Hl; [|done].
    simpl in Hp. subst p1. intros [= <- <-].
    destruct IH as (x' & Hin & Hx'); [done|].
    exists x'. split; [by right|done].
Qed.

Lemma matching_locators (S E : gset string) p all sigs sess :
  Forall2 (λ l y, evaluate_signature p l = Return y) all sigs →
  Forall2 (λ l y, evaluate_outer_html p l = Return y) all sess →
  sublist (omap (λ '(locator, sig, ss),
                   if bool_decide (sig ∈ S) && bool_decide (ss ∉ E)
                   then Some locator else None)
                (zip (zip all sigs) sess)) all
  ∧ ∀ loc,
      loc ∈ omap (λ '(locator, sig, ss),
                    if bool_decide (sig ∈ S) && bool_decide (ss ∉ E)
                    then Some locator else None)
                 (zip (zip all sigs) sess)
      ↔ loc ∈ all
        ∧ ∃ sig ss, evaluate_signature p loc = Return sig
                    ∧ evaluate_outer_html p loc = Return ss
                    ∧ sig ∈ S ∧ ss ∉ E.
Proof.
  clear.
  intros Hsigs. revert sess.
  induction Hsigs as [|l sig all sigs Hl Hsigs IH]; intros sess Hsess.
  - apply Forall2_nil_inv_l in Hsess as ->. simpl. split; [constructor|].
    intros loc. split; [by intros ?%elem_of_nil|].
    by intros [?%elem_of_nil _].
  - apply Forall2_cons_inv_l in Hsess as (ss & sess' & Hss & Hsess & ->).
    destruct (IH sess' Hsess) as [Hsub Hmem]. simpl.
    destruct (bool_decide (sig ∈ S) && bool_decide (ss ∉ E)) eqn:Hkeep.
    + apply andb_true_iff in Hkeep as [HS%bool_decide_eq_true
                                         HE%bool_decide_eq_true].
      split; [by constructor|]. intros loc.
      rewrite !elem_of_cons, Hmem. split.
      * intros [->|[Hin Hev]]; [|tauto]. split; [by left|]. eauto 10.
      * intros [[->|Hin] Hev]; [by left|]. right. done.
    + split; [by constructor|]. intros loc.
      rewrite elem_of_cons, Hmem. split; [tauto|].
      intros [[->|Hin] (sig' & ss' & Hsig' & Hss' & HS & HE)]; [|eauto 10].
      assert (sig' = sig) as -> by congruence.
      assert (ss' = ss) as -> by congruence.
      apply andb_false_iff in Hkeep
        as [Hk%bool_decide_eq_false|Hk%bool_decide_eq_false]; done.
Qed.

(** X15. [get_locators_from_signature_set] only reads the page; no exclusion
    set is the same as an empty one; the locators it returns are, in the
    order of the page, exactly those whose stable signature is in the
    signature set and whose session signature is not excluded; and it
    raises exactly what listing the page or reading a signature of one of
    its elements raises. *)
Theorem get_locators_from_signature_set_spec
    (S : gset string) (E : option (gset string)) (p : Page) :
  (get_locators_from_signature_set S E p).2 = p
  ∧ get_locators_from_signature_set S None p
    = get_locators_from_signature_set S (Some ∅) p
  ∧ (∀ l p', get_locators_from_signature_set S E p = (Return l, p') →
       ∃ all, locator_all p = Return all
         ∧ sublist l all
         ∧ ∀ loc, loc ∈ l ↔
             loc ∈ all
             ∧ ∃ sig ss, evaluate_signature p loc = Return sig
                         ∧ evaluate_outer_html p loc = Return ss
                         ∧ sig ∈ S ∧ ss ∉ default ∅ E)
  ∧ (∀ e p', get_locators_from_signature_set S E p = (Raise e, p') →
       locator_all p = Raise e
       ∨ ∃ all loc, locator_all p = Return all ∧ loc ∈ all
           ∧ (evaluate_signature p loc = Raise e
              ∨ evaluate_outer_html p loc = Raise e)).
Proof.
  clear set_iter_perm.
  split_and!.
  - apply get_locators_from_signature_set_page.
  - done.
  - unfold get_locators_from_signature_set, bind, read.
    intros l p'. destruct (locator_all p) as [e|all]; [done|].
    pose proof (get_signatures_page all p) as Hp.
    destruct (get_signatures all p) as [[e|sigs] p1] eqn:Hsigs; [done|].
    simpl in Hp. subst p1.
    pose proof (get_session_signatures_page all p) as Hp.
    destruct (get_session_signatures all p) as [[e|sess] p2] eqn:Hsess;
      [done|].
    simpl in Hp. subst p2. unfold ret. intros [= <- <-].
    apply for_each_read_Return in Hsigs, Hsess.
    exists all. split; [done|]. by apply matching_locators.
  - unfold get_locators_from_signature_set, bind, read.
    intros e p'. destruct (locator_all p) as [e'|all];
      [intros [= <- _]; by left|].
    pose proof (get_signatures_page all p) as Hp.
    destruct (get_signatures all p) as [[e'|sigs] p1] eqn:Hsigs.
    { intros [= <- _]. apply for_each_read_Raise in Hsigs as (loc & ? & ?).
      right. exists all, loc. eauto. }
    simpl in Hp. subst p1.
    destruct (get_session_signatures all p) as [[e'|sess] p2] eqn:Hsess;
      [|done].
    intros [= <- _]. apply for_each_read_Raise in Hsess as (loc & ? & ?).
    right. exists all, loc. eauto.
Qed.

(** X16. A handle of unknown kind: [take_action_on_signature_handle] raises
    [ValueError] only when an element matches the handle; when none does
    it returns [None] like for any other handle.  Either way nothing is
    clicked or pressed: the page is as the filling of the text inputs
    left it. *)
Theorem unknown_kind_raises_when_element_found
    (h : SignatureHandle) (E : option (gset string)) (p0 p1 : Page)
    (l : list Locator) :
  kind h ≠ CLICK → kind h ≠ SUBMIT →
  fill_if_requested h p0 = (Return (), p1) →
  get_locators_from_signature_set {[signature h]} E p1 = (Return l, p1) →
  take_action_on_signature_handle h E p0
  = (match l with [] => Return None | _ :: _ => Raise ValueError end, p1).
Proof.
  clear set_iter_perm.
  intros Hc Hs Hfill Hloc. destruct l as [|loc l].
  - by apply (take_action_missing h E p0 p1 p1).
  - unfold take_action_on_signature_handle.
    rewrite (bind_Return _ _ _ _ _ Hfill), (bind_Return _ _ _ _ _ Hloc).
    apply String.eqb_neq in Hc, Hs. by rewrite Hc, Hs.
Qed.

(** *** What a replay returns *)

(** The visit held by the last turn, if its action returned one. *)
Definition last_visit (turns : list turn) : option BrowserUrlVisit :=
  match last turns with
  | Some t =>
      match turn_outcome t with
      | Some (inr v) => v
      | _ => None
      end
  | None => None
  end.

Lemma click_loop_turns handles st p :
  (replay_error (click_loop handles st p).1 = replay_error st
   ∧ length (click_turns handles (replay_excluded st) p) = length handles
   ∧ Forall (λ t, turn_completed t = true)
            (click_turns handles (replay_excluded st) p)
   ∧ replay_visit (click_loop handles st p).1
     = match handles with
       | [] => replay_visit st
       | _ :: _ => last_visit (click_turns handles (replay_excluded st) p)
       end)
  ∨ (is_Some (replay_error (click_loop handles st p).1)
     ∧ replay_visit (click_loop handles st p).1 = None
     ∧ (length (click_turns handles (replay_excluded st) p)
        ≤ length handles)%nat
     ∧ ∃ t, last (click_turns handles (replay_excluded st) p) = Some t
            ∧ turn_completed t = false).
Proof.
  replay_only.
  revert st p. induction handles as [|h rest IH]; intros st p; simpl.
  { left. split_and!; done. }
  destruct (session_signature_snapshot p) as [[e|pre] p1]; simpl.
  { right. split_and!; [eauto|done|lia|]. eexists. split; [done|]. done. }
  destruct (take_action_on_signature_handle h _ p1) as [[e|v] p2]; simpl.
  { right. split_and!; [eauto|done|lia|]. eexists. split; [done|]. done. }
  set (st' := {| replay_visit := v; replay_error := replay_error st;
                 replay_excluded := replay_excluded st ∪ pre |}).
  destruct (IH st' p2) as [(Herr & Hlen & Hall & Hvis)
                          |(Herr & Hvis & Hlen & t & Hlast & Hc)].
  - left. cbn [replay_excluded replay_error replay_visit st'] in *.
    split_and!; [done|by rewrite Hlen|by constructor|].
    rewrite Hvis. unfold last_visit. destruct rest as [|h' rest'].
    + simpl. done.
    + destruct (click_turns (h' :: rest') (replay_excluded st ∪ pre) p2)
        as [|t' turns'] eqn:Ht; [simpl in Hlen; lia|].
      by rewrite last_cons_cons.
  - right. cbn [replay_excluded st'] in *.
    split_and!; [done|done|lia|]. exists t. split; [|done].
    destruct (click_turns rest (replay_excluded st ∪ pre) p2)
      as [|t' turns'] eqn:Ht; [done|].
    by rewrite last_cons_cons.
Qed.

(** X17. [click_signatures_in_sequence] never raises; the [Maybe] it returns
    is one of two kinds.  Without an error, every handle of the sequence
    had its turn, each turn completed, and the content is what the last
    action returned: [None] when the element of the last handle was
    missing, whatever the earlier actions returned.  With an error, there
    is no content, and the last turn made is the one that failed. *)
Theorem replay_result (signature_sequence : SignatureSequence) (p : Page) :
  (error (click_signatures_in_sequence signature_sequence p).1 = None
   ∧ length (click_turns (Datamodel.signature_sequence signature_sequence)
               ∅ p)
     = length (Datamodel.signature_sequence signature_sequence)
   ∧ Forall (λ t, turn_completed t = true)
            (click_turns (Datamodel.signature_sequence signature_sequence)
               ∅ p)
   ∧ content (click_signatures_in_sequence signature_sequence p).1
     = last_visit (click_turns
                     (Datamodel.signature_sequence signature_sequence) ∅ p))
  ∨ (is_Some (error (click_signatures_in_sequence signature_sequence p).1)
     ∧ content (click_signatures_in_sequence signature_sequence p).1 = None
     ∧ ∃ t, last (click_turns
                    (Datamodel.signature_sequence signature_sequence) ∅ p)
            = Some t
            ∧ turn_completed t = false).
Proof.
  replay_only.
  unfold click_signatures_in_sequence.
  pose proof (click_loop_turns
                (Datamodel.signature_sequence signature_sequence)
                replay_start p) as Hturns.
  destruct (click_loop (Datamodel.signature_sequence signature_sequence)
              replay_start p) as [st p'].
  cbn [fst content error replay_start replay_excluded replay_error
       replay_visit] in *.
  destruct Hturns as [(Herr & Hlen & Hall & Hvis)
                     |(Herr & Hvis & Hlen & t & Hlast & Hc)].
  - left. split_and!; [done..|]. rewrite Hvis.
    by destruct (Datamodel.signature_sequence signature_sequence).
  - right. split_and!; [done..|]. by exists t.
Qed.

(** *** What the reload loop hands back *)

Lemma reload_loop_last n m r re ex fill last p res p' :
  reload_loop n m r re ex fill last p = (Return res, p') →
  (reload_observations n m r re ex fill p = [] ∧ res = last ∧ n = 0%nat)
  ∨ ∃ i t, res = Some (i, t)
           ∧ List.last (reload_observations n m r re ex fill p) ∅ = i ∪ t
           ∧ reload_observations n m r re ex fill p ≠ [].
Proof.
  clear set_iter_perm.
  revert last p. induction n as [|n IH]; intros last p; simpl.
  { intros [= <- _]. by left. }
  unfold bind at 1.
  destruct (get_signatures_from_page ex fill p) as [[e|[[i t] x]] p1];
    [done|].
  destruct (needs_reload m r re (i ∪ t)) eqn:Hneed.
  - unfold bind at 1.
    destruct (reload_and_click p1) as [[e|v] p2]; [done|].
    intros Hloop. right.
    destruct (IH _ _ Hloop) as [(Hnil & -> & _)|(i' & t' & Hres & Hl & Hne)].
    + exists i, t. rewrite Hnil. done.
    + exists i', t'. split_and!; [done| |done].
      destruct (reload_observations n m r re ex fill p2); [done|]. done.
  - intros [= <- <-]. right. exists i, t. done.
Qed.

(** X18. [reload_url_until_signatures_appear_and_get_signatures] at its
    edges.  With [num_reloads] zero or negative the loop makes no turn
    and the function raises [UnboundLocalError], the page untouched.
    When it returns, at least one turn was made, the two sets returned
    are those of the last turn, and when a pattern was asked for one of
    the signatures matches it.  When a pattern was asked for and no
    signature of the last turn matches it, the function raises
    [AssertionError] instead of returning. *)
Theorem reload_until_signatures_appear_edges
    (num_reloads : Z) (min_elements : option Z)
    (required_signatures : option (gset string))
    (required_signatures_regex : option string)
    (excluded : option (gset string)) (fill_textboxes : bool) (p : Page) :
  (num_reloads ≤ 0 →
   reload_url_until_signatures_appear_and_get_signatures num_reloads
     min_elements required_signatures required_signatures_regex excluded
     fill_textboxes p = (Raise UnboundLocalError, p))
  ∧ (∀ i t p',
       reload_url_until_signatures_appear_and_get_signatures num_reloads
         min_elements required_signatures required_signatures_regex
         excluded fill_textboxes p = (Return (i, t), p') →
       0 < num_reloads
       ∧ List.last (reload_observations (Z.to_nat num_reloads) min_elements
                      required_signatures required_signatures_regex
                      excluded fill_textboxes p) ∅ = i ∪ t
       ∧ ∀ re, required_signatures_regex = Some re →
               ∃ s, s ∈ i ∪ t ∧ re_match re s = true)
  ∧ (∀ re i t p',
       required_signatures_regex = Some re →
       reload_loop (Z.to_nat num_reloads) min_elements required_signatures
         required_signatures_regex excluded fill_textboxes None p
       = (Return (Some (i, t)), p') →
       (∀ s, s ∈ i ∪ t → re_match re s = false) →
       reload_url_until_signatures_appear_and_get_signatures num_reloads
         min_elements required_signatures required_signatures_regex
         excluded fill_textboxes p = (Raise AssertionError, p')).
Proof.
  unfold reload_url_until_signatures_appear_and_get_signatures.
  split_and!.
  - intros Hn. replace (Z.to_nat num_reloads) with 0%nat by lia. done.
  - intros i t p' Hrun.
    apply bind_inv in Hrun as (last & p1 & Hloop & Hrun).
    destruct (reload_loop_last _ _ _ _ _ _ _ _ _ _ Hloop)
      as [(_ & -> & _)|(i' & t' & -> & Hl & Hne)]; [done|].
    assert (0 < num_reloads) as Hpos.
    { destruct (Z.to_nat num_reloads) eqn:Hn; [done|lia]. }
    destruct required_signatures_regex as [re|].
    + destruct (existsb (re_match re) (set_iter (i' ∪ t'))) eqn:Hex; [|done].
      unfold ret in Hrun. injection Hrun as <- <- <-.
      split_and!; [done..|]. intros re' [= <-].
      apply existsb_exists in Hex as (s & Hin & Hm).
      exists s. by rewrite <- set_iter_elem, list_elem_of_In.
    + unfold ret in Hrun. injection Hrun as <- <- <-. done.
  - intros re i t p' -> Hloop Hno.
    rewrite (bind_Return _ _ _ _ _ Hloop).
    destruct (existsb (re_match re) (set_iter (i ∪ t))) eqn:Hex; [|done].
    apply existsb_exists in Hex as (s & Hin & Hm).
    rewrite <- list_elem_of_In, set_iter_elem in Hin.
    rewrite (Hno s Hin) in Hm. done.
Qed.

(** *** Every element of the page is accounted for *)

Lemma selected_signatures_spec (keep : string → bool) locs sigs sess p s :
  Forall2 (λ l y, evaluate_signature p l = Return y) locs sigs →
  Forall2 (λ l y, evaluate_outer_html p l = Return y) locs sess →
  s ∈ select_signatures keep sigs sess ↔
  ∃ l x, l ∈ locs ∧ evaluate_signature p l = Return s
         ∧ evaluate_outer_html p l = Return x ∧ keep x = true.
Proof.
  clear set_iter_perm.
  intros Hsigs Hsess. rewrite select_signatures_elem. split.
  - intros (i & x & Hs & Hx & Hk).
    destruct (Forall2_lookup_r _ _ _ _ _ Hsigs Hs) as (l & Hl & Hev).
    destruct (Forall2_lookup_l _ _ _ _ _ Hsess Hl) as (x' & Hx' & Hev').
    assert (x' = x) as -> by congruence.
    exists l, x. split_and!; [by eapply list_elem_of_lookup_2|done..].
  - intros (l & x & [i Hl]%list_elem_of_lookup & Hev & Hev' & Hk).
    destruct (Forall2_lookup_l _ _ _ _ _ Hsigs Hl) as (s' & Hs & Hev1).
    destruct (Forall2_lookup_l _ _ _ _ _ Hsess Hl) as (x' & Hx & Hev2).
    assert (s' = s) as -> by congruence.
    assert (x' = x) as -> by congruence.
    exists i, x. done.
Qed.

(** X19. [get_signatures_from_page], whatever its arguments: no exclusion
    set is the same as an empty one; without filling, the page is left
    as it was.  When it returns, the signature of every fillable and of
    every interactable element is in the set returned for its kind or in
    [excluded_signatures] (it may be in both, when two elements share a
    signature), and [excluded_signatures] holds exactly the signatures of
    the elements whose session signature is excluded. *)
Theorem get_signatures_from_page_covers_page
    (E : option (gset string)) (fill_textboxes : bool) (p : Page) :
  get_signatures_from_page None fill_textboxes p
  = get_signatures_from_page (Some ∅) fill_textboxes p
  ∧ (fill_textboxes = false → (get_signatures_from_page E false p).2 = p)
  ∧ ∀ I T X pf,
      get_signatures_from_page E fill_textboxes p = (Return (I, T, X), pf) →
      ∃ tlocs ilocs,
        (if fill_textboxes then get_and_fill_text_input_field_list p
         else read get_text_input_field_list p) = (Return tlocs, pf)
        ∧ get_interactable_locators_from_page pf = Return ilocs
        ∧ (∀ l s, l ∈ ilocs → evaluate_signature pf l = Return s →
                  s ∈ I ∨ s ∈ X)
        ∧ (∀ l s, l ∈ tlocs → evaluate_signature pf l = Return s →
                  s ∈ T ∨ s ∈ X)
        ∧ (∀ s, s ∈ X ↔
             ∃ l, (l ∈ tlocs ∨ l ∈ ilocs)
                  ∧ evaluate_signature pf l = Return s
                  ∧ excluded_by (default ∅ E) pf l).
Proof.
  clear set_iter_perm set_iter page_url locator_all await_locator
        click_locator focus_and_press reload_and_click
        get_href_links_from_page get_image_links_from_page re_match.
  split_and!.
  - done.
  - intros _. unfold get_signatures_from_page, bind, read.
    destruct (get_text_input_field_list p) as [e|tlocs]; [done|].
    pose proof (get_signatures_page tlocs p) as Hp.
    destruct (get_signatures tlocs p) as [[e|tsigs] p1]; simpl in Hp;
      subst p1; [done|].
    destruct (get_interactable_locators_from_page p) as [e|ilocs]; [done|].
    pose proof (get_signatures_page ilocs p) as Hp.
    destruct (get_signatures ilocs p) as [[e|isigs] p1]; simpl in Hp;
      subst p1; [done|].
    destruct E as [E|]; [|done].
    destruct (0 <? size E)%nat; [|done].
    pose proof (get_session_signatures_page tlocs p) as Hp.
    destruct (get_session_signatures tlocs p) as [[e|tsess] p1]; simpl in Hp;
      subst p1; [done|].
    pose proof (get_session_signatures_page ilocs p) as Hp.
    by destruct (get_session_signatures ilocs p) as [[e|isess] p1];
      simpl in Hp; subst p1.
  - intros I T X pf. unfold get_signatures_from_page. intros Hrun.
    apply bind_inv in Hrun as (tlocs & p1 & Hfill & Hrun).
    apply bind_inv in Hrun as (tsigs & p2 & Htsigs & Hrun).
    pose proof (get_signatures_page tlocs p1) as Hp. rewrite Htsigs in Hp.
    simpl in Hp. subst p2.
    apply for_each_read_Return in Htsigs.
    apply bind_inv in Hrun as (ilocs & p2 & Hil & Hrun).
    unfold read in Hil. injection Hil as Hil <-.
    apply bind_inv in Hrun as (isigs & p2 & Hisigs & Hrun).
    pose proof (get_signatures_page ilocs p1) as Hp. rewrite Hisigs in Hp.
    simpl in Hp. subst p2.
    apply for_each_read_Return in Hisigs.
    assert (∀ locs sigs l s,
              Forall2 (λ l y, evaluate_signature p1 l = Return y) locs sigs →
              l ∈ locs → evaluate_signature p1 l = Return s → s ∈ sigs)
      as Hin.
    { intros locs sigs l s Hall [i Hl]%list_elem_of_lookup Hev.
      destruct (Forall2_lookup_l _ _ _ _ _ Hall Hl) as (s' & Hs & Hev').
      assert (s' = s) as -> by congruence. by eapply list_elem_of_lookup_2. }
    assert ((∃ E', E = Some E' ∧ (0 < size E')%nat)
            ∨ (default ∅ E = ∅
               ∧ Return (A:=exn) (list_to_set isigs, list_to_set tsigs, ∅)
                 = Return (I, T, X) ∧ pf = p1)) as [(E' & -> & Hpos)|Hnone].
    { destruct E as [E'|].
      - destruct (Nat.ltb_spec 0 (size E')) as [Hpos|Hzero]; [by eauto|].
        right. unfold ret in Hrun. injection Hrun as <- <- <- <-.
        split; [|done]. simpl. apply leibniz_equiv, size_empty_iff. lia.
      - right. unfold ret in Hrun. by injection Hrun as <- <- <- <-. }
    + apply Nat.ltb_lt in Hpos. rewrite Hpos in Hrun.
      apply bind_inv in Hrun as (tsess & p2 & Htsess & Hrun).
      pose proof (get_session_signatures_page tlocs p1) as Hp.
      rewrite Htsess in Hp. simpl in Hp. subst p2.
      apply for_each_read_Return in Htsess.
      apply bind_inv in Hrun as (isess & p2 & Hisess & Hrun).
      pose proof (get_session_signatures_page ilocs p1) as Hp.
      rewrite Hisess in Hp. simpl in Hp. subst p2.
      apply for_each_read_Return in Hisess.
      unfold ret in Hrun. injection Hrun as <- <- <- <-.
      exists tlocs, ilocs.
      split_and!; [by destruct fill_textboxes|done| | |].
      * intros l s [i Hl]%list_elem_of_lookup Hev.
        destruct (Forall2_lookup_l _ _ _ _ _ Hisess Hl) as (x & Hx & Hevx).
        rewrite !elem_of_list_to_set, elem_of_app.
        rewrite !(selected_signatures_spec _ ilocs isigs isess p1)
          by done.
        rewrite (selected_signatures_spec _ tlocs tsigs tsess p1) by done.
        destruct (decide (x ∈ E')) as [Hex|Hex].
        -- right. right. exists l, x.
           split_and!; [by eapply list_elem_of_lookup_2|done..|].
           by apply bool_decide_eq_true.
        -- left. exists l, x.
           split_and!; [by eapply list_elem_of_lookup_2|done..|].
           by apply bool_decide_eq_true.
      * intros l s [i Hl]%list_elem_of_lookup Hev.
        destruct (Forall2_lookup_l _ _ _ _ _ Htsess Hl) as (x & Hx & Hevx).
        rewrite !elem_of_list_to_set, elem_of_app.
        rewrite !(selected_signatures_spec _ tlocs tsigs tsess p1)
          by done.
        rewrite (selected_signatures_spec _ ilocs isigs isess p1) by done.
        destruct (decide (x ∈ E')) as [Hex|Hex].
        -- right. left. exists l, x.
           split_and!; [by eapply list_elem_of_lookup_2|done..|].
           by apply bool_decide_eq_true.
        -- left. exists l, x.
           split_and!; [by eapply list_elem_of_lookup_2|done..|].
           by apply bool_decide_eq_true.
      * intros s. rewrite elem_of_list_to_set, elem_of_app.
        rewrite (selected_signatures_spec _ tlocs tsigs tsess p1) by done.
        rewrite (selected_signatures_spec _ ilocs isigs isess p1) by done.
        unfold excluded_by. simpl. split.
        -- intros [(l & x & Hl & Hev & Hx & Hk%bool_decide_eq_true)
                  |(l & x & Hl & Hev & Hx & Hk%bool_decide_eq_true)];
             exists l; eauto 10.
        -- intros (l & [Hl|Hl] & Hev & x & Hx & Hk);
             [left|right]; exists l, x;
             split_and!; try done; by apply bool_decide_eq_true.
    + destruct Hnone as (Hempty & [= <- <- <-] & ->).
      exists tlocs, ilocs.
      split_and!; [by destruct fill_textboxes|done| | |].
      * intros l s Hl Hev. left. rewrite elem_of_list_to_set. eauto.
      * intros l s Hl Hev. left. rewrite elem_of_list_to_set. eauto.
      * intros s. rewrite Hempty. unfold excluded_by. split.
        -- by intros ?%elem_of_empty.
        -- intros (l & _ & _ & x & _ & Hx). by apply elem_of_empty in Hx.
Qed.

(** *** The links a replay discovers *)

Lemma characters_length s x : x ∈ characters s → String.length x = 1%nat.
Proof.
  clear.
  induction s as [|c s IH]; simpl; [by intros ?%elem_of_nil|].
  intros [->|Hin]%elem_of_cons; [done|auto].
Qed.

(** X20. [_get_discovered_links_set] only reads the page.  Without a visit
    it returns the links and image links of the page.  With a visit, what
    it adds for the URL the visit ended on and for the URL of the page
    are the characters of these URLs, one string for each: every member
    of the result is a link of the page, an image link, or a string of
    length one.  With a visit that has no ending URL it raises
    [TypeError]. *)
Theorem discovered_links_hold_characters
    (optional_browser_url_visit : option BrowserUrlVisit) (p : Page) :
  (_get_discovered_links_set optional_browser_url_visit p).2 = p
  ∧ (∀ links p',
       _get_discovered_links_set optional_browser_url_visit p
       = (Return links, p') →
       ∃ hrefs images,
         get_href_links_from_page p = Return hrefs
         ∧ get_image_links_from_page p = Return images
         ∧ (optional_browser_url_visit = None →
            links = list_to_set hrefs ∪ list_to_set images)
         ∧ (∀ visit, optional_browser_url_visit = Some visit →
              ∃ ending, ending_url visit = Some ending
                ∧ links = list_to_set hrefs ∪ list_to_set images
                          ∪ list_to_set (characters ending)
                          ∪ list_to_set (characters (page_url p)))
         ∧ (∀ x, x ∈ links →
                 x ∈ hrefs ∨ x ∈ images ∨ String.length x = 1%nat))
  ∧ (∀ visit hrefs images,
       optional_browser_url_visit = Some visit →
       ending_url visit = None →
       get_href_links_from_page p = Return hrefs →
       get_image_links_from_page p = Return images →
       _get_discovered_links_set optional_browser_url_visit p
       = (Raise TypeError, p)).
Proof.
  clear set_iter_perm set_iter locator_all evaluate_signature
        evaluate_outer_html get_text_input_field_list
        get_and_fill_text_input_field_list
        get_interactable_locators_from_page await_locator click_locator
        focus_and_press reload_and_click re_match.
  unfold _get_discovered_links_set, bind, read, ret, raise.
  split_and!.
  - destruct (get_href_links_from_page p); [done|].
    destruct (get_image_links_from_page p); [done|].
    destruct optional_browser_url_visit as [v|]; [|done].
    by destruct (ending_url v).
  - intros links p'.
    destruct (get_href_links_from_page p) as [e|hrefs]; [done|].
    destruct (get_image_links_from_page p) as [e|images]; [done|].
    destruct optional_browser_url_visit as [v|].
    + destruct (ending_url v) as [ending|] eqn:Hend; [|done].
      intros [= <- <-]. exists hrefs, images.
      split_and!; [done|done|done| |].
      * intros visit [= <-]. exists ending. done.
      * intros x. rewrite !elem_of_union, !elem_of_list_to_set.
        intros [[[?|?]|?%characters_length]|?%characters_length]; tauto.
    + intros [= <- <-]. exists hrefs, images.
      split_and!; [done|done|done|done|].
      intros x. rewrite !elem_of_union, !elem_of_list_to_set. tauto.
  - intros visit hrefs images -> Hend -> ->. by rewrite Hend.
Qed.

(** *** A maximum length *)

(** X21. With [max_signature_sequence_length] supplied, the function returns
    only when the replay has left the starting URL, and then without
    children: whenever the page is still at its URL the length test is
    reached and [len(signature_sequence)] raises [TypeError]. *)
Theorem max_length_only_returns_after_redirect
    (seq : SignatureSequence) (k : Z) (p : Page) :
  (∀ res pf,
     click_signatures_in_sequence_and_find_new_signatures seq (Some k) p
     = (Return res, pf) →
     page_url pf ≠ page_url p
     ∧ discovered_signature_sequence_list res = [])
  ∧ (∀ initial maybe p2 links,
       session_signature_snapshot p = (Return initial, p) →
       click_signatures_in_sequence seq p = (maybe, p2) →
       _get_discovered_links_set (content maybe) p2 = (Return links, p2) →
       page_url p2 = page_url p →
       click_signatures_in_sequence_and_find_new_signatures seq (Some k) p
       = (Raise TypeError, p2)).
Proof.
  clear set_iter_perm.
  split.
  - intros res pf Hrun.
    destruct (find_new_signatures_inv _ _ _ _ _ Hrun)
      as (initial & maybe & p2 & _ & _ & _ & [(Hne & Hnil & ->)|(_ & ? & _)]);
      done.
  - intros initial maybe p2 links Hsnap Hclick Hlinks Hurl.
    unfold click_signatures_in_sequence_and_find_new_signatures.
    unfold bind at 1, read at 1.
    rewrite (bind_Return _ _ _ _ _ Hsnap).
    unfold bind at 1. rewrite Hclick.
    rewrite (bind_Return _ _ _ _ _ Hlinks).
    unfold bind at 1, read at 1.
    rewrite bool_decide_false by (intros Hne; by apply Hne).
    done.
Qed.

End browser.

End Dynamic.

(** ** A concrete browser

    A scripted page to run the explorer on: it shows a list of elements;
    filling the text inputs reveals the elements of [on_fill] (once),
    clicking or submitting an element reveals those it carries, and a
    reload changes nothing but a counter.  What awaiting a locator yields
    is left as a parameter. *)

Module DynamicExamples.
Import Utilities Datamodel Dynamic.

Inductive Element : Type :=
| El (el_signature el_html : string) (el_input el_interactable : bool)
     (el_reveals : list Element).

Definition el_signature (e : Element) : string :=
  match e with El s _ _ _ _ => s end.
Definition el_html (e : Element) : string :=
  match e with El _ h _ _ _ => h end.
Definition el_input (e : Element) : bool :=
  match e with El _ _ i _ _ => i end.
Definition el_interactable (e : Element) : bool :=
  match e with El _ _ _ i _ => i end.
Definition el_reveals (e : Element) : list Element :=
  match e with El _ _ _ _ r => r end.

Record Page : Type := mkPage {
  url : string;
  shown : list Element;
  on_fill : list Element;
  fills : nat;
  actions : nat;
  reloads : nat
}.

Definition visit_at (p : Page) : BrowserUrlVisit :=
  {| starting_url := Some (url p); ending_url := Some (url p);
     open_url_calling_context := None |}.

Definition text_inputs (p : Page) : list Element :=
  filter (λ e, el_input e = true) (shown p).

Definition fill (p : Page) : result (list Element) * Page :=
  (Return (text_inputs p),
   match text_inputs p with
   | [] => {| url := url p; shown := shown p; on_fill := on_fill p;
              fills := S (fills p); actions := actions p;
              reloads := reloads p |}
   | _ :: _ => {| url := url p; shown := shown p ++ on_fill p; on_fill := [];
                  fills := S (fills p); actions := actions p;
                  reloads := reloads p |}
   end).

Definition act (e : Element) (p : Page) : result BrowserUrlVisit * Page :=
  (Return (visit_at p),
   {| url := url p; shown := shown p ++ el_reveals e; on_fill := on_fill p;
      fills := fills p; actions := S (actions p); reloads := reloads p |}).

Definition reload (p : Page) : result BrowserUrlVisit * Page :=
  (Return (visit_at p),
   {| url := url p; shown := shown p; on_fill := on_fill p;
      fills := fills p; actions := actions p; reloads := S (reloads p) |}).

Definition all_elements (p : Page) : result (list Element) :=
  Return (shown p).
Definition signature_of (p : Page) (e : Element) : result string :=
  Return (el_signature e).
Definition html_of (p : Page) (e : Element) : result string :=
  Return (el_html e).
Definition inputs_of (p : Page) : result (list Element) :=
  Return (text_inputs p).
Definition interactables_of (p : Page) : result (list Element) :=
  Return (filter (λ e, el_interactable e = true) (shown p)).
Definition no_links (p : Page) : result (list string) := Return [].

(** The two readings of [await locator]: it yields the locator, or it
    raises because a locator cannot be awaited. *)
Definition await_yields (l : Element) : result Element := Return l.
Definition await_raises (l : Element) : result Element := Raise TypeError.

Section with_await.
Variable await : Element → result Element.

Definition replay (handles : list SignatureHandle) (p : Page)
  : replay_state * Page :=
  click_loop Page Element all_elements signature_of html_of fill await
             act act handles replay_start p.

Definition replay_turns (handles : list SignatureHandle) (p : Page)
  : list turn :=
  click_turns Page Element all_elements signature_of html_of fill await
              act act handles ∅ p.

Definition replay_maybe (seq : SignatureSequence) (p : Page)
  : Maybe BrowserUrlVisit * Page :=
  click_signatures_in_sequence Page Element all_elements signature_of
    html_of fill await act act seq p.

Definition explore (seq : SignatureSequence) (max_length : option Z)
    (p : Page) : result SignatureSequenceActionResults * Page :=
  click_signatures_in_sequence_and_find_new_signatures Page Element url
    all_elements signature_of html_of inputs_of fill interactables_of
    await act act no_links no_links elements seq max_length p.

End with_await.

Definition signatures_on (excluded : option (gset string)) (p : Page)
  : result (gset string * gset string * gset string) * Page :=
  get_signatures_from_page Page Element signature_of html_of inputs_of fill
    interactables_of excluded true p.

Definition reload_until_ready (num_reloads : Z) (min_elements : option Z)
    (required : option (gset string)) (p : Page)
  : result (gset string * gset string) * Page :=
  reload_url_until_signatures_appear_and_get_signatures Page Element
    signature_of html_of inputs_of fill interactables_of reload
    (λ _ _, false) elements num_reloads min_elements required None None
    false p.

Definition observations (num_reloads : Z) (min_elements : option Z)
    (required : option (gset string)) (p : Page) : list (gset string) :=
  reload_observations Page Element signature_of html_of inputs_of fill
    interactables_of reload (λ _ _, false) elements (Z.to_nat num_reloads)
    min_elements required None None false p.

(** Elements and pages *)

Definition button (name : string) (id : string) (reveals : list Element)
  : Element :=
  El ("tag=[BUTTON]_role=[null]_text=[" +:+ name +:+ "]_src=[undefined]_image=[]")
     ("<button id=" +:+ id +:+ ">" +:+ name +:+ "</button>")
     false true reveals.

Definition input (id : string) : Element :=
  El "tag=[INPUT]_role=[null]_text=[]_src=[undefined]_image=[]"
     ("<input id=" +:+ id +:+ ">") true true [].

Definition page (shown on_fill : list Element) : Page :=
  {| url := "http://site.test/"; shown := shown; on_fill := on_fill;
     fills := 0; actions := 0; reloads := 0 |}.

Definition click (sig : string) : SignatureHandle := new_handle CLICK sig.

Definition sequence (handles : list SignatureHandle) : SignatureSequence :=
  {| signature_sequence := handles; required_signatures := ∅ |}.

End DynamicExamples.

(** ** Runs on concrete inputs *)

Module Scenarios.
Import Utilities Datamodel Dynamic DynamicExamples SpiderExamples.

Lemma elements_iter (X : gset string) (x : string) : x ∈ elements X ↔ x ∈ X.
Proof. apply elem_of_elements. Defined.

Lemma elements_perm (X : gset string) : elements X ≡ₚ elements X.
Proof. reflexivity. Defined.

(** *** The queue *)

Definition by_length (s : string) : Z := Z.of_nat (String.length s).

Definition queue_calls : list (Queue.call (T := string)) :=
  [Queue.AddToQueue "/a/1"; Queue.AddToQueue "/b";
   Queue.PopFromQueue None; Queue.AddToQueue "/a/1";
   Queue.PopFromQueue (Some by_length); Queue.AddToQueue "/b";
   Queue.PopFromQueue None].

Lemma no_value_popped_twice_witness :
  NoDup (Queue.run_calls elements queue_calls
                         (Queue.construct "url_queue", [])).2.
Proof.
  exact (proj1 (Queue.no_value_popped_twice elements elements_iter
                  "url_queue") queue_calls).
Defined.

Example queue_calls_pops :
  (Queue.run_calls elements queue_calls (Queue.construct "url_queue", [])).2
  = ["/b"; "/a/1"].
Proof. vm_compute. reflexivity. Qed.

Lemma pop_from_empty_queue_witness :
  Queue.pop_from_queue elements None (Queue.construct (T := string) "q")
  = (Raise KeyError, Queue.construct "q")
  ∧ ∀ fn, Queue.pop_from_queue elements (Some fn)
            (Queue.construct (T := string) "q")
          = (Raise ValueError, Queue.construct "q").
Proof.
  apply (Queue.pop_from_queue_requires_nonempty elements elements_iter
           (Queue.construct (T := string) "q")).
  reflexivity.
Defined.

(** *** The spider *)

Definition login_variants : list string :=
  ["http://a.com/login"; "http://a.com/login?ref=1";
   "http://a.com/login?ref=2"; "http://a.com/login?ref=3";
   "http://a.com/login?ref=4"].

Definition enqueue_calls (urls : list string) : list Spider.call :=
  Spider.EnqueueUrl <$> urls.

Definition after_calls (cs : list Spider.call) : Spider.PlaywrightSpider Trie :=
  Spider.run_calls elements Trie trie_setitem trie_longest_prefix
    (Tld.extract ["com"]) Re.fullmatch asset_match id cs
    (Spider.init Trie [] ".*a\.com" None 3 1000 None).

Lemma bounded_fan_out_witness :
  Z.of_nat (size (Spider.accepted_variants Trie
                    (after_calls (enqueue_calls login_variants))
                    "http://a.com/login")) ≤ 3.
Proof.
  refine (proj1 (Spider.bounded_fan_out elements elements_iter Trie []
                   trie_setitem trie_longest_prefix (Tld.extract ["com"])
                   Re.fullmatch asset_match id ".*a\.com" None 3 1000 None
                   (enqueue_calls login_variants) "http://a.com/login" _)).
  lia.
Defined.

Example login_variants_accepted :
  elements (Spider.accepted Trie (after_calls (enqueue_calls login_variants)))
  = ["http://a.com/login?ref=1"; "http://a.com/login?ref=2";
     "http://a.com/login"]
  ∧ elements (Spider.skipped_urls Trie
                (after_calls (enqueue_calls login_variants)))
    = ["http://a.com/login?ref=3"; "http://a.com/login?ref=4"].
Proof. vm_compute. done. Qed.

Definition site_links (u : string) : list string :=
  if String.eqb u "http://site.com/"
  then ["http://site.com/login"; "http://site.com/about";
        "http://site.com/login?ref=1"; "http://site.com/login?ref=2";
        "http://site.com/login?ref=3"; "http://site.com/login?ref=4"]
  else [].

(** What a crawl leaves behind: the outcome, the URLs in [visited_urls],
    the number of records written, what is pending, what was accepted. *)
Definition summary
    (r : option (result () * Spider.PlaywrightSpider Trie * ()))
  : option (result () * list string * nat * list string * list string) :=
  match r with
  | Some (outcome, s, _) =>
      Some (outcome, (map_to_list (Spider.visited_urls Trie s)).*1,
            length (Spider.written Trie s),
            elements (Spider.pending Trie s),
            elements (Spider.accepted Trie s))
  | None => None
  end.

(** The end-to-end scenario: five URLs are visited and the frontier
    empties. *)
Example crawl_of_site :
  summary (crawl open_ok site_links 10 ["http://site.com/"]
                 (fresh ".*site\.com" 3))
  = Some (Return (),
          ["http://site.com/about"; "http://site.com/login?ref=1";
           "http://site.com/login?ref=2"; "http://site.com/login";
           "http://site.com/"],
          5%nat, [],
          ["http://site.com/about"; "http://site.com/login?ref=1";
           "http://site.com/login?ref=2"; "http://site.com/login";
           "http://site.com/"]).
Proof. vm_compute. reflexivity. Qed.

(** C3, as stated, fails: in a browser where the page does not load, the
    crawl of one URL ends with that URL accepted and no longer pending,
    but absent from [visited_urls], and with no record written. *)
Lemma page_load_failure_counterexample :
  summary (crawl open_fails (λ _, []) 10 ["http://a.com/"]
                 (fresh ".*a\.com" 3))
  = Some (Return (), [], 0%nat, [], ["http://a.com/"]).
Proof. vm_compute. reflexivity. Qed.

Lemma page_load_failure_witness :
  Spider._visit Trie (Tld.extract ["com"]) Re.fullmatch asset_match id
    () open_fails (page_with (λ _, [])) "http://a.com/"
    (fresh ".*a\.com" 3) ()
  = (Return (), fresh ".*a\.com" 3, ()).
Proof.
  refine (proj1 (Spider.page_load_failure_is_dropped elements elements_iter
                   Trie [] trie_setitem trie_longest_prefix
                   (Tld.extract ["com"]) Re.fullmatch asset_match id
                   () open_fails (page_with (λ _, [])) "http://a.com/"
                   (fresh ".*a\.com" 3) () _)).
  reflexivity.
Defined.

(** *** The explorer *)

Definition next_button : Element := button "Next" "n" [].

(** A page with one text input; typing into it reveals a button. *)
Definition form_page : Page := page [input "a"] [next_button].

(** Two handles whose elements are not on the page. *)
Definition gone_handles : list SignatureHandle :=
  [click "gone"; click "gone too"].

(** The child sequences of a run, none when it raised. *)
Definition children_of (r : result SignatureSequenceActionResults * Page)
  : list SignatureSequence :=
  match r.1 with
  | inr res => discovered_signature_sequence_list res
  | inl _ => []
  end.

(** What the turns of a replay did: handle, elements in the snapshot,
    elements in the exclusion set, outcome. *)
Definition turn_summary (t : turn)
  : string * list string * list string
    * option (result (option BrowserUrlVisit)) :=
  (signature (turn_handle t),
   match turn_snapshot t with inr s => elements s | inl _ => [] end,
   elements (turn_excluded t), turn_outcome t).

(** C4, as stated, fails: the first handle finds no element, yet the
    replay records no error and goes on to the second handle, which is
    given the first snapshot as exclusion set and fills the text inputs
    again; this whatever awaiting a locator does. *)
Lemma missing_element_counterexample :
  (turn_summary <$> replay_turns await_yields gone_handles form_page
   = [("gone", ["<input id=a>"], [], Some (Return None));
      ("gone too", ["<input id=a>"; "<button id=n>Next</button>"],
       ["<input id=a>"], Some (Return None))]
   ∧ replay_error (replay await_yields gone_handles form_page).1 = None
   ∧ fills (replay await_yields gone_handles form_page).2 = 2%nat)
  ∧ (turn_summary <$> replay_turns await_raises gone_handles form_page
     = [("gone", ["<input id=a>"], [], Some (Return None));
        ("gone too", ["<input id=a>"; "<button id=n>Next</button>"],
         ["<input id=a>"], Some (Return None))]
     ∧ replay_error (replay await_raises gone_handles form_page).1 = None
     ∧ fills (replay await_raises gone_handles form_page).2 = 2%nat).
Proof. vm_compute. done. Qed.

Lemma missing_element_witness :
  take_action_on_signature_handle Page Element all_elements signature_of
    html_of fill await_yields act act (click "gone") (Some ∅) form_page
  = (Return None, (fill form_page).2).
Proof.
  refine (proj1 (missing_element_does_not_abort Page Element all_elements
                   signature_of html_of fill await_yields act act
                   (click "gone") [click "gone too"] replay_start
                   {["<input id=a>"]} form_page form_page
                   (fill form_page).2 (fill form_page).2 _ _ _)).
  - vm_compute. reflexivity.
  - reflexivity.
  - vm_compute. reflexivity.
Defined.

(** When the second handle's element is on the page, outside the
    exclusion set, and awaiting its locator yields it, that element is
    clicked after the first handle found nothing. *)
Example missing_then_found :
  let handles := [click "gone"; click (el_signature next_button)] in
  content (replay_maybe await_yields (sequence handles) form_page).1
  = Some (visit_at form_page)
  ∧ error (replay_maybe await_yields (sequence handles) form_page).1 = None
  ∧ actions (replay_maybe await_yields (sequence handles) form_page).2
    = 1%nat.
Proof. vm_compute. done. Qed.

(** C5, as stated, fails: the button revealed while the first handle was
    processed is in the snapshot taken before the second handle and in the
    exclusion set the replay accumulated, and discovery still reports it,
    because it excludes by the snapshot taken before the replay. *)
Lemma accumulated_exclusion_counterexample :
  (elements (replay_excluded (replay await_yields gone_handles form_page).1)
   = ["<input id=a>"; "<button id=n>Next</button>"]
   ∧ children_of (explore await_yields (sequence gone_handles) None form_page)
     = [child_sequence (sequence gone_handles)
                       (click (el_signature next_button))])
  ∧ (elements (replay_excluded (replay await_raises gone_handles form_page).1)
     = ["<input id=a>"; "<button id=n>Next</button>"]
     ∧ children_of (explore await_raises (sequence gone_handles) None
                            form_page)
       = [child_sequence (sequence gone_handles)
                         (click (el_signature next_button))]).
Proof. vm_compute. done. Qed.

(** The same with handles that find their elements, when awaiting a
    locator yields it: [B], revealed by the click on [A], is on the page
    before the click on [B] and is reported as new after it. *)
Example revealed_element_reported_again :
  let b := button "B" "b" [] in
  let a := button "A" "a" [b] in
  let handles := [click (el_signature a); click (el_signature b)] in
  elements (replay_excluded (replay await_yields handles (page [a] [])).1)
  = ["<button id=a>A</button>"; "<button id=b>B</button>"]
  ∧ children_of (explore await_yields (sequence handles) None (page [a] []))
    = [child_sequence (sequence handles) (click (el_signature b))].
Proof. vm_compute. done. Qed.

Definition explored_form :
    result SignatureSequenceActionResults * Page :=
  Eval vm_compute in
    explore await_yields (sequence gone_handles) None form_page.

Definition explored_form_results : SignatureSequenceActionResults :=
  Eval vm_compute in
    match explored_form.1 with
    | inr res => res
    | inl _ => mkResults [] None ∅
    end.

Lemma discovery_witness :
  explore await_yields (sequence gone_handles) None form_page
  = (Return explored_form_results, explored_form.2)
  ∧ ∃ initial,
      session_signature_snapshot Page Element all_elements html_of form_page
      = (Return initial, form_page).
Proof.
  assert (explore await_yields (sequence gone_handles) None form_page
          = (Return explored_form_results, explored_form.2)) as Hrun
    by (vm_compute; reflexivity).
  split; [exact Hrun|].
  destruct (discovery_excludes_initial_snapshot Page Element url
              all_elements signature_of html_of inputs_of fill
              interactables_of await_yields act act no_links no_links
              elements elements_perm (sequence gone_handles) None
              form_page explored_form.2 explored_form_results Hrun)
    as (initial & p2 & Hsnap & _).
  by exists initial.
Defined.

(** Two buttons with the same stable signature, revealed together. *)
Definition twin_page : Page :=
  page [input "a"] [button "OK" "1" []; button "OK" "2" []].

(** The elements of [after] that [before] does not show. *)
Definition new_elements (before after : Page) : list string :=
  filter (λ h, h ∉ el_html <$> shown before) (el_html <$> shown after).

(** C7, as stated, fails: discovery finds two new interactable elements
    and produces one child, because children are made per distinct stable
    signature. *)
Lemma one_child_for_twins_counterexample :
  new_elements twin_page (explore await_yields (sequence []) None twin_page).2
  = ["<button id=1>OK</button>"; "<button id=2>OK</button>"]
  ∧ children_of (explore await_yields (sequence []) None twin_page)
    = [child_sequence (sequence [])
                      (click (el_signature (button "OK" "1" [])))].
Proof. vm_compute. done. Qed.

Definition explored_twins :
    result SignatureSequenceActionResults * Page :=
  Eval vm_compute in explore await_yields (sequence []) None twin_page.

Definition explored_twins_results : SignatureSequenceActionResults :=
  Eval vm_compute in
    match explored_twins.1 with
    | inr res => res
    | inl _ => mkResults [] None ∅
    end.

Lemma children_witness :
  explore await_yields (sequence []) None twin_page
  = (Return explored_twins_results, explored_twins.2)
  ∧ ∃ initial,
      session_signature_snapshot Page Element all_elements html_of twin_page
      = (Return initial, twin_page).
Proof.
  assert (explore await_yields (sequence []) None twin_page
          = (Return explored_twins_results, explored_twins.2)) as Hrun
    by (vm_compute; reflexivity).
  split; [exact Hrun|].
  destruct (children_per_distinct_signature Page Element url
              all_elements signature_of html_of inputs_of fill
              interactables_of await_yields act act no_links no_links
              elements elements_perm (sequence []) None
              twin_page explored_twins.2 explored_twins_results Hrun)
    as (initial & p2 & Hsnap & _).
  by exists initial.
Defined.

(** With a maximum length the run raises as soon as the length test is
    reached. *)
Example max_length_supplied :
  (explore await_yields (sequence []) (Some 5) twin_page).1
  = Raise TypeError.
Proof. vm_compute. reflexivity. Qed.

(** A page with a single button. *)
Definition lone_page : Page := page [button "A" "1" []] [].

(** A page with three buttons. *)
Definition trio_page : Page :=
  page [button "A" "1" []; button "B" "2" []; button "C" "3" []] [].

(** C6, as stated, fails.  On [lone_page] the required signature is there
    at the first turn, and on [trio_page] three distinct signatures are;
    each time the other test fails and the page is reloaded ten times. *)
Lemma reload_despite_one_condition_counterexample :
  (elements <$> head (observations 10 (Some 3)
                        (Some {[el_signature (button "A" "1" [])]}) lone_page)
   = Some [el_signature (button "A" "1" [])]
   ∧ reloads (reload_until_ready 10 (Some 3)
                (Some {[el_signature (button "A" "1" [])]}) lone_page).2
     = 10%nat)
  ∧ ((λ X : gset string, size X)
       <$> head (observations 10 (Some 3) (Some {["missing"]}) trio_page)
     = Some 3%nat
     ∧ reloads (reload_until_ready 10 (Some 3) (Some {["missing"]})
                  trio_page).2
       = 10%nat).
Proof. vm_compute. done. Qed.

Definition trio_observations : list (gset string) :=
  observations 10 (Some 3) (Some ∅) trio_page.

Lemma reload_loop_witness :
  (length trio_observations ≤ Z.to_nat 10)%nat.
Proof.
  exact (proj1 (reload_loop_stops_when_ready Page Element signature_of
                  html_of inputs_of fill interactables_of reload
                  (λ _ _, false) elements elements_perm 10 (Some 3) (Some ∅)
                  None None false trio_page)).
Defined.

Example ready_at_once :
  length trio_observations = 1%nat
  ∧ reloads (reload_until_ready 10 (Some 3) (Some ∅) trio_page).2 = 0%nat.
Proof. vm_compute. done. Qed.

(** *** Further scenarios: the queue *)

Lemma enqueued_values_witness :
  Queue.has_ever_been_enqueued
    (Queue.run_calls elements queue_calls (Queue.construct "url_queue", [])).1
  = Queue.added queue_calls
  ∧ Queue.has_ever_been_enqueued
      (Queue.run_calls elements queue_calls
         (Queue.construct "url_queue", [])).1
    = Queue.queue
        (Queue.run_calls elements queue_calls
           (Queue.construct "url_queue", [])).1
      ∪ list_to_set
          (Queue.run_calls elements queue_calls
             (Queue.construct "url_queue", [])).2.
Proof.
  pose proof (Queue.enqueued_values_are_pending_or_popped elements
                elements_iter "url_queue" queue_calls) as (H1 & H2 & _).
  exact (conj H1 H2).
Defined.

(** Two pending URLs. *)
Definition two_pending : Queue.SingleVisitQueue (T := string) :=
  (Queue.add_to_queue "/b" (Queue.add_to_queue "/a/1"
                              (Queue.construct "url_queue")).2).2.

Lemma pop_from_queue_returns_witness :
  "/b" ∈ Queue.queue two_pending
  ∧ ∀ x, x ∈ Queue.queue two_pending → by_length "/b" ≤ by_length x.
Proof.
  destruct (Queue.pop_from_queue_returns elements elements_iter
              (Some by_length) two_pending "/b"
              (Queue.pop_from_queue elements (Some by_length) two_pending).2)
    as (Hin & _ & _ & Hmin).
  - vm_compute. reflexivity.
  - split; [exact Hin|]. exact (proj1 (Hmin by_length eq_refl)).
Defined.

Lemma prefix_pop_from_queue_witness :
  PrefixQueue.pop_from_queue elements Trie trie_setitem trie_longest_prefix
    (PrefixQueue.construct Trie [] "url_queue")
  = (Raise ValueError, PrefixQueue.construct Trie [] "url_queue").
Proof.
  apply (proj1 (PrefixQueue.prefix_pop_from_queue_spec elements elements_iter
                  Trie trie_setitem trie_longest_prefix
                  (PrefixQueue.construct Trie [] "url_queue"))).
  reflexivity.
Defined.

(** *** Further scenarios: the visiting order *)

Definition three_paths : list string := ["/a/1"; "/b"; "/a/2"].

Lemma three_paths_NoDup : NoDup three_paths.
Proof. apply (bool_decide_unpack _). vm_compute. exact I. Defined.

Lemma string_ordering_indices_witness :
  ∃ indices,
    StringOrdering._get_string_ordering_indices elements Trie []
      trie_setitem trie_longest_prefix 4 three_paths
    = Some (inr indices)
    ∧ indices ≡ₚ StringOrdering.range 3.
Proof.
  refine (proj1 (StringOrdering.string_ordering_indices_spec elements
                   elements_iter Trie [] trie_setitem trie_longest_prefix
                   three_paths 4 _) three_paths_NoDup).
  simpl. lia.
Defined.

(** Twice the same string: the indices cannot be a rearrangement of the
    positions. *)
Example repeated_string_raises :
  StringOrdering._get_string_ordering_indices elements Trie []
    trie_setitem trie_longest_prefix 4 ["/a"; "/b"; "/a"]
  = Some (inl StringOrdering.RuntimeError).
Proof. vm_compute. reflexivity. Qed.

Lemma sort_by_string_witness :
  ∃ items,
    StringOrdering.sort_by_string elements Trie [] trie_setitem
      trie_longest_prefix id (λ _, "") 4 three_paths (Some id)
    = Some (inr items)
    ∧ items ≡ₚ three_paths.
Proof.
  refine (proj1 (StringOrdering.sort_by_string_spec elements elements_iter
                   Trie [] trie_setitem trie_longest_prefix id (λ _, "")
                   4 three_paths (Some id) _) _).
  - simpl. lia.
  - apply (bool_decide_unpack _). vm_compute. exact I.
Defined.

(** *** Further scenarios: the spider *)

Lemma enqueue_url_accounts_for_url_witness :
  "http://a.com/login"
  ∈ Spider.skipped_urls Trie (enqueue "http://a.com/login" (fresh ".*a\.com" 3))
    ∪ Spider.asset_urls Trie
        (enqueue "http://a.com/login" (fresh ".*a\.com" 3))
    ∪ Spider.accepted Trie
        (enqueue "http://a.com/login" (fresh ".*a\.com" 3)).
Proof.
  exact (proj1 (Spider.enqueue_url_accounts_for_url elements elements_iter
                  Trie [] trie_setitem trie_longest_prefix
                  (Tld.extract ["com"]) Re.fullmatch asset_match id
                  "http://a.com/login" (fresh ".*a\.com" 3))).
Defined.

(** A crawl that enqueues the start page, pops it and visits it. *)
Definition first_visit : list Spider.action :=
  [Spider.Enqueue "http://site.com/"; Spider.Pop;
   Spider.Visit "http://site.com/"].

Definition after_first_visit : Spider.PlaywrightSpider Trie :=
  (Spider.run_actions elements Trie trie_setitem trie_longest_prefix
     (Tld.extract ["com"]) Re.fullmatch asset_match id () open_ok
     (page_with site_links) first_visit
     (Spider.init Trie [] ".*site\.com" None 3 1000 None, ())).1.

Lemma accepted_urls_are_in_scope_witness :
  Spider.accepted Trie after_first_visit
  ## Spider.asset_urls Trie after_first_visit
  ∧ Spider.pending Trie after_first_visit
    ⊆ Spider.accepted Trie after_first_visit.
Proof.
  pose proof (Spider.accepted_urls_are_in_scope elements elements_iter
                Trie [] trie_setitem trie_longest_prefix
                (Tld.extract ["com"]) Re.fullmatch asset_match id () open_ok
                (page_with site_links) ".*site\.com" None 3 1000 None
                first_visit ()) as (_ & _ & H1 & H2 & _).
  exact (conj H1 H2).
Defined.



(** A browser in which every page redirects to another site. *)
Definition open_redirects (u : string) (w : ())
  : Maybe BrowserUrlVisit * () :=
  (mkMaybe (Some {| starting_url := Some u;
                    ending_url := Some "http://evil.com/";
                    open_url_calling_context := Some u |}) None, w).

Lemma out_of_scope_redirect_witness :
  ∃ self',
    Spider._visit Trie (Tld.extract ["com"]) Re.fullmatch asset_match id
      () open_redirects (page_with site_links) "http://a.com/"
      (fresh ".*a\.com" 3) ()
    = (Return (), self', ())
    ∧ Spider.skipped_urls Trie self'
      = Spider.skipped_urls Trie (fresh ".*a\.com" 3) ∪ {["http://evil.com/"]}
    ∧ Spider.url_queue Trie self' = Spider.url_queue Trie (fresh ".*a\.com" 3).
Proof.
  destruct (Spider.out_of_scope_redirect Trie (Tld.extract ["com"])
              Re.fullmatch asset_match id () open_redirects
              (page_with site_links) "http://a.com/" (fresh ".*a\.com" 3) ()
              {| starting_url := Some "http://a.com/";
                 ending_url := Some "http://evil.com/";
                 open_url_calling_context := Some "http://a.com/" |}
              None "http://evil.com/" ())
    as (self' & Hvisit & _ & Hskip & Hqueue & _).
  - reflexivity.
  - reflexivity.
  - vm_compute. reflexivity.
  - exists self'. exact (conj Hvisit (conj Hskip Hqueue)).
Defined.

(** The redirecting page is filed as visited all the same. *)
Example redirect_is_filed :
  summary (crawl open_redirects site_links 10 ["http://a.com/"]
                 (fresh ".*a\.com" 3))
  = Some (Return (), ["http://a.com/"], 1%nat, [], ["http://a.com/"]).
Proof. vm_compute. reflexivity. Qed.

(** *** Further scenarios: the explorer *)

(** A handle whose kind is neither [click] nor [submit]. *)
Definition hover_handle : SignatureHandle :=
  new_handle "hover" (el_signature (button "A" "1" [])).

Lemma unknown_kind_witness :
  take_action_on_signature_handle Page Element all_elements signature_of
    html_of fill await_yields act act hover_handle None lone_page
  = (Raise ValueError, (fill lone_page).2).
Proof.
  refine (Dynamic.unknown_kind_raises_when_element_found Page Element
            all_elements signature_of html_of fill await_yields act act
            hover_handle None lone_page (fill lone_page).2
            [button "A" "1" []] _ _ _ _).
  - discriminate.
  - discriminate.
  - reflexivity.
  - vm_compute. reflexivity.
Defined.

Lemma reload_without_budget_witness :
  reload_until_ready 0 (Some 3) None lone_page
  = (Raise UnboundLocalError, lone_page).
Proof.
  apply (proj1 (Dynamic.reload_until_signatures_appear_edges Page Element
                  signature_of html_of inputs_of fill interactables_of
                  reload (λ _ _, false) elements elements_perm 0 (Some 3)
                  None None None false lone_page)).
  lia.
Defined.

End Scenarios.
